(** * ve.dm.Transaction: a shallow embedding of the VisualEditor transaction core

    The development follows src/dm/ve.dm.Transaction.js.  Operations are a
    tagged union, a transaction is an operations list with an [applied]
    flag, the builder methods thread the operations list explicitly and
    return a [result] because they can throw.  What the file only calls is
    not among the sources: the Document with its tree, the node factory and
    the metadata merge rule are records of data and oracle functions or
    parameters, and ve.Range, the item tests of the linear data, ve.compare,
    ve.batchSplice and ve.copy are small definitions of their own.

    The last part models the object store (transactions, arrays and
    operation records with identity) for the statements about mutation. *)

From Stdlib Require Import ZArith Lia.
From stdpp Require Import base list gmap strings pretty.

Local Open Scope string_scope.
Local Open Scope list_scope.
Local Open Scope Z_scope.

(** ** Linear model data *)

(** An item of the linear model: a character or an element marker
    [{ type: T, attributes: ... }]; a closing marker has a type that starts
    with a slash.  Metadata elements are element markers too. *)
Inductive item : Type :=
| Chr (c : string)
| Elem (type : string) (attributes : list (string * string)).

(** A metadata cell: [undefined] or an array of metadata elements. *)
Definition cell : Type := option (list item).

(** JavaScript's [.length] of an array. *)
Definition len {A : Type} (l : list A) : Z := Z.of_nat (length l).

(** [a[i]] for a JavaScript number [i]: [None] stands for [undefined]. *)
Definition at_index {A : Type} (l : list A) (i : Z) : option A :=
  if i <? 0 then None else l !! Z.to_nat i.

(** [Array.prototype.slice( start, end )]. *)
Definition js_slice {A : Type} (l : list A) (s e : Z) : list A :=
  let n := len l in
  let k := if s <? 0 then Z.max (n + s) 0 else Z.min s n in
  let f := if e <? 0 then Z.max (n + e) 0 else Z.min e n in
  take (Z.to_nat (f - k)) (drop (Z.to_nat k) l).

(** The values a property of an operation can hold. *)
Inductive value : Type :=
| VUndefined
| VNumber (n : Z)
| VString (s : string)
| VBoolean (b : bool)
| VItems (l : list item)
| VCells (l : list cell).

(** ** Operations *)

Inductive method_t : Type := set | clear.
Inductive bias_t : Type := start | stop.

Inductive op : Type :=
| Retain (length : Z)
| RetainMetadata (length : Z)
| Replace (remove insert : list item)
          (removeMetadata insertMetadata : option (list cell))
          (insertedDataOffset insertedDataLength : option Z)
| ReplaceMetadata (remove insert : list item)
| Attribute (key : string) (from to : value)
| Annotate (method : method_t) (bias : bias_t) (index : string).

(** [op.type] *)
Definition opType (o : op) : string :=
  match o with
  | Retain _ => "retain"
  | RetainMetadata _ => "retainMetadata"
  | Replace _ _ _ _ _ _ => "replace"
  | ReplaceMetadata _ _ => "replaceMetadata"
  | Attribute _ _ _ => "attribute"
  | Annotate _ _ _ => "annotate"
  end.

Record Transaction : Type := mkTransaction {
  operations : list op;
  applied : bool
}.

(** [new ve.dm.Transaction( operations )] *)
Definition newTransaction (ops : list op) : Transaction :=
  {| operations := ops; applied := false |}.

(** ** Property access on operations

    [reversed] reads and writes the properties of an operation by name, so
    the typed operations are given the accessors [op[ prop ]] and
    [op[ prop ] = v].  An absent property reads as [undefined], and writing
    [undefined] to an optional property leaves it absent. *)

Definition method_name (m : method_t) : string :=
  match m with set => "set" | clear => "clear" end.

Definition bias_name (b : bias_t) : string :=
  match b with start => "start" | stop => "stop" end.

Definition of_optional_cells (m : option (list cell)) : value :=
  match m with Some l => VCells l | None => VUndefined end.

Definition of_optional_number (n : option Z) : value :=
  match n with Some z => VNumber z | None => VUndefined end.

Definition getProp (o : op) (prop : string) : value :=
  match o, prop with
  | _, "type" => VString (opType o)
  | Retain n, "length" => VNumber n
  | RetainMetadata n, "length" => VNumber n
  | Replace r _ _ _ _ _, "remove" => VItems r
  | Replace _ i _ _ _ _, "insert" => VItems i
  | Replace _ _ rm _ _ _, "removeMetadata" => of_optional_cells rm
  | Replace _ _ _ im _ _, "insertMetadata" => of_optional_cells im
  | Replace _ _ _ _ o _, "insertedDataOffset" => of_optional_number o
  | Replace _ _ _ _ _ l, "insertedDataLength" => of_optional_number l
  | ReplaceMetadata r _, "remove" => VItems r
  | ReplaceMetadata _ i, "insert" => VItems i
  | Attribute k _ _, "key" => VString k
  | Attribute _ f _, "from" => f
  | Attribute _ _ t, "to" => t
  | Annotate m _ _, "method" => VString (method_name m)
  | Annotate _ b _, "bias" => VString (bias_name b)
  | Annotate _ _ i, "index" => VString i
  | _, _ => VUndefined
  end.

(** [setProp o prop v] is [Some] of the operation after [o[ prop ] = v], and
    [None] when the assignment leaves the typed operations (a value of the
    wrong kind, or a property the variant does not have). *)
Definition setProp (o : op) (prop : string) (v : value) : option op :=
  match o, prop, v with
  | Retain _, "length", VNumber n => Some (Retain n)
  | RetainMetadata _, "length", VNumber n => Some (RetainMetadata n)
  | Replace _ i rm im o l, "remove", VItems r => Some (Replace r i rm im o l)
  | Replace r _ rm im o l, "insert", VItems i => Some (Replace r i rm im o l)
  | Replace r i _ im o l, "removeMetadata", VCells rm =>
      Some (Replace r i (Some rm) im o l)
  | Replace r i _ im o l, "removeMetadata", VUndefined =>
      Some (Replace r i None im o l)
  | Replace r i rm _ o l, "insertMetadata", VCells im =>
      Some (Replace r i rm (Some im) o l)
  | Replace r i rm _ o l, "insertMetadata", VUndefined =>
      Some (Replace r i rm None o l)
  | Replace r i rm im _ l, "insertedDataOffset", VNumber o =>
      Some (Replace r i rm im (Some o) l)
  | Replace r i rm im _ l, "insertedDataOffset", VUndefined =>
      Some (Replace r i rm im None l)
  | Replace r i rm im o _, "insertedDataLength", VNumber l =>
      Some (Replace r i rm im o (Some l))
  | Replace r i rm im o _, "insertedDataLength", VUndefined =>
      Some (Replace r i rm im o None)
  | ReplaceMetadata _ i, "remove", VItems r => Some (ReplaceMetadata r i)
  | ReplaceMetadata r _, "insert", VItems i => Some (ReplaceMetadata r i)
  | Attribute _ f t, "key", VString k => Some (Attribute k f t)
  | Attribute k _ t, "from", f => Some (Attribute k f t)
  | Attribute k f _, "to", t => Some (Attribute k f t)
  | Annotate _ b i, "method", VString "set" => Some (Annotate set b i)
  | Annotate _ b i, "method", VString "clear" => Some (Annotate clear b i)
  | Annotate m _ i, "bias", VString "start" => Some (Annotate m start i)
  | Annotate m _ i, "bias", VString "stop" => Some (Annotate m stop i)
  | Annotate m b _, "index", VString i => Some (Annotate m b i)
  | _, _, _ => None
  end.

(** ** Reversal *)

(** A reversal instruction: a string (use the value of that property of the
    original operation) or an object mapping old values to new values. *)
Inductive instruction : Type :=
| UseProperty (source : string)
| MapValue (table : list (string * string)).

(** [ve.dm.Transaction.reversers]; [None] for a type without an entry. *)
Definition reversers (type : string) : option (list (string * instruction)) :=
  match type with
  | "annotate" =>
      Some [("method", MapValue [("set", "clear"); ("clear", "set")])]
  | "attribute" =>
      Some [("from", UseProperty "to"); ("to", UseProperty "from")]
  | "replace" =>
      Some [("insert", UseProperty "remove");
            ("remove", UseProperty "insert");
            ("insertMetadata", UseProperty "removeMetadata");
            ("removeMetadata", UseProperty "insertMetadata")]
  | "replaceMetadata" =>
      Some [("insert", UseProperty "remove"); ("remove", UseProperty "insert")]
  | _ => None
  end.

(** [table[ key ]] for a table whose keys and values are strings.  Only a
    string key is looked up; the tables of [reversers] are indexed with
    [op.method] only. *)
Fixpoint assoc (table : list (string * string)) (key : string) : value :=
  match table with
  | [] => VUndefined
  | (k, v) :: rest => if String.eqb k key then VString v else assoc rest key
  end.

Definition tableLookup (table : list (string * string)) (key : value) : value :=
  match key with
  | VString s => assoc table s
  | _ => VUndefined
  end.

(** [ve.copy] is the copy function of the OOjs library, which copies arrays
    and plain objects recursively.  On the immutable values of this part a
    copy is the value itself; the object store below gives the copy of an
    operations array its own identity. *)
Definition ve_copy {A : Type} (x : A) : A := x.

(** One step of the loop [for ( prop in reverse )] of [reversed]: every
    assignment reads the original [op] and writes [newOp]. *)
Definition reverseStep (o : op) (newOp : option op)
           (entry : string * instruction) : option op :=
  let (prop, instr) := entry in
  match newOp with
  | Some n =>
      match instr with
      | UseProperty source => setProp n prop (getProp o source)
      | MapValue table => setProp n prop (tableLookup table (getProp o prop))
      end
  | None => None
  end.

(** The body of the outer loop of [reversed]: [newOp] for [op].  The
    assignments of [reversers] never leave the typed operations (lemma
    [reverseOp_assignments_typed]), so the fallback is not taken. *)
Definition reverseAssignments (o : op) : option op :=
  fold_left (reverseStep o) (default [] (reversers (opType o)))
            (Some (ve_copy o)).

Definition reverseOp (o : op) : op := default o (reverseAssignments o).

(** [ve.dm.Transaction.prototype.reversed]: a new transaction onto which one
    operation is pushed per operation of [this]. *)
Definition reversed (t : Transaction) : Transaction :=
  let tx := newTransaction [] in
  {| operations :=
       fold_left (fun acc o => (acc ++ [reverseOp o])%list) (operations t)
                 (operations tx);
     applied := applied tx |}.

(** [ve.dm.Transaction.prototype.clone] on values. *)
Definition clone (t : Transaction) : Transaction :=
  let tx := newTransaction [] in
  {| operations := ve_copy (operations t); applied := applied tx |}.

(** [ve.dm.Transaction.prototype.isNoOp] *)
Definition isNoOp (t : Transaction) : bool :=
  match operations t with
  | [] => true
  | [o] => String.eqb (opType o) "retain"
  | [o0; o1] =>
      String.eqb (opType o0) "retain" && String.eqb (opType o1) "retainMetadata"
  | _ => false
  end.

Definition hasOperationWithType (t : Transaction) (type : string) : bool :=
  existsb (fun o => String.eqb (opType o) type) (operations t).

Definition markAsApplied (t : Transaction) : Transaction :=
  {| operations := operations t; applied := true |}.

(** ** Offset and range translation *)

(** The loop of [translateOffset] from operation [i] on, with the loop
    variables [cursor] and [adjustment]. *)
Fixpoint translateOffsetFrom (ops : list op) (offset : Z)
         (excludeInsertion : bool) (cursor adjustment : Z) : Z :=
  match ops with
  | [] => offset + adjustment
  | Replace remove insert _ _ _ _ :: rest =>
      let insertLength := len insert in
      let removeLength := len remove in
      let prevAdjustment := adjustment in
      let adjustment := adjustment + (insertLength - removeLength) in
      if offset =? cursor + removeLength then
        if excludeInsertion && (removeLength <? insertLength) then
          offset + adjustment - insertLength + removeLength
        else
          offset + adjustment
      else if offset =? cursor then
        if insertLength =? 0 then
          cursor + removeLength + adjustment
        else
          cursor + prevAdjustment
      else if (cursor <? offset) && (offset <? cursor + removeLength) then
        cursor + removeLength + adjustment
      else
        translateOffsetFrom rest offset excludeInsertion
                            (cursor + removeLength) adjustment
  | Retain length :: rest =>
      if (cursor <=? offset) && (offset <? cursor + length) then
        offset + adjustment
      else
        translateOffsetFrom rest offset excludeInsertion
                            (cursor + length) adjustment
  | _ :: rest =>
      translateOffsetFrom rest offset excludeInsertion cursor adjustment
  end.

(** [ve.dm.Transaction.prototype.translateOffset]; an omitted
    [excludeInsertion] is [false]. *)
Definition translateOffset (t : Transaction) (offset : Z)
           (excludeInsertion : bool) : Z :=
  translateOffsetFrom (operations t) offset excludeInsertion 0 0.

(** Modelled from the spec: [ve.Range] is not among the sources.  Section 6
    of the specification gives it as immutable, with [start] and [end],
    [isCollapsed], [isBackwards] and a flipped construction for a backwards
    range.  [mkRange from to] is [new ve.Range( from, to )]: the range keeps
    the two offsets in the order of its direction, [start] is the lesser of
    them and [end] the greater, the range is collapsed when the two are
    equal and backwards when [from] is after [to]; so
    [new ve.Range( end, start )] is the range that runs from [end] back to
    [start]. *)
Record Range : Type := mkRange { r_from : Z; r_to : Z }.

Definition r_start (r : Range) : Z := Z.min (r_from r) (r_to r).
Definition r_end (r : Range) : Z := Z.max (r_from r) (r_to r).

Arguments r_start !r /.
Arguments r_end !r /.

Definition isCollapsed (r : Range) : bool := r_from r =? r_to r.
Definition isBackwards (r : Range) : bool := r_to r <? r_from r.

(** [ve.dm.Transaction.prototype.translateRange] *)
Definition translateRange (t : Transaction) (range : Range)
           (excludeInsertion : bool) : Range :=
  let start := translateOffset t (r_start range) (negb excludeInsertion) in
  let end_ := translateOffset t (r_end range) excludeInsertion in
  if isBackwards range then mkRange end_ start else mkRange start end_.

(** ** Errors

    A builder method returns normally or throws; [message] is the text of
    the thrown [Error]. *)

Inductive error : Type :=
| InvalidRetainLength (length : Z)
| ReplaceAfterReplaceMetadata
| NegativeRetainLength
| InvalidRange (from to : Z)
| EmptyMetadataList
| RangeOutOfBounds
| MetadataIndexOutOfBounds
| InvalidArrayLength
| NotAnObject.

Definition message (e : error) : string :=
  match e with
  | InvalidRetainLength n =>
      "Invalid retain length, cannot retain backwards:" +:+ pretty n
  | ReplaceAfterReplaceMetadata => "replace after replaceMetadata not allowed"
  | NegativeRetainLength => "Negative retain length"
  | InvalidRange a b =>
      "Invalid range, cannot remove from " +:+ pretty a +:+ " to " +:+ pretty b
  | EmptyMetadataList => "Cannot remove metadata from empty list"
  | RangeOutOfBounds => "Range out of bounds"
  | MetadataIndexOutOfBounds => "Metadata index out of bounds"
  | InvalidArrayLength => "Invalid array length"
  | NotAnObject => "Cannot read properties of undefined"
  end.

Inductive result (A : Type) : Type :=
| Ok (a : A)
| Throw (e : error).

Arguments Ok {A} a.
Arguments Throw {A} e.

#[global] Instance result_ret : MRet result := fun A a => Ok a.
#[global] Instance result_bind : MBind result := fun A B f m =>
  match m with
  | Ok a => f a
  | Throw e => Throw e
  end.

(** [new Array( n )]: an array of [n] holes, a [RangeError] for a negative
    length. *)
Definition newArray (n : Z) : result (list cell) :=
  if n <? 0 then Throw InvalidArrayLength else Ok (replicate (Z.to_nat n) None).

(** ** Collaborators *)

(** A node of the document tree, as far as [pushRemoval] looks at it. *)
Record Node : Type := mkNode {
  nodeType : string;
  nodeIsContent : bool
}.

(** An entry of the array [doc.selectNodes( range, mode )] returns. *)
Record Selection : Type := mkSelection {
  sel_node : Node;
  sel_range : option Range;
  sel_nodeRange : Range;
  sel_nodeOuterRange : Range
}.

(** The object [doc.fixupInsertion( data, offset )] returns. *)
Record Insertion : Type := mkInsertion {
  ins_offset : Z;
  ins_remove : Z;
  ins_data : list item;
  ins_insertedDataOffset : option Z;
  ins_insertedDataLength : option Z
}.

(** Modelled from the spec: [ve.dm.Document] is not among the sources.
    Section 6 of the specification lists what the transaction core consumes:
    the linear data, the parallel metadata (one cell per offset and a
    trailing one), the outer range of the internal list node, and the
    methods [selectNodes], [fixupInsertion] and [canBeMergedWith] of the
    tree, which are taken as oracles. *)
Record Document : Type := mkDocument {
  data : list item;
  metadata : list cell;
  internalListOuterStart : Z;
  selectNodes : Range -> string -> list Selection;
  fixupInsertion : list item -> Z -> Insertion;
  canBeMergedWith : Node -> Node -> bool
}.

(** Modelled from the spec: [doc.getData( range )] and
    [doc.getMetadata( range )] of [ve.dm.Document] are not among the
    sources; section 4.2 of the specification has [pushReplace] read the
    items and the cells at [[offset, offset + removeLen)]. *)
Definition slice_range {A : Type} (l : list A) (range : Range) : list A :=
  take (Z.to_nat (r_end range) - Z.to_nat (r_start range))%nat
       (drop (Z.to_nat (r_start range)) l).

Definition getData (doc : Document) (range : Range) : list item :=
  slice_range (data doc) range.

Definition getMetadata (doc : Document) (range : Range) : list cell :=
  slice_range (metadata doc) range.

(** Modelled from the spec: [doc.metadata.getData( offset )] of
    [ve.dm.MetaLinearData] is not among the sources; section 6 of the
    specification gives it as the cell at [offset]. *)
Definition metadataAt (doc : Document) (offset : Z) : cell :=
  mjoin (at_index (metadata doc) offset).

(** Modelled from the spec: [isElementData], [isCloseElementData] and
    [getType] of the linear data are not among the sources; by section 3 of
    the specification an item is a character or an element marker, and a
    closing marker is one whose type starts with a slash. *)
Definition isElementData (doc : Document) (i : Z) : bool :=
  match at_index (data doc) i with
  | Some (Elem _ _) => true
  | _ => false
  end.

(** [type.charAt( 0 ) === '/'] *)
Definition isClosingType (type : string) : bool := String.prefix "/" type.

Definition isCloseElementData (doc : Document) (i : Z) : bool :=
  match at_index (data doc) i with
  | Some (Elem type _) => isClosingType type
  | _ => false
  end.

(** [doc.data.getType( i )]: the type of the element without the slash of
    a closing marker (see [isElementData]). *)
Definition getType (doc : Document) (i : Z) : string :=
  match at_index (data doc) i with
  | Some (Elem type _) =>
      match type with
      | String _ rest => if isClosingType type then rest else type
      | EmptyString => type
      end
  | _ => ""
  end.

(** [ve.compare( cells, [] )] and
    [ve.compare( cells, new Array( cells.length ) )].  [ve.compare] is the
    comparison of the OOjs library; as the comment at lines 1388-1389 says it
    compares arrays as objects, an entry that is [undefined] counting as
    absent, so the comparison holds exactly when every cell is
    [undefined]. *)
Definition compareEmpty (cells : list cell) : bool :=
  forallb (fun c => bool_decide (c = None)) cells.

(** Modelled from the spec: [ve.batchSplice] is not among the sources;
    [ve.batchSplice( arr, offset, 0, data )] inserts [data] into [arr] at
    [offset], as [Array.prototype.splice] does. *)
Definition batchSpliceInsert {A : Type} (arr : list A) (offset : nat)
           (new : list A) : list A :=
  (take offset arr ++ new ++ drop offset arr)%list.

(** ** Builder primitives *)

(** [ve.dm.Transaction.prototype.pushRetain] on the operations list. *)
Definition pushRetain (ops : list op) (length : Z) : result (list op) :=
  if length <? 0 then Throw (InvalidRetainLength length)
  else if length =? 0 then Ok ops
  else match last ops with
       | Some (Retain n) => Ok (removelast ops ++ [Retain (n + length)])%list
       | _ => Ok (ops ++ [Retain length])%list
       end.

Definition pushRetainMetadata (ops : list op) (length : Z) : result (list op) :=
  if length <? 0 then Throw (InvalidRetainLength length)
  else if length =? 0 then Ok ops
  else match last ops with
       | Some (RetainMetadata n) =>
           Ok (removelast ops ++ [RetainMetadata (n + length)])%list
       | _ => Ok (ops ++ [RetainMetadata length])%list
       end.

Definition pushReplaceInternal (ops : list op) (remove insert : list item)
           (removeMetadata insertMetadata : option (list cell))
           (insertedDataOffset insertedDataLength : option Z) : list op :=
  if (len remove =? 0) && (len insert =? 0) then ops
  else
    let '(rm, im) :=
      match removeMetadata, insertMetadata with
      | Some r, Some i => (Some r, Some i)
      | _, _ => (None, None)
      end in
    let '(o, l) :=
      match insertedDataOffset, insertedDataLength with
      | Some o, Some l => (Some o, Some l)
      | _, _ => (None, None)
      end in
    (ops ++ [Replace remove insert rm im o l])%list.

Definition pushReplaceMetadata (ops : list op) (remove insert : list item)
  : list op :=
  if (len remove =? 0) && (len insert =? 0) then ops
  else (ops ++ [ReplaceMetadata remove insert])%list.

Definition pushReplaceElementAttribute (ops : list op) (key : string)
           (from to : value) : list op :=
  (ops ++ [Attribute key from to])%list.

Definition pushStartAnnotating (ops : list op) (method : method_t)
           (index : string) : list op :=
  (ops ++ [Annotate method start index])%list.

Definition pushStopAnnotating (ops : list op) (method : method_t)
           (index : string) : list op :=
  (ops ++ [Annotate method stop index])%list.

(** [this.operations] after a call of a builder method, and the error if
    the call has thrown. *)
Record Outcome : Type := mkOutcome {
  out_operations : list op;
  out_thrown : option error
}.

Definition returned (ops : list op) : Outcome := mkOutcome ops None.
Definition thrown (ops : list op) (e : error) : Outcome := mkOutcome ops (Some e).

(** The metadata variables of [pushReplace] after lines 1390-1411. *)
Record MetadataPlan : Type := mkPlan {
  plan_insertMetadata : option (list cell);
  plan_extraMetadata : cell;
  plan_isInsertEmpty : bool
}.

Section Builder.

(** [ve.dm.MetaLinearData.static.merge] and
    [ve.dm.nodeFactory.isNodeDeletable] are collaborators outside the
    sources; the builder is parametric in them. *)
Variable merge : list cell -> list cell.
Variable isNodeDeletable : string -> bool.

Definition planMetadata (removeMetadata : list cell) (insert : list item)
           (insertMetadata : option (list cell)) : result MetadataPlan :=
  let isRemoveEmpty := compareEmpty removeMetadata in
  match insertMetadata with
  | None =>
      if negb isRemoveEmpty then
        let merged := merge removeMetadata in
        if len insert =? 0 then
          Ok (mkPlan (Some []) (mjoin (at_index merged 0)) (compareEmpty []))
        else
          padding ← newArray (len insert - 1);
          let im := batchSpliceInsert merged 1 padding in
          Ok (mkPlan (Some im) None (compareEmpty im))
      else Ok (mkPlan None None false)
  | Some m =>
      let isInsertEmpty := compareEmpty m in
      if isInsertEmpty && isRemoveEmpty then Ok (mkPlan None None isInsertEmpty)
      else Ok (mkPlan (Some m) None isInsertEmpty)
  end.

(** The condition of lines 1430-1437: the previous [replace] can take the
    new one in. *)
Definition canMerge (lastOp : op) (mergedMetadata : list cell)
           (plan : MetadataPlan) : bool :=
  match lastOp with
  | Replace _ lastInsert _ _ lastOffset _ =>
      negb ((0 <? len lastInsert)
            && bool_decide (plan_insertMetadata plan ≠ None))
      && bool_decide (lastOffset = None)
      && bool_decide (plan_extraMetadata plan = None)
      && negb ((0 <? len mergedMetadata)
               && bool_decide (plan_insertMetadata plan ≠ None)
               && negb (plan_isInsertEmpty plan))
  | _ => false
  end.

(** The fifth argument of the recursive call of lines 1439-1455. *)
Definition mergedInsertMetadata (lastInsert : list item)
           (lastInsertMetadata : option (list cell))
           (mergedMetadata : list cell) (insert : list item)
           (plan : MetadataPlan) : result (list cell) :=
  before ←
    match lastInsertMetadata with
    | Some m => Ok m
    | None => newArray (len lastInsert)
    end;
  after ←
    match plan_insertMetadata plan, plan_isInsertEmpty plan with
    | Some m, false => Ok m
    | _, _ => newArray (len insert - len mergedMetadata)
    end;
  Ok (before ++ mergedMetadata ++ after)%list.

(** The condition of lines 1459-1464: a removal after a removal. *)
Definition canMergeRemovals (lastOp : op) (mergedMetadata : list cell)
           (insert : list item) (plan : MetadataPlan) : bool :=
  match lastOp with
  | Replace _ lastInsert lastRemoveMetadata _ _ _ =>
      (len lastInsert =? 0) && (len insert =? 0)
      && (bool_decide (lastRemoveMetadata = None) || (0 <? len mergedMetadata))
      && (bool_decide (plan_insertMetadata plan = None)
          || bool_decide (plan_extraMetadata plan ≠ None))
  | _ => false
  end.

(** Lines 1482-1486: the operation is pushed, and the collapsed metadata
    after it when nothing is inserted. *)
Definition pushPlanned (ops : list op) (remove insert : list item)
           (removeMetadata : list cell) (plan : MetadataPlan)
           (insertedDataOffset insertedDataLength : option Z) : list op :=
  let ops := pushReplaceInternal ops remove insert (Some removeMetadata)
               (plan_insertMetadata plan)
               insertedDataOffset insertedDataLength in
  match plan_extraMetadata plan with
  | Some extraMetadata => pushReplaceMetadata ops [] extraMetadata
  | None => ops
  end.

(** [ve.dm.Transaction.prototype.pushReplace].  The method looks at the
    end of the operations list and calls itself after it has popped one or
    two operations, so the recursion is on the list from its end:
    [rops] is [this.operations] last operation first.  The outcome is
    [this.operations] after the call, in the order of the array, and the
    error if the call has thrown: an operation popped before a throw
    stays popped. *)
Fixpoint pushReplaceFromEnd (doc : Document) (rops : list op)
         (offset removeLength : Z) (insert : list item)
         (insertMetadata : option (list cell))
         (insertedDataOffset insertedDataLength : option Z)
         {struct rops} : Outcome :=
  if (removeLength =? 0) && (len insert =? 0) then returned (rev rops)
  else
    let range := mkRange offset (offset + removeLength) in
    let remove := getData doc range in
    let removeMetadata := getMetadata doc range in
    match planMetadata removeMetadata insert insertMetadata with
    | Throw e => thrown (rev rops) e
    | Ok plan =>
        let finish (rops : list op) : Outcome :=
          returned (pushPlanned (rev rops) remove insert removeMetadata plan
                                insertedDataOffset insertedDataLength) in
        match rops with
        | [] => finish []
        | lastOp :: beforeLast =>
            let usual : Outcome :=
              match lastOp with
              | Replace lastRemove lastInsert _ lastInsertMetadata _ _ =>
                  if canMerge lastOp [] plan then
                    (* lastOp = this.operations.pop(); *)
                    match mergedInsertMetadata lastInsert lastInsertMetadata
                            [] insert plan with
                    | Throw e => thrown (rev beforeLast) e
                    | Ok im =>
                        pushReplaceFromEnd doc beforeLast
                          (offset - len lastRemove)
                          (len lastRemove + removeLength)
                          (lastInsert ++ insert) (Some im)
                          insertedDataOffset insertedDataLength
                    end
                  else if canMergeRemovals lastOp [] insert plan then
                    pushReplaceFromEnd doc beforeLast
                      (offset - len lastRemove)
                      (len lastRemove + removeLength)
                      [] None None None
                  else finish rops
              | ReplaceMetadata _ _ =>
                  thrown (rev rops) ReplaceAfterReplaceMetadata
              | _ => finish rops
              end in
            match lastOp, beforeLast with
            | ReplaceMetadata metaRemove metaInsert,
              (Replace penultRemove penultInsert _ penultInsertMetadata _ _
                 as penultOp) :: rest =>
                if (0 <? len metaInsert) && (len metaRemove =? 0)
                   && (len penultInsert =? 0) then
                  (* mergedMetadata = [ lastOp.insert ];
                     this.operations.pop(); lastOp = penultOp; *)
                  let mergedMetadata := [Some metaInsert] in
                  if canMerge penultOp mergedMetadata plan then
                    match mergedInsertMetadata penultInsert
                            penultInsertMetadata mergedMetadata insert plan
                    with
                    | Throw e => thrown (rev rest) e
                    | Ok im =>
                        pushReplaceFromEnd doc rest
                          (offset - len penultRemove)
                          (len penultRemove + removeLength)
                          (penultInsert ++ insert) (Some im)
                          insertedDataOffset insertedDataLength
                    end
                  else if canMergeRemovals penultOp mergedMetadata insert plan
                  then
                    pushReplaceFromEnd doc rest
                      (offset - len penultRemove)
                      (len penultRemove + removeLength)
                      [] None None None
                  else finish beforeLast
                else usual
            | _, _ => usual
            end
        end
    end.

Definition pushReplaceOutcome (doc : Document) (ops : list op)
           (offset removeLength : Z) (insert : list item)
           (insertMetadata : option (list cell))
           (insertedDataOffset insertedDataLength : option Z) : Outcome :=
  pushReplaceFromEnd doc (rev ops) offset removeLength insert insertMetadata
                     insertedDataOffset insertedDataLength.

(** [pushReplace] for a caller that lets the error pass. *)
Definition pushReplace (doc : Document) (ops : list op)
           (offset removeLength : Z) (insert : list item)
           (insertMetadata : option (list cell))
           (insertedDataOffset insertedDataLength : option Z)
  : result (list op) :=
  let out := pushReplaceOutcome doc ops offset removeLength insert
               insertMetadata insertedDataOffset insertedDataLength in
  match out_thrown out with
  | None => Ok (out_operations out)
  | Some e => Throw e
  end.

(** The loop variables of [addSafeRemoveOps]. *)
Record SafeRemove : Type := mkSafeRemove {
  sr_ops : list op;
  sr_removeStart : Z;
  sr_retainStart : Z;
  sr_queuedRetain : option Z;
  sr_undeletableStackDepth : Z
}.

(** [if ( queuedRetain ) { this.pushRetain( queuedRetain ); }] *)
Definition pushQueuedRetain (ops : list op) (queuedRetain : option Z)
  : result (list op) :=
  match queuedRetain with
  | Some q => if q =? 0 then Ok ops else pushRetain ops q
  | None => Ok ops
  end.

(** [removeMetadata ? [] : undefined] *)
Definition emptyOrUndefined (removeMetadata : bool) : option (list cell) :=
  if removeMetadata then Some [] else None.

(** The body of the loop of [addSafeRemoveOps] at index [i]. *)
Definition safeRemoveStep (doc : Document) (removeMetadata : bool) (i : Z)
           (st : SafeRemove) : result SafeRemove :=
  if isElementData doc i && negb (isNodeDeletable (getType doc i)) then
    if negb (isCloseElementData doc i) then
      if sr_undeletableStackDepth st =? 0 then
        ops ← pushQueuedRetain (sr_ops st) (sr_queuedRetain st);
        ops ← pushReplace doc ops (sr_removeStart st) (i - sr_removeStart st)
                [] (emptyOrUndefined removeMetadata) None None;
        Ok (mkSafeRemove ops (sr_removeStart st) i (sr_queuedRetain st)
                         (sr_undeletableStackDepth st + 1))
      else
        Ok (mkSafeRemove (sr_ops st) (sr_removeStart st) (sr_retainStart st)
                         (sr_queuedRetain st)
                         (sr_undeletableStackDepth st + 1))
    else
      let depth := sr_undeletableStackDepth st - 1 in
      if depth =? 0 then
        Ok (mkSafeRemove (sr_ops st) (i + 1) (sr_retainStart st)
                         (Some (i + 1 - sr_retainStart st)) depth)
      else
        Ok (mkSafeRemove (sr_ops st) (sr_removeStart st) (sr_retainStart st)
                         (sr_queuedRetain st) depth)
  else Ok st.

(** [steps] iterations of the loop, from index [i]. *)
Fixpoint safeRemoveLoop (doc : Document) (removeMetadata : bool)
         (steps : nat) (i : Z) (st : SafeRemove) : result SafeRemove :=
  match steps with
  | O => Ok st
  | S steps =>
      st ← safeRemoveStep doc removeMetadata i st;
      safeRemoveLoop doc removeMetadata steps (i + 1) st
  end.

(** [ve.dm.Transaction.prototype.addSafeRemoveOps]: the operations list
    and the end offset of the removal. *)
Definition addSafeRemoveOps (doc : Document) (ops : list op)
           (removeStart removeEnd : Z) (removeMetadata : bool)
  : result (list op * Z) :=
  st ← safeRemoveLoop doc removeMetadata (Z.to_nat (removeEnd - removeStart))
         removeStart (mkSafeRemove ops removeStart removeStart None 0);
  if removeEnd - sr_removeStart st =? 0 then Ok (sr_ops st, sr_retainStart st)
  else
    ops ← pushQueuedRetain (sr_ops st) (sr_queuedRetain st);
    ops ← pushReplace doc ops (sr_removeStart st)
            (removeEnd - sr_removeStart st) []
            (emptyOrUndefined removeMetadata) None None;
    Ok (ops, removeEnd).

(** [ve.dm.Transaction.prototype.pushInsertion] *)
Definition pushInsertion (doc : Document) (ops : list op)
           (currentOffset insertOffset : Z) (data : list item)
  : result (list op * Z) :=
  let insertion := fixupInsertion doc data insertOffset in
  ops ← pushRetain ops (ins_offset insertion - currentOffset);
  ops ← pushReplace doc ops (ins_offset insertion) (ins_remove insertion)
          (ins_data insertion) None
          (ins_insertedDataOffset insertion)
          (ins_insertedDataLength insertion);
  Ok (ops, ins_offset insertion + ins_remove insertion).

(** The loop variables of the second half of [pushRemoval];
    [removeStart] and [removeEnd] are [null] together or set together. *)
Record Removal : Type := mkRemoval {
  rm_ops : list op;
  rm_offset : Z;
  rm_pending : option (Z * Z)
}.

(** The body of the loop over the selection (lines 1654-1685). *)
Definition removalStep (doc : Document) (removeMetadata : bool)
           (st : Removal) (selected : Selection) : result Removal :=
  let covered :=
    match sel_range selected with
    | None => sel_nodeOuterRange selected
    | Some r => r
    end in
  let nodeStart := r_start covered in
  let nodeEnd := r_end covered in
  match rm_pending st with
  | None => Ok (mkRemoval (rm_ops st) (rm_offset st) (Some (nodeStart, nodeEnd)))
  | Some (removeStart, removeEnd) =>
      if removeEnd =? nodeStart then
        Ok (mkRemoval (rm_ops st) (rm_offset st) (Some (removeStart, nodeEnd)))
      else
        ops ← pushRetain (rm_ops st) (removeStart - rm_offset st);
        '(ops, offset) ←
          addSafeRemoveOps doc ops removeStart removeEnd removeMetadata;
        Ok (mkRemoval ops offset (Some (nodeStart, nodeEnd)))
  end.

Fixpoint removalLoop (doc : Document) (removeMetadata : bool)
         (selection : list Selection) (st : Removal) : result Removal :=
  match selection with
  | [] => Ok st
  | selected :: rest =>
      st ← removalStep doc removeMetadata st selected;
      removalLoop doc removeMetadata rest st
  end.

(** [ve.dm.Transaction.prototype.pushRemoval]: the operations list and the
    end offset of the removal. *)
Definition pushRemoval (doc : Document) (ops : list op) (currentOffset : Z)
           (range : Range) (removeMetadata : bool) : result (list op * Z) :=
  if isCollapsed range then
    ops ← pushRetain ops (r_start range - currentOffset);
    Ok (ops, r_start range)
  else
    let selection := selectNodes doc range "covered" in
    match selection, last selection with
    | first :: _, Some last =>
        if canBeMergedWith doc (sel_node first) (sel_node last) then
          let '(removeStart, removeEnd) :=
            match sel_range first, sel_range last with
            | None, None =>
                (r_start (sel_nodeOuterRange first),
                 r_end (sel_nodeOuterRange last))
            | _, _ =>
                (r_start
                   match sel_range first with
                   | Some r => r
                   | None =>
                       if nodeIsContent (sel_node first)
                       then sel_nodeOuterRange first
                       else sel_nodeRange first
                   end,
                 r_end
                   match sel_range last with
                   | Some r => r
                   | None =>
                       if nodeIsContent (sel_node last)
                       then sel_nodeOuterRange last
                       else sel_nodeRange last
                   end)
            end in
          ops ← pushRetain ops (removeStart - currentOffset);
          addSafeRemoveOps doc ops removeStart removeEnd removeMetadata
        else
          st ← removalLoop doc removeMetadata selection
                 (mkRemoval ops currentOffset None);
          match rm_pending st with
          | Some (removeStart, removeEnd) =>
              ops ← pushRetain (rm_ops st) (removeStart - rm_offset st);
              addSafeRemoveOps doc ops removeStart removeEnd removeMetadata
          | None => Ok (rm_ops st, rm_offset st)
          end
    | _, _ => Throw (InvalidRange (r_start range) (r_end range))
    end.

(** [ve.dm.Transaction.prototype.pushFinalRetain]; [metaOffset] is
    optional. *)
Definition pushFinalRetain (doc : Document) (ops : list op) (offset : Z)
           (metaOffset : option Z) : result (list op) :=
  let finalMetadata := metadataAt doc (len (data doc)) in
  '(ops, metaOffset) ←
    (if offset <? len (data doc) then
       ops ← pushRetain ops (len (data doc) - offset);
       Ok (ops, Some 0)
     else Ok (ops, metaOffset));
  match finalMetadata with
  | Some final =>
      if 0 <? len final then
        pushRetainMetadata ops (len final - default 0 metaOffset)
      else Ok ops
  | None => Ok ops
  end.

(** ** High-level constructors *)

Definition emptyParagraph : list item :=
  [Elem "paragraph" []; Elem "/paragraph" []].

(** [ve.dm.Transaction.newFromRemoval] *)
Definition newFromRemoval (doc : Document) (range : Range)
           (removeMetadata : bool) : result Transaction :=
  let tx := newTransaction [] in
  '(ops, endOffset) ←
    pushRemoval doc (operations tx) 0 range removeMetadata;
  '(ops, endOffset) ←
    (if (r_start range =? 0) && (internalListOuterStart doc <=? r_end range)
     then pushInsertion doc ops endOffset endOffset emptyParagraph
     else Ok (ops, endOffset));
  ops ← pushFinalRetain doc ops endOffset None;
  Ok (mkTransaction ops (applied tx)).

(** [ve.dm.Transaction.newFromInsertion] *)
Definition newFromInsertion (doc : Document) (offset : Z) (data : list item)
  : result Transaction :=
  let tx := newTransaction [] in
  '(ops, endOffset) ← pushInsertion doc (operations tx) 0 offset data;
  ops ← pushFinalRetain doc ops endOffset None;
  Ok (mkTransaction ops (applied tx)).

(** [ve.dm.Transaction.newFromReplacement] *)
Definition newFromReplacement (doc : Document) (range : Range)
           (data : list item) (removeMetadata : bool) : result Transaction :=
  let tx := newTransaction [] in
  '(ops, endOffset) ←
    pushRemoval doc (operations tx) 0 range removeMetadata;
  '(ops, endOffset) ← pushInsertion doc ops endOffset endOffset data;
  ops ← pushFinalRetain doc ops endOffset None;
  Ok (mkTransaction ops (applied tx)).

End Builder.

(** [doc.metadata.getData( offset ) || []] *)
Definition elementsAt (doc : Document) (offset : Z) : list item :=
  default [] (metadataAt doc offset).

(** [ve.dm.Transaction.newFromMetadataInsertion] *)
Definition newFromMetadataInsertion (doc : Document) (offset index : Z)
           (newElements : list item) : result Transaction :=
  let tx := newTransaction [] in
  let elements := elementsAt doc offset in
  if len newElements =? 0 then Ok tx
  else
    ops ← pushRetain (operations tx) offset;
    ops ← pushRetainMetadata ops index;
    let ops := pushReplaceMetadata ops [] newElements in
    ops ← pushRetainMetadata ops (len elements - index);
    ops ← pushFinalRetain doc ops offset (Some (len elements));
    Ok (mkTransaction ops (applied tx)).

(** [ve.dm.Transaction.newFromMetadataRemoval] *)
Definition newFromMetadataRemoval (doc : Document) (offset : Z) (range : Range)
  : result Transaction :=
  let tx := newTransaction [] in
  let elements := elementsAt doc offset in
  if len elements =? 0 then Throw EmptyMetadataList
  else if (r_start range <? 0) || (len elements <? r_end range) then
    Throw RangeOutOfBounds
  else
    let selection := js_slice elements (r_start range) (r_end range) in
    if len selection =? 0 then Ok tx
    else
      ops ← pushRetain (operations tx) offset;
      ops ← pushRetainMetadata ops (r_start range);
      let ops := pushReplaceMetadata ops selection [] in
      ops ← pushRetainMetadata ops (len elements - r_end range);
      ops ← pushFinalRetain doc ops offset (Some (len elements));
      Ok (mkTransaction ops (applied tx)).

(** [ve.dm.Transaction.newFromMetadataElementReplacement].  [oldElement] is
    [elements[ index ]], which is [undefined] for a negative index; the
    array [[ oldElement ]] is built after the two retains, which throw for
    a negative length. *)
Definition newFromMetadataElementReplacement (doc : Document)
           (offset index : Z) (newElement : item) : result Transaction :=
  let tx := newTransaction [] in
  let elements := elementsAt doc offset in
  if len elements <=? index then Throw MetadataIndexOutOfBounds
  else
    let oldElement := at_index elements index in
    ops ← pushRetain (operations tx) offset;
    ops ← pushRetainMetadata ops index;
    match oldElement with
    | Some oldElement =>
        let ops := pushReplaceMetadata ops [oldElement] [newElement] in
        ops ← pushRetainMetadata ops (len elements - index - 1);
        ops ← pushFinalRetain doc ops offset (Some (len elements));
        Ok (mkTransaction ops (applied tx))
    | None => Throw NotAnObject
    end.

(** ** Rebase *)

(** The object [getActiveRangeAndLengthDiff] returns; [start] and [end] can
    be [undefined]. *)
Record ActiveRange : Type := mkActiveRange {
  ar_start : option Z;
  ar_end : option Z;
  ar_diff : Z
}.

(** The loop variables of [getActiveRangeAndLengthDiff]. *)
Record Scan : Type := mkScan {
  sc_start : option Z;
  sc_end : option Z;
  sc_offset : Z;
  sc_annotations : Z;
  sc_diff : Z
}.

(** The body of the loop of [getActiveRangeAndLengthDiff]. *)
Definition scanStep (st : Scan) (o : op) : Scan :=
  match o with
  | Annotate _ bias _ =>
      mkScan (sc_start st) (sc_end st) (sc_offset st)
             (sc_annotations st + match bias with start => 1 | stop => -1 end)
             (sc_diff st)
  | _ =>
      let active :=
        (0 <? sc_annotations st)
        || negb (String.eqb (opType o) "retain"
                 || String.eqb (opType o) "retainMetadata") in
      let start :=
        match sc_start st with
        | None => if active then Some (sc_offset st) else None
        | Some s => Some s
        end in
      let '(offset, diff) :=
        match o with
        | Retain length => (sc_offset st + length, sc_diff st)
        | Replace remove insert _ _ _ _ =>
            (sc_offset st + len remove,
             sc_diff st + (len insert - len remove))
        | _ => (sc_offset st, sc_diff st)
        end in
      let end_ :=
        match o with
        | Attribute _ _ _ | ReplaceMetadata _ _ => Some (offset + 1)
        | _ => if active then Some offset else sc_end st
        end in
      mkScan start end_ offset (sc_annotations st) diff
  end.

Definition getActiveRangeAndLengthDiff (transaction : Transaction)
  : ActiveRange :=
  let st := fold_left scanStep (operations transaction)
                      (mkScan None None 0 0 0) in
  mkActiveRange (sc_start st) (sc_end st) (sc_diff st).

Inductive place_t : Type := AtStart | AtEnd.

(** [ops.splice( i, 1 )] and [ops.splice( i, 0, x )] for an index within
    the array. *)
Definition spliceOut {A : Type} (l : list A) (i : Z) : list A :=
  (take (Z.to_nat i) l ++ drop (S (Z.to_nat i)) l)%list.

Definition spliceIn {A : Type} (l : list A) (i : Z) (x : A) : list A :=
  (take (Z.to_nat i) l ++ x :: drop (Z.to_nat i) l)%list.

(** [adjustRetain] of [rebaseTransactions]; the array it adjusts in place
    is returned. *)
Definition adjustRetain (ops : list op) (place : place_t) (diff : Z)
  : result (list op) :=
  let start := match place with AtStart => true | AtEnd => false end in
  let i := if start then 0 else len ops - 1 in
  if diff =? 0 then Ok ops
  else
    let i :=
      match start, at_index ops i with
      | false, Some (RetainMetadata _) => len ops - 2
      | _, _ => i
      end in
    match at_index ops i with
    | Some (Retain length) =>
        let length := length + diff in
        if length <? 0 then Throw NegativeRetainLength
        else if length =? 0 then Ok (spliceOut ops i)
        else Ok (<[Z.to_nat i := Retain length]> ops)
    | _ =>
        if diff <? 0 then Throw NegativeRetainLength
        else Ok (spliceIn ops (if start then 0 else len ops) (Retain diff))
    end.

(** [a <= b] on numbers that can be [undefined]: a comparison with
    [undefined] is false. *)
Definition js_le (a b : option Z) : bool :=
  match a, b with
  | Some x, Some y => x <=? y
  | _, _ => false
  end.

(** [ve.dm.Transaction.rebaseTransactions]: the pair
    [[ aRebasedOntoB, bRebasedOntoA ]], where [None] is [null]. *)
Definition rebaseTransactions (transactionA transactionB : Transaction)
  : result (option Transaction * option Transaction) :=
  let transactionA := clone transactionA in
  let transactionB := clone transactionB in
  let infoA := getActiveRangeAndLengthDiff transactionA in
  let infoB := getActiveRangeAndLengthDiff transactionB in
  if bool_decide (ar_start infoA = None) || bool_decide (ar_start infoB = None)
  then
    opsA ← adjustRetain (operations transactionA) AtStart (ar_diff infoB);
    opsB ← adjustRetain (operations transactionB) AtStart (ar_diff infoA);
    Ok (Some (mkTransaction opsA (applied transactionA)),
        Some (mkTransaction opsB (applied transactionB)))
  else if js_le (ar_end infoA) (ar_start infoB) then
    opsB ← adjustRetain (operations transactionB) AtStart (ar_diff infoA);
    opsA ← adjustRetain (operations transactionA) AtEnd (ar_diff infoB);
    Ok (Some (mkTransaction opsA (applied transactionA)),
        Some (mkTransaction opsB (applied transactionB)))
  else if js_le (ar_end infoB) (ar_start infoA) then
    opsA ← adjustRetain (operations transactionA) AtStart (ar_diff infoB);
    opsB ← adjustRetain (operations transactionB) AtEnd (ar_diff infoA);
    Ok (Some (mkTransaction opsA (applied transactionA)),
        Some (mkTransaction opsB (applied transactionB)))
  else Ok (None, None).

(** [ve.dm.Transaction.prototype.rebasedOnto] *)
Definition rebasedOnto (this other : Transaction) (startmost : bool)
  : result (option Transaction) :=
  if startmost then
    r ← rebaseTransactions this other; Ok (fst r)
  else
    r ← rebaseTransactions other this; Ok (snd r).

(** ** The object store

    [rebaseTransactions] clones its arguments and adjusts the clones in
    place ([ops[ i ].length += diff], [ops.splice]).  Whether the arguments
    are affected depends on which objects are shared, so this part gives
    transactions, arrays and operation records an identity: a store maps
    locations to objects, a transaction refers to its operations array and
    the array to its operation records. *)

Module Store.

Definition loc : Type := positive.

Inductive object : Type :=
| OTransaction (operations : loc) (applied : bool)
| OArray (elements : list loc)
| OOperation (o : op).

Abbreviation store := (gmap loc object).

(** A computation on the store: it returns or throws, and leaves a store
    in both cases. *)
Definition M (A : Type) : Type := store -> result A * store.

#[global] Instance M_ret : MRet M := fun A a h => (Ok a, h).
#[global] Instance M_bind : MBind M := fun A B f m h =>
  match m h with
  | (Ok a, h) => f a h
  | (Throw e, h) => (Throw e, h)
  end.

Definition throw {A : Type} (e : error) : M A := fun h => (Throw e, h).

(** A new object, at a location that is not in use. *)
Definition alloc (o : object) : M loc := fun h =>
  let l := fresh (dom h) in (Ok l, <[l := o]> h).

Definition write (l : loc) (o : object) : M unit := fun h =>
  (Ok tt, <[l := o]> h).

Definition readTransaction (l : loc) : M (loc * bool) := fun h =>
  match h !! l with
  | Some (OTransaction a ap) => (Ok (a, ap), h)
  | _ => (Throw NotAnObject, h)
  end.

Definition readArray (l : loc) : M (list loc) := fun h =>
  match h !! l with
  | Some (OArray elements) => (Ok elements, h)
  | _ => (Throw NotAnObject, h)
  end.

Definition readOperation (l : loc) : M op := fun h =>
  match h !! l with
  | Some (OOperation o) => (Ok o, h)
  | _ => (Throw NotAnObject, h)
  end.

(** The operations an array of operation records holds, in order. *)
Fixpoint readOperations (elements : list loc) : M (list op) :=
  match elements with
  | [] => mret []
  | l :: rest =>
      o ← readOperation l;
      ops ← readOperations rest;
      mret (o :: ops)
  end.

(** [new ve.dm.Transaction()]: [this.operations = []; this.applied = false] *)
Definition newTransaction : M loc :=
  a ← alloc (OArray []);
  alloc (OTransaction a false).

(** [ve.copy] is the copy function of the OOjs library, which copies arrays
    and plain objects recursively: the copy of an operations array is a new
    array of new operation records with the same contents.  (Invariant I5
    and property P6 of the specification ask of [clone] an otherwise
    identical transaction that can be committed on its own.) *)
Fixpoint copyElements (elements : list loc) : M (list loc) :=
  match elements with
  | [] => mret []
  | l :: rest =>
      o ← readOperation l;
      l' ← alloc (OOperation o);
      rest' ← copyElements rest;
      mret (l' :: rest')
  end.

Definition ve_copy (array : loc) : M loc :=
  elements ← readArray array;
  elements' ← copyElements elements;
  alloc (OArray elements').

(** [ve.dm.Transaction.prototype.clone] *)
Definition clone (this : loc) : M loc :=
  tx ← newTransaction;
  '(operations, _) ← readTransaction this;
  operations' ← ve_copy operations;
  '(_, applied) ← readTransaction tx;
  _ ← write tx (OTransaction operations' applied);
  mret tx.

(** [transaction.operations] as a list of operations *)
Definition operationsOf (transaction : loc) : M (list op) :=
  '(operations, _) ← readTransaction transaction;
  elements ← readArray operations;
  readOperations elements.

(** [getActiveRangeAndLengthDiff]: it only reads the operations. *)
Definition getActiveRangeAndLengthDiff (transaction : loc) : M ActiveRange :=
  ops ← operationsOf transaction;
  mret (getActiveRangeAndLengthDiff (mkTransaction ops false)).

(** [ops[ i ]] together with the record's location *)
Definition operationAt (elements : list loc) (i : Z) : M (option (loc * op)) :=
  match at_index elements i with
  | Some l => o ← readOperation l; mret (Some (l, o))
  | None => mret None
  end.

(** [adjustRetain( ops, place, diff )], in place. *)
Definition adjustRetain (ops : loc) (place : place_t) (diff : Z) : M unit :=
  let start := match place with AtStart => true | AtEnd => false end in
  elements ← readArray ops;
  let i := if start then 0 else len elements - 1 in
  if diff =? 0 then mret tt
  else
    at_i ← operationAt elements i;
    let i :=
      match start, at_i with
      | false, Some (_, RetainMetadata _) => len elements - 2
      | _, _ => i
      end in
    at_i ← operationAt elements i;
    match at_i with
    | Some (l, Retain length) =>
        let length := length + diff in
        _ ← write l (OOperation (Retain length));
        if length <? 0 then throw NegativeRetainLength
        else if length =? 0 then write ops (OArray (spliceOut elements i))
        else mret tt
    | _ =>
        if diff <? 0 then throw NegativeRetainLength
        else
          l ← alloc (OOperation (Retain diff));
          write ops (OArray (spliceIn elements
                                      (if start then 0 else len elements) l))
    end.

(** [ve.dm.Transaction.rebaseTransactions] on the store. *)
Definition rebaseTransactions (transactionA transactionB : loc)
  : M (option loc * option loc) :=
  transactionA ← clone transactionA;
  transactionB ← clone transactionB;
  infoA ← getActiveRangeAndLengthDiff transactionA;
  infoB ← getActiveRangeAndLengthDiff transactionB;
  '(opsA, _) ← readTransaction transactionA;
  '(opsB, _) ← readTransaction transactionB;
  if bool_decide (ar_start infoA = None) || bool_decide (ar_start infoB = None)
  then
    _ ← adjustRetain opsA AtStart (ar_diff infoB);
    _ ← adjustRetain opsB AtStart (ar_diff infoA);
    mret (Some transactionA, Some transactionB)
  else if js_le (ar_end infoA) (ar_start infoB) then
    _ ← adjustRetain opsB AtStart (ar_diff infoA);
    _ ← adjustRetain opsA AtEnd (ar_diff infoB);
    mret (Some transactionA, Some transactionB)
  else if js_le (ar_end infoB) (ar_start infoA) then
    _ ← adjustRetain opsA AtStart (ar_diff infoB);
    _ ← adjustRetain opsB AtEnd (ar_diff infoA);
    mret (Some transactionA, Some transactionB)
  else mret (None, None).

(** What a transaction of the store looks like from outside: its
    operations and its flag. *)
Definition view (h : store) (transaction : loc) : option Transaction :=
  match h !! transaction with
  | Some (OTransaction a ap) =>
      match operationsOf transaction h with
      | (Ok ops, _) => Some (mkTransaction ops ap)
      | _ => None
      end
  | _ => None
  end.

(** The array at [array] holds the operation records [elements], whose
contents are [ops]. *)
Definition holds (h : store) (array : loc) (elements : list loc)
           (ops : list op) : Prop :=
  h !! array = Some (OArray elements)
  /\ Forall2 (fun l o => h !! l = Some (OOperation o)) elements ops.

(** What an object that is not in [h0] may refer to. *)
Definition refersOutside (h0 : store) (o : object) : Prop :=
  match o with
  | OTransaction a _ => h0 !! a = None
  | OArray elements => Forall (fun e => h0 !! e = None) elements
  | OOperation _ => True
  end.

(** The objects created since [h0] are kept apart from those of [h0]: the
store still holds every object of [h0] as it was, and a transaction or an
array that is not in [h0] refers to objects that are not in [h0]. *)
Definition separated (h0 h : store) : Prop :=
  h0 ⊆ h
  /\ (forall l a ap,
        h !! l = Some (OTransaction a ap) -> h0 !! l = None -> h0 !! a = None)
  /\ (forall l elements,
        h !! l = Some (OArray elements) -> h0 !! l = None ->
        Forall (fun e => h0 !! e = None) elements).

(** The transactions of [h] are in [h'] as they were. *)
Definition keepsTransactions (h h' : store) : Prop :=
  forall l a ap,
    h !! l = Some (OTransaction a ap) -> h' !! l = Some (OTransaction a ap).

End Store.

(** ** The specification's side of the refinement statements *)

(** The reversal rules table of section 4.4 of the specification. *)
Definition reversalRule (o : op) : op :=
  match o with
  | Annotate method bias index =>
      Annotate (match method with set => clear | clear => set end) bias index
  | Attribute key from to => Attribute key to from
  | Replace remove insert removeMetadata insertMetadata o l =>
      Replace insert remove insertMetadata removeMetadata o l
  | ReplaceMetadata remove insert => ReplaceMetadata insert remove
  | Retain length => Retain length
  | RetainMetadata length => RetainMetadata length
  end.

(** Retain adjustment as section 4.5 of the specification words it: the
    retain at the start grows by [diff], is removed when it becomes zero,
    and a new retain is inserted when there is none; a negative length is
    an error. *)
Definition growLeadingRetain (diff : Z) (ops : list op) : result (list op) :=
  if diff =? 0 then Ok ops
  else
    match ops with
    | Retain length :: rest =>
        if length + diff <? 0 then Throw NegativeRetainLength
        else if length + diff =? 0 then Ok rest
        else Ok (Retain (length + diff) :: rest)
    | _ =>
        if diff <? 0 then Throw NegativeRetainLength
        else Ok (Retain diff :: ops)
    end.

(** The same at the end, stepping over a trailing [retainMetadata]; a new
    retain goes to the very end of the list. *)
Definition growTrailingRetain (diff : Z) (ops : list op) : result (list op) :=
  if diff =? 0 then Ok ops
  else
    match rev ops with
    | RetainMetadata m :: Retain length :: before =>
        if length + diff <? 0 then Throw NegativeRetainLength
        else if length + diff =? 0 then Ok (rev before ++ [RetainMetadata m])%list
        else Ok (rev before ++ [Retain (length + diff); RetainMetadata m])%list
    | Retain length :: before =>
        if length + diff <? 0 then Throw NegativeRetainLength
        else if length + diff =? 0 then Ok (rev before)
        else Ok (rev before ++ [Retain (length + diff)])%list
    | _ =>
        if diff <? 0 then Throw NegativeRetainLength
        else Ok (ops ++ [Retain diff])%list
    end.

(** ** Predicates on offsets and operations used in the statements *)

(** Every [retain] has a non-negative length (invariant I3 allows no
    negative retain). *)
Definition retainsNonNegative (ops : list op) : bool :=
  forallb (fun o => match o with Retain n => 0 <=? n | _ => true end) ops.

(** [offset] is strictly inside the range a [replace] removes, or on the
    range of a [replace] that inserts; [cursor] is the source offset of the
    first operation. *)
Fixpoint insideReplaced (ops : list op) (cursor offset : Z) : bool :=
  match ops with
  | [] => false
  | Replace remove insert _ _ _ _ :: rest =>
      ((cursor <? offset) && (offset <? cursor + len remove))
      || ((0 <? len insert)
          && (cursor <=? offset) && (offset <=? cursor + len remove))
      || insideReplaced rest (cursor + len remove) offset
  | Retain length :: rest => insideReplaced rest (cursor + length) offset
  | _ :: rest => insideReplaced rest cursor offset
  end.

(** [offset] is neither inside nor on a boundary of the range of any
    [replace]: the range [[cursor, cursor + remove.length]] is closed. *)
Fixpoint clearOfReplaced (ops : list op) (cursor offset : Z) : bool :=
  match ops with
  | [] => true
  | Replace remove _ _ _ _ _ :: rest =>
      ((offset <? cursor) || (cursor + len remove <? offset))
      && clearOfReplaced rest (cursor + len remove) offset
  | Retain length :: rest => clearOfReplaced rest (cursor + length) offset
  | _ :: rest => clearOfReplaced rest cursor offset
  end.

(** The condition of lines 1418-1423 of [pushReplace] on the last operation
    [replaceMetadata { remove, insert }] and the operation before it: the
    [replaceMetadata] carries the collapsed metadata of a removal and is
    taken into the new [replace]. *)
Definition absorbsMetadata (penultOp : option op)
           (metaRemove metaInsert : list item) : bool :=
  match penultOp with
  | Some (Replace _ penultInsert _ _ _ _) =>
      (0 <? len metaInsert) && (len metaRemove =? 0) && (len penultInsert =? 0)
  | _ => false
  end.

(** [o.type] is [retain] or [retainMetadata]. *)
Definition isRetaining (o : op) : bool :=
  match o with
  | Retain _ | RetainMetadata _ => true
  | _ => false
  end.

(** The document with other tree oracles. *)
Definition withOracles (doc : Document)
           (select : Range -> string -> list Selection)
           (fixup : list item -> Z -> Insertion)
           (mergeable : Node -> Node -> bool) : Document :=
  {| data := data doc;
     metadata := metadata doc;
     internalListOuterStart := internalListOuterStart doc;
     selectNodes := select;
     fixupInsertion := fixup;
     canBeMergedWith := mergeable |}.

(** The operations that retain a whole document from a cursor at
    [offset]: one retain, and a [retainMetadata] for trailing metadata. *)
Definition retainEverything (doc : Document) (offset : Z) : list op :=
  Retain (Z.max offset (len (data doc)))
  :: match metadataAt doc (len (data doc)) with
     | Some final => if 0 <? len final then [RetainMetadata (len final)] else []
     | None => []
     end.

(** ** Collaborators for the scenarios *)

(** Modelled from the spec: [ve.dm.MetaLinearData.static.merge] is not among
    the sources.  Section 4.2 of the specification has the removed metadata
    cells concatenated into one merged cell. *)
Definition mergeCells (cells : list cell) : list cell :=
  if compareEmpty cells then [None]
  else [Some (concat (omap (fun c : cell => c) cells))].

(** A node factory for which every node is deletable. *)
Definition allDeletable (type : string) : bool := true.

(** A document of plain data: no tree, no fixup, no internal list before
    [internalListStart]. *)
Definition plainDocument (items : list item) (cells : list cell)
           (internalListStart : Z) : Document :=
  {| data := items;
     metadata := cells;
     internalListOuterStart := internalListStart;
     selectNodes := fun _ _ => [];
     fixupInsertion := fun data offset => mkInsertion offset 0 data None None;
     canBeMergedWith := fun _ _ => false |}.

(** Scenario 2 of the specification: a paragraph with three characters,
    followed by the internal list.  [selectNodes] answers for the two
    ranges of the scenario. *)
Definition paragraphNode : Node := mkNode "paragraph" false.
Definition textNode : Node := mkNode "text" true.

Definition doc_paragraph : Document :=
  {| data := [Elem "paragraph" []; Chr "a"; Chr "b"; Chr "c";
              Elem "/paragraph" []; Elem "internalList" [];
              Elem "/internalList" []];
     metadata := replicate 8 None;
     internalListOuterStart := 5;
     selectNodes := fun range _ =>
       if (r_start range =? 1) && (r_end range =? 3) then
         [mkSelection textNode (Some (mkRange 1 3)) (mkRange 1 4) (mkRange 1 4)]
       else if (r_start range =? 0) && (r_end range =? 5) then
         [mkSelection paragraphNode None (mkRange 1 4) (mkRange 0 5)]
       else [];
     fixupInsertion := fun data offset => mkInsertion offset 0 data None None;
     canBeMergedWith := fun _ _ => true |}.

Definition item_x : item := Chr "x".
Definition item_y : item := Chr "y".

(** Scenario 5 of the specification: insertions at 1 and at 5 in a
    document of length 6. *)
Definition insert_x_at_1 : Transaction :=
  newTransaction [Retain 1; Replace [] [item_x] None None None None; Retain 5].

Definition insert_y_at_5 : Transaction :=
  newTransaction [Retain 5; Replace [] [item_y] None None None None; Retain 1].

(** Scenario 6: replacements of [2, 5) and of [4, 7) in a document of
    length 8. *)
Definition replace_2_5 : Transaction :=
  newTransaction
    [Retain 2;
     Replace [Chr "c"; Chr "d"; Chr "e"] [Chr "X"] None None None None;
     Retain 3].

Definition replace_4_7 : Transaction :=
  newTransaction
    [Retain 4;
     Replace [Chr "e"; Chr "f"; Chr "g"] [Chr "Y"] None None None None;
     Retain 1].

(** A store with the two transactions of scenario 5; the first has been
    applied. *)
Definition store_scenario_5 : gmap Store.loc Store.object :=
  list_to_map
    [(1%positive, Store.OTransaction 2%positive true);
     (2%positive, Store.OArray [3; 4; 5]%positive);
     (3%positive, Store.OOperation (Retain 1));
     (4%positive,
      Store.OOperation (Replace [] [item_x] None None None None));
     (5%positive, Store.OOperation (Retain 5));
     (6%positive, Store.OTransaction 7%positive false);
     (7%positive, Store.OArray [8; 9; 10]%positive);
     (8%positive, Store.OOperation (Retain 5));
     (9%positive,
      Store.OOperation (Replace [] [item_y] None None None None));
     (10%positive, Store.OOperation (Retain 1))].

Definition removal_2_4 : Transaction :=
  newTransaction
    [Retain 2; Replace [Chr "a"; Chr "b"] [] None None None None; Retain 2].

Definition insertion_at_2 : Transaction :=
  newTransaction [Retain 2; Replace [] [Chr "x"] None None None None; Retain 2].

(** An insertion directly followed by a removal, as a wrap or unwrap
    builds them. *)
Definition insertion_then_removal : Transaction :=
  newTransaction
    [Replace [] [Chr "x"] None None None None;
     Replace [Chr "a"] [] None None None None; Retain 3].

Definition comment : item := Elem "comment" [].

(** Two characters, with a metadata element before the first. *)
Definition doc_ab : Document :=
  plainDocument [Chr "a"; Chr "b"] [Some [comment]; None; None] 2.

(** The builder state after the removal of the first character of
    [doc_ab]: the removal, and the metadata collapsed onto the next
    offset. *)
Definition removed_a : list op :=
  [Replace [Chr "a"] [] (Some [Some [comment]]) (Some []) None None;
   ReplaceMetadata [] [comment]].

(** ** Accessors *)

(** [ve.dm.Transaction.prototype.getOperations] and
    [ve.dm.Transaction.prototype.toJSON]: both return the operations. *)
Definition getOperations (t : Transaction) : list op := operations t.
Definition toJSON (t : Transaction) : list op := operations t.

(** [hasContentDataOperations], [hasElementAttributeOperations] and
    [hasAnnotationOperations]: [hasOperationWithType] for one type. *)
Definition hasContentDataOperations (t : Transaction) : bool :=
  hasOperationWithType t "replace".
Definition hasElementAttributeOperations (t : Transaction) : bool :=
  hasOperationWithType t "attribute".
Definition hasAnnotationOperations (t : Transaction) : bool :=
  hasOperationWithType t "annotate".

(** [ve.dm.Transaction.prototype.hasBeenApplied] *)
Definition hasBeenApplied (t : Transaction) : bool := applied t.

(** ** Measures for the statements on rebase *)

(** The operations other than [retain], in order. *)
Definition editsOf (ops : list op) : list op :=
  List.filter (fun o => negb (String.eqb (opType o) "retain")) ops.

(** A scan state moved by [d] positions. *)
Definition shiftScan (d : Z) (st : Scan) : Scan :=
  mkScan (Z.add d <$> sc_start st) (Z.add d <$> sc_end st)
         (d + sc_offset st) (sc_annotations st) (sc_diff st).

Definition shiftActiveRange (d : Z) (info : ActiveRange) : ActiveRange :=
  mkActiveRange (Z.add d <$> ar_start info) (Z.add d <$> ar_end info)
                (ar_diff info).

(** ** The modified range *)

(** The loop variables of [getModifiedRange]. *)
Record Modified : Type := mkModified {
  md_start : option Z;
  md_end : option Z;
  md_oldOffset : Z;
  md_offset : Z
}.

(** [op.insertedDataOffset || 0] *)
Definition insertedDataOffsetOr0 (o : op) : Z :=
  match o with
  | Replace _ _ _ _ (Some n) _ => n
  | _ => 0
  end.

(** [op.insertedDataLength] when it is truthy: defined and not zero. *)
Definition truthyInsertedDataLength (o : op) : option Z :=
  match o with
  | Replace _ _ _ _ _ (Some n) => if n =? 0 then None else Some n
  | _ => None
  end.

(** The loop [opLoop] of [getModifiedRange] from the operation at hand on:
    a [retainMetadata] is skipped, a [retain] that reaches beyond
    [docEndOffset] leaves the loop, every other operation moves the
    markers. *)
Fixpoint modifiedFrom (docEndOffset : Z) (ops : list op) (st : Modified)
  : Modified :=
  match ops with
  | [] => st
  | RetainMetadata _ :: rest => modifiedFrom docEndOffset rest st
  | Retain length :: rest =>
      if docEndOffset <? md_oldOffset st + length then st
      else modifiedFrom docEndOffset rest
             (mkModified (md_start st) (md_end st)
                         (md_oldOffset st + length) (md_offset st + length))
  | o :: rest =>
      let start :=
        match md_start st with
        | None => md_offset st + insertedDataOffsetOr0 o
        | Some s => s
        end in
      let '(offset, oldOffset) :=
        match o with
        | Replace remove insert _ _ _ _ =>
            (md_offset st + len insert, md_oldOffset st + len remove)
        | _ => (md_offset st, md_oldOffset st)
        end in
      let end_ :=
        match truthyInsertedDataLength o with
        | Some insertedDataLength => start + insertedDataLength
        | None => offset
        end in
      modifiedFrom docEndOffset rest
                   (mkModified (Some start) (Some end_) oldOffset offset)
  end.

(** [ve.dm.Transaction.prototype.getModifiedRange]; [None] is [null].  The
    internal list node of the documents of this development is always
    there, so [docEndOffset] is the start of its outer range. *)
Definition getModifiedRange (t : Transaction) (doc : Document)
  : option Range :=
  let docEndOffset := internalListOuterStart doc in
  let st := modifiedFrom docEndOffset (operations t)
                         (mkModified None None 0 0) in
  match md_start st, md_end st with
  | Some s, Some e => Some (mkRange s e)
  | _, _ => None
  end.

(** The length of the document an operations list applies to, and of the
    document it leaves: what the operations retain and remove, and what
    they retain and insert. *)
Fixpoint sourceLength (ops : list op) : Z :=
  match ops with
  | [] => 0
  | Retain length :: rest => length + sourceLength rest
  | Replace remove _ _ _ _ _ :: rest => len remove + sourceLength rest
  | _ :: rest => sourceLength rest
  end.

Fixpoint targetLength (ops : list op) : Z :=
  match ops with
  | [] => 0
  | Retain length :: rest => length + targetLength rest
  | Replace _ insert _ _ _ _ :: rest => len insert + targetLength rest
  | _ :: rest => targetLength rest
  end.

(** A [replace] carries no inserted-data marks. *)
Definition unmarked (o : op) : bool :=
  match o with
  | Replace _ _ _ _ None None => true
  | Replace _ _ _ _ _ _ => false
  | _ => true
  end.

(** [o] is a [retain], a [retainMetadata] or a [replace]. *)
Definition isContentOperation (o : op) : bool :=
  match o with
  | Retain _ | RetainMetadata _ | Replace _ _ _ _ _ _ => true
  | _ => false
  end.



(** ** Constructors that throw errors of their own *)

(** The outcome of a constructor: the value it returns, or the text of the
    error it throws. *)
Inductive attempt (A : Type) : Type :=
| Returned (a : A)
| Raised (text : string).

Arguments Returned {A} a.
Arguments Raised {A} text.

#[global] Instance attempt_ret : MRet attempt := fun A a => Returned a.
#[global] Instance attempt_bind : MBind attempt := fun A B f m =>
  match m with
  | Returned a => f a
  | Raised text => Raised text
  end.

(** A call of a builder method inside a constructor: its error passes. *)
Definition attemptOf {A : Type} (r : result A) : attempt A :=
  match r with
  | Ok a => Returned a
  | Throw e => Raised (message e)
  end.

(** [item.type]; a character has none. *)
Definition itemType (i : item) : option string :=
  match i with
  | Elem type _ => Some type
  | Chr _ => None
  end.

(** The [retainMetadata] that ends a transaction over a document with
    trailing metadata. *)
Definition finalRetainMetadata (doc : Document) : list op :=
  match metadataAt doc (len (data doc)) with
  | Some final => if 0 <? len final then [RetainMetadata (len final)] else []
  | None => []
  end.

(** ** Wrapping *)

(** The text of [x.type] in a string concatenation; a character has no
    type. *)
Definition typeText (type : option string) : string :=
  default "undefined" type.

(** The loop of [closingArray] of [newFromWrap] from index [i] on:
    [closings[ closings.length ] = { type: '/' + openings[ len - i - 1 ].type }]. *)
Fixpoint closingArrayFrom (openings : list item) (steps : nat) (i : Z)
         (closings : list item) : attempt (list item) :=
  match steps with
  | O => Returned closings
  | S steps =>
      match at_index openings (len openings - i - 1) with
      | Some opening =>
          closingArrayFrom openings steps (i + 1)
            (closings ++ [Elem ("/" +:+ typeText (itemType opening)) []])
      | None => Raised (message NotAnObject)
      end
  end.

Definition closingArray (openings : list item) : attempt (list item) :=
  closingArrayFrom openings (length openings) 0 [].

(** The loops that compare the types of the data to unwrap with the
    arguments, from index [i] on; [which] is [unwrapOuter] or
    [unwrapEach]. *)
Fixpoint checkUnwrapFrom (which : string) (unwrapData unwrap : list item)
         (steps : nat) (i : Z) : attempt unit :=
  match steps with
  | O => Returned tt
  | S steps =>
      match at_index unwrapData i, at_index unwrap i with
      | Some found, Some expected =>
          if bool_decide (itemType found <> itemType expected) then
            Raised ("Element in " +:+ which +:+ " does not match: expected "
                    +:+ typeText (itemType expected) +:+ " but found "
                    +:+ typeText (itemType found))
          else checkUnwrapFrom which unwrapData unwrap steps (i + 1)
      | _, _ => Raised (message NotAnObject)
      end
  end.

Definition checkUnwrap (which : string) (unwrapData unwrap : list item)
  : attempt unit :=
  checkUnwrapFrom which unwrapData unwrap (length unwrapData) 0.

(** The loop variables of the loop over the range of [newFromWrap]. *)
Record Wrapping : Type := mkWrapping {
  wr_ops : list op;
  wr_depth : Z;
  wr_startOffset : option Z
}.

Section Wrap.

Variable merge : list cell -> list cell.

(** The body of the loop at offset [i] (lines 672-710).  A [startOffset]
    that is still [undefined] makes the retain length [NaN], for which
    [pushRetain] does nothing. *)
Definition wrapStep (doc : Document) (unwrapEach wrapEach closingWrapEach : list item)
           (i : Z) (st : Wrapping) : attempt Wrapping :=
  if isElementData doc i then
    if negb (isCloseElementData doc i) then
      st ← (if wr_depth st =? 0 then
              let unwrapEachData :=
                js_slice (data doc) i (i + len unwrapEach) in
              _ ← checkUnwrap "unwrapEach" unwrapEachData unwrapEach;
              ops ← attemptOf (pushReplace merge doc (wr_ops st) i
                                 (len unwrapEach) (ve_copy wrapEach)
                                 None None None);
              Returned (mkWrapping ops (wr_depth st)
                                   (Some (i + len unwrapEach)))
            else Returned st);
      Returned (mkWrapping (wr_ops st) (wr_depth st + 1) (wr_startOffset st))
    else
      let depth := wr_depth st - 1 in
      if depth =? 0 then
        let j := (i + 1) - len unwrapEach in
        ops ← attemptOf match wr_startOffset st with
                        | Some startOffset =>
                            pushRetain (wr_ops st) (j - startOffset)
                        | None => Ok (wr_ops st)
                        end;
        ops ← attemptOf (pushReplace merge doc ops j (len unwrapEach)
                           (ve_copy closingWrapEach) None None None);
        Returned (mkWrapping ops depth (wr_startOffset st))
      else Returned (mkWrapping (wr_ops st) depth (wr_startOffset st))
  else Returned st.

Fixpoint wrapLoop (doc : Document)
         (unwrapEach wrapEach closingWrapEach : list item)
         (steps : nat) (i : Z) (st : Wrapping) : attempt Wrapping :=
  match steps with
  | O => Returned st
  | S steps =>
      st ← wrapStep doc unwrapEach wrapEach closingWrapEach i st;
      wrapLoop doc unwrapEach wrapEach closingWrapEach steps (i + 1) st
  end.

(** [ve.dm.Transaction.newFromWrap] *)
Definition newFromWrap (doc : Document) (range : Range)
           (unwrapOuter wrapOuter unwrapEach wrapEach : list item)
  : attempt Transaction :=
  let tx := newTransaction [] in
  closingUnwrapEach ← closingArray unwrapEach;
  closingWrapEach ← closingArray wrapEach;
  ops ← (if len unwrapOuter <? r_start range then
           attemptOf (pushRetain (operations tx)
                                 (r_start range - len unwrapOuter))
         else if r_start range <? len unwrapOuter then
           Raised "unwrapOuter is longer than the data preceding the range"
         else Returned (operations tx));
  ops ← (if (0 <? len wrapOuter) || (0 <? len unwrapOuter) then
           let unwrapOuterData :=
             js_slice (data doc) (r_start range - len unwrapOuter)
                      (r_start range) in
           _ ← checkUnwrap "unwrapOuter" unwrapOuterData unwrapOuter;
           attemptOf (pushReplace merge doc ops
                        (r_start range - len unwrapOuter) (len unwrapOuter)
                        (ve_copy wrapOuter) None None None)
         else Returned ops);
  ops ← (if (0 <? len wrapEach) || (0 <? len unwrapEach) then
           st ← wrapLoop doc unwrapEach wrapEach closingWrapEach
                  (Z.to_nat (r_end range - r_start range)) (r_start range)
                  (mkWrapping ops 0 None);
           Returned (wr_ops st)
         else attemptOf (pushRetain ops (r_end range - r_start range)));
  closingWrapOuter ← closingArray wrapOuter;
  ops ← attemptOf (pushReplace merge doc ops (r_end range) (len unwrapOuter)
                     closingWrapOuter None None None);
  ops ← attemptOf (pushFinalRetain doc ops (r_end range + len unwrapOuter)
                     None);
  Returned (mkTransaction ops (applied tx)).

End Wrap.

(** The closing element of an opening element. *)
Definition closingOf (opening : item) : item :=
  Elem ("/" +:+ typeText (itemType opening)) [].

(** ** Annotation *)

(** Modelled from the spec: [isOpenElementData] of the linear data is not
    among the sources; by section 3 of the specification an opening marker
    is an element marker whose type does not start with a slash. *)
Definition isOpenElementData (doc : Document) (i : Z) : bool :=
  isElementData doc i && negb (isCloseElementData doc i).

(** The loop variables of [newFromAnnotation]. *)
Record Annotating : Type := mkAnnotating {
  an_ops : list op;
  an_span : Z;
  an_on : bool;
  an_insideContentNode : bool;
  an_ignoreChildrenDepth : Z
}.

Section Annotation.

(** The annotation, its index in the store of the document, the node
    factory and the annotation sets of the data are collaborators outside
    the sources; the constructor is parametric in them. *)
Variable Annotation : Type.
Variable storeIndex : Document -> Annotation -> string.
Variable shouldIgnoreChildren : string -> bool.
Variable isNodeContent : string -> bool.
Variable canNodeTakeAnnotationType : string -> Annotation -> bool.
Variable containsComparable : Document -> Z -> Annotation -> bool.
Variable contains : Document -> Z -> Annotation -> bool.

(** [if ( on ) { tx.pushRetain( span ); tx.pushStopAnnotating( method, index );
    span = 0; on = false; }] *)
Definition stopAnnotating (method : method_t) (index : string)
           (st : Annotating) : result Annotating :=
  if an_on st then
    ops ← pushRetain (an_ops st) (an_span st);
    Ok (mkAnnotating (pushStopAnnotating ops method index) 0 false
                     (an_insideContentNode st) (an_ignoreChildrenDepth st))
  else Ok st.

(** [if ( !on ) { tx.pushRetain( span ); tx.pushStartAnnotating( method, index );
    span = 0; on = true; }] *)
Definition startAnnotating (method : method_t) (index : string)
           (st : Annotating) : result Annotating :=
  if an_on st then Ok st
  else
    ops ← pushRetain (an_ops st) (an_span st);
    Ok (mkAnnotating (pushStartAnnotating ops method index) 0 true
                     (an_insideContentNode st) (an_ignoreChildrenDepth st)).

(** The body of the loop of [newFromAnnotation] at offset [i], up to
    [span++]. *)
Definition annotateStep (doc : Document) (method : method_t)
           (annotation : Annotation) (index : string) (i : Z)
           (st : Annotating) : result Annotating :=
  let type := getType doc i in
  let ignoreChildrenDepth :=
    if isElementData doc i && shouldIgnoreChildren type then
      an_ignoreChildrenDepth st + (if isOpenElementData doc i then 1 else -1)
    else an_ignoreChildrenDepth st in
  let annotatable :=
    (if isElementData doc i then
       if isNodeContent type then
         negb (String.eqb (method_name method) "set"
               && negb (canNodeTakeAnnotationType type annotation))
       else false
     else true)
    && (ignoreChildrenDepth =? 0) in
  let st := mkAnnotating (an_ops st) (an_span st) (an_on st)
                         (an_insideContentNode st) ignoreChildrenDepth in
  st ← (if negb annotatable
           || (an_insideContentNode st && negb (isCloseElementData doc i))
        then stopAnnotating method index st
        else if (negb (isElementData doc i) || negb (isCloseElementData doc i))
                && negb (an_insideContentNode st)
        then
          let st := mkAnnotating (an_ops st) (an_span st) (an_on st)
                                 (if isElementData doc i then true
                                  else an_insideContentNode st)
                                 (an_ignoreChildrenDepth st) in
          let covered :=
            if String.eqb (method_name method) "set"
            then containsComparable doc i annotation
            else contains doc i annotation in
          if (covered && String.eqb (method_name method) "set")
             || (negb covered && String.eqb (method_name method) "clear")
          then stopAnnotating method index st
          else startAnnotating method index st
        else if isCloseElementData doc i
        then Ok (mkAnnotating (an_ops st) (an_span st) (an_on st) false
                              (an_ignoreChildrenDepth st))
        else Ok st);
  Ok (mkAnnotating (an_ops st) (an_span st + 1) (an_on st)
                   (an_insideContentNode st) (an_ignoreChildrenDepth st)).

Fixpoint annotateLoop (doc : Document) (method : method_t)
         (annotation : Annotation) (index : string)
         (steps : nat) (i : Z) (st : Annotating) : result Annotating :=
  match steps with
  | O => Ok st
  | S steps =>
      st ← annotateStep doc method annotation index i st;
      annotateLoop doc method annotation index steps (i + 1) st
  end.

(** [ve.dm.Transaction.newFromAnnotation] *)
Definition newFromAnnotation (doc : Document) (range : Range)
           (method : method_t) (annotation : Annotation)
  : result Transaction :=
  let tx := newTransaction [] in
  let index := storeIndex doc annotation in
  st ← annotateLoop doc method annotation index
         (Z.to_nat (r_end range - r_start range)) (r_start range)
         (mkAnnotating (operations tx) (r_start range) false false 0);
  ops ← pushRetain (an_ops st) (an_span st);
  let ops := if an_on st then pushStopAnnotating ops method index else ops in
  ops ← pushFinalRetain doc ops (r_end range) None;
  Ok (mkTransaction ops (applied tx)).

End Annotation.

(** The annotate operations of an operations list, in order. *)
Definition annotationsOf (ops : list op) : list (method_t * bias_t * string) :=
  omap (fun o => match o with
                 | Annotate method bias index => Some (method, bias, index)
                 | _ => None
                 end) ops.

(** [n] annotated spans: a start and a stop each. *)
Definition annotatedSpans (method : method_t) (index : string) (n : nat)
  : list (method_t * bias_t * string) :=
  concat (replicate n [(method, start, index); (method, stop, index)]).

(** What the loop of [newFromAnnotation] keeps at offset [i]: the pending
    span is not negative, the annotate operations so far are whole spans
    and an open one exactly when [on], nothing but retains and annotate
    operations is pushed, and the operations and the pending span reach
    [i]. *)
Definition annotatingUpTo (method : method_t) (index : string) (i : Z)
           (ops : list op) (span : Z) (on : bool) : Prop :=
  0 <= span
  /\ (exists n, annotationsOf ops
           = annotatedSpans method index n
               ++ if on then [(method, start, index)] else [])
  /\ forallb (fun o => isRetaining o || String.eqb (opType o) "annotate") ops
     = true
  /\ sourceLength ops + span = i.

(** ** Further scenarios *)

(** A replacement of two characters by three. *)
Definition replace_two_by_three : Transaction :=
  newTransaction
    [Replace [Chr "a"; Chr "b"] [Chr "x"; Chr "y"; Chr "z"] None None None None].

(** Two characters, with a comment and an alien in the metadata list at
    offset 0. *)
Definition alien : item := Elem "alien" [].

Definition doc_ab_with_alien : Document :=
  plainDocument [Chr "a"; Chr "b"] [Some [comment; alien]; None; None] 2.

(** * Properties *)

(** ** Reversal *)

Lemma fold_push {A B : Type} (f : A -> B) (l : list A) (acc : list B) :
  fold_left (fun acc x => (acc ++ [f x])%list) l acc = (acc ++ map f l)%list.
Proof.
  revert acc. induction l as [|x l IH]; intros acc; simpl.
  - by rewrite app_nil_r.
  - rewrite IH. by rewrite <- app_assoc.
Qed.

(** The assignments of the reversers table stay within the typed
    operations, and compute the rule of the specification's table. *)
Lemma reverseOp_assignments_typed (o : op) :
  reverseAssignments o = Some (reversalRule o).
Proof.
  destruct o as [n|n|r i [rm|] [im|] ido idl|r i|k f t|[] b idx];
    reflexivity.
Qed.

Lemma reverseOp_rule (o : op) : reverseOp o = reversalRule o.
Proof. unfold reverseOp. by rewrite reverseOp_assignments_typed. Qed.

Lemma reversed_operations (t : Transaction) :
  operations (reversed t) = map reverseOp (operations t).
Proof. unfold reversed. simpl. by rewrite fold_push. Qed.

Lemma reversalRule_involutive (o : op) : reversalRule (reversalRule o) = o.
Proof. by destruct o as [| | | | |[] ? ?]. Qed.

(** C3: [reversed] yields one operation per operation of the transaction, in
    the same order, each transformed by the rule of its variant: [annotate]
    swaps [set] and [clear] and keeps the bias, [attribute] swaps [from] and
    [to], [replace] swaps [insert] with [remove] and [insertMetadata] with
    [removeMetadata], [replaceMetadata] swaps [insert] with [remove], and
    [retain] and [retainMetadata] are copied. *)
Theorem reversed_per_variant (t : Transaction) :
  operations (reversed t) = map reversalRule (operations t).
Proof.
  rewrite reversed_operations. apply map_ext. intros o. apply reverseOp_rule.
Qed.

(** C2: reversing twice gives back the operations list, operation for
    operation. *)
Theorem reversed_reversed (t : Transaction) :
  operations (reversed (reversed t)) = operations t.
Proof.
  rewrite !reversed_operations, map_map.
  rewrite <- (map_id (operations t)) at 2.
  apply map_ext. intros o. rewrite !reverseOp_rule.
  apply reversalRule_involutive.
Qed.

Lemma reversed_operations_rule (l : list op) :
  map reverseOp l = map reversalRule l.
Proof. apply map_ext. intros o. apply reverseOp_rule. Qed.

(** ** Offset translation *)

Lemma len_nonneg {A : Type} (l : list A) : 0 <= len l.
Proof. unfold len. lia. Qed.

(** Away from the replaced ranges an offset at or after the cursor is
    translated to a position at or after the translated cursor, and
    strictly after it when it is strictly after the cursor. *)
Lemma translateOffsetFrom_lower_bound (ops : list op) :
  forall cursor adjustment offset,
    retainsNonNegative ops = true ->
    clearOfReplaced ops cursor offset = true ->
    (cursor <= offset ->
     cursor + adjustment
     <= translateOffsetFrom ops offset false cursor adjustment)
    /\ (cursor < offset ->
        cursor + adjustment
        < translateOffsetFrom ops offset false cursor adjustment).
Proof.
  induction ops as [|o ops IH]; intros c a x Hnn Hclear; simpl.
  - lia.
  - simpl in Hnn. apply andb_prop in Hnn as [Ho Hnn].
    destruct o as [n|n|r i rm im ido idl|r i|k f t|m b idx]; simpl in Hclear;
      try (apply IH; assumption).
    + apply Z.leb_le in Ho.
      destruct (IH (c + n) a x Hnn Hclear) as [IHle IHlt].
      destruct ((c <=? x) && (x <? c + n)) eqn:Hfire.
      * apply andb_prop in Hfire as [H1 H2]. lia.
      * apply andb_false_iff in Hfire.
        split; intros Hc.
        -- assert (c + n <= x) by (destruct Hfire as [H|H]; lia). lia.
        -- assert (c + n <= x) by (destruct Hfire as [H|H]; lia).
           destruct (Z.eq_dec n 0) as [Hn|Hn]; [specialize (IHlt ltac:(lia))|]; lia.
    + apply andb_prop in Hclear as [Hout Hclear].
      pose proof (len_nonneg r) as Hr. pose proof (len_nonneg i) as Hi.
      destruct (IH (c + len r) (a + (len i - len r)) x Hnn Hclear)
        as [_ IHlt].
      assert (c <= x -> c + len r < x) as Hpast
        by (intros Hc; apply orb_prop in Hout as [H|H]; lia).
      split; intros Hc.
      * specialize (Hpast Hc).
        replace (x =? c + len r) with false by lia.
        replace (x =? c) with false by lia.
        replace ((c <? x) && (x <? c + len r)) with false by lia.
        specialize (IHlt Hpast). lia.
      * assert (c <= x) as Hc' by lia. specialize (Hpast Hc').
        replace (x =? c + len r) with false by lia.
        replace (x =? c) with false by lia.
        replace ((c <? x) && (x <? c + len r)) with false by lia.
        specialize (IHlt Hpast). lia.
Qed.

(** The walk of the reversed operations undoes the walk of the operations,
    from any loop state. *)
Lemma translateOffsetFrom_reversed (ops : list op) :
  forall cursor adjustment offset,
    retainsNonNegative ops = true ->
    clearOfReplaced ops cursor offset = true ->
    cursor <= offset ->
    translateOffsetFrom (map reversalRule ops)
      (translateOffsetFrom ops offset false cursor adjustment) false
      (cursor + adjustment) (- adjustment) = offset.
Proof.
  induction ops as [|o ops IH]; intros c a x Hnn Hclear Hc; simpl.
  - lia.
  - simpl in Hnn. apply andb_prop in Hnn as [Ho Hnn].
    destruct o as [n|n|r i rm im ido idl|r i|k f t|m b idx]; simpl in Hclear;
      simpl; try (apply IH; assumption).
    + apply Z.leb_le in Ho.
      destruct ((c <=? x) && (x <? c + n)) eqn:Hfire.
      * apply andb_prop in Hfire as [H1 H2].
        replace ((c + a <=? x + a) && (x + a <? c + a + n)) with true by lia.
        lia.
      * apply andb_false_iff in Hfire.
        assert (c + n <= x) as Hx by (destruct Hfire as [H|H]; lia).
        destruct (translateOffsetFrom_lower_bound ops (c + n) a x Hnn Hclear)
          as [Hle _].
        specialize (Hle Hx).
        set (y := translateOffsetFrom ops x false (c + n) a) in *.
        replace ((c + a <=? y) && (y <? c + a + n)) with false by lia.
        replace (c + a + n) with (c + n + a) by lia.
        apply IH; assumption.
    + apply andb_prop in Hclear as [Hout Hclear].
      pose proof (len_nonneg r) as Hr. pose proof (len_nonneg i) as Hi.
      assert (c + len r < x) as Hpast
        by (apply orb_prop in Hout as [H|H]; lia).
      replace (x =? c + len r) with false by lia.
      replace (x =? c) with false by lia.
      replace ((c <? x) && (x <? c + len r)) with false by lia.
      destruct (translateOffsetFrom_lower_bound ops (c + len r)
                  (a + (len i - len r)) x Hnn Hclear) as [_ Hlt].
      specialize (Hlt Hpast).
      set (y := translateOffsetFrom ops x false (c + len r)
                  (a + (len i - len r))) in *.
      replace (y =? c + a + len i) with false by lia.
      replace (y =? c + a) with false by lia.
      replace ((c + a <? y) && (y <? c + a + len i)) with false by lia.
      replace (c + a + len i) with (c + len r + (a + (len i - len r))) by lia.
      replace (- a + (len r - len i)) with (- (a + (len i - len r))) by lia.
      apply IH; try assumption. lia.
Qed.

(** C4, as the code has it: translating an offset by a transaction and then
    by the reversed transaction gives the offset back, for every offset at
    or after 0 that is neither inside nor on a boundary of a range the
    transaction replaces (for each [replace] at source offset [c], the
    offset is before [c] or after [c + remove.length]), the retains of the
    transaction being non-negative. *)
Theorem translateOffset_reversed_away_from_replaced
        (t : Transaction) (offset : Z) :
  0 <= offset ->
  retainsNonNegative (operations t) = true ->
  clearOfReplaced (operations t) 0 offset = true ->
  translateOffset (reversed t) (translateOffset t offset false) false = offset.
Proof.
  intros Hoff Hnn Hclear. unfold translateOffset.
  rewrite reversed_operations, reversed_operations_rule.
  apply (translateOffsetFrom_reversed (operations t) 0 0 offset Hnn Hclear Hoff).
Qed.

Lemma translateOffset_reversed_away_from_replaced_witness :
  translateOffset (reversed removal_2_4)
                  (translateOffset removal_2_4 5 false) false = 5.
Proof.
  apply (translateOffset_reversed_away_from_replaced removal_2_4 5);
    [lia | reflexivity | reflexivity].
Defined.

(** C4, as stated, fails at the start of a removal: offset 2 is on the
    boundary of the removed range [2, 4), not inside it, and nothing is
    inserted; the transaction maps it to 2, and the reversed transaction,
    which inserts two items at 2, maps 2 to the position after them. *)
Lemma translateOffset_reversed_fails_at_removal_start :
  insideReplaced (operations removal_2_4) 0 2 = false
  /\ translateOffset removal_2_4 2 false = 2
  /\ translateOffset (reversed removal_2_4)
                     (translateOffset removal_2_4 2 false) false = 4
  /\ translateOffset (reversed removal_2_4)
                     (translateOffset removal_2_4 2 false) false <> 2.
Proof. repeat split; vm_compute; congruence. Qed.

(** The end of a replaced range is not safe either when another replace
    is adjacent: offset 1 is the end of the removed range [0, 1) of
    [insertion_then_removal]; it is mapped to 1, which the reversed
    transaction, removing the inserted item at [0, 1), maps to 0. *)
Lemma translateOffset_reversed_fails_between_replaces :
  insideReplaced (operations insertion_then_removal) 0 1 = false
  /\ translateOffset insertion_then_removal 1 false = 1
  /\ translateOffset (reversed insertion_then_removal) 1 false = 0.
Proof. repeat split; vm_compute; congruence. Qed.

(** ** Rebase *)

Lemma at_index_last {A : Type} (l : list A) (x : A) :
  at_index (l ++ [x]) (len (l ++ [x]) - 1) = Some x.
Proof.
  unfold at_index, len. rewrite length_app. simpl.
  rewrite (proj2 (Z.ltb_ge _ _)) by lia.
  apply list_lookup_middle. lia.
Qed.

Lemma at_index_penultimate {A : Type} (l : list A) (x y : A) :
  at_index (l ++ [x; y]) (len (l ++ [x; y]) - 2) = Some x.
Proof.
  unfold at_index, len. rewrite length_app. simpl.
  rewrite (proj2 (Z.ltb_ge _ _)) by lia.
  apply list_lookup_middle. lia.
Qed.

Lemma at_index_before_singleton {A : Type} (x : A) :
  at_index [x] (len [x] - 2) = None.
Proof. reflexivity. Qed.

Lemma at_index_empty {A : Type} (i : Z) : at_index (@nil A) i = None.
Proof. unfold at_index. destruct (i <? 0); reflexivity. Qed.

Lemma insert_last {A : Type} (l : list A) (x y : A) :
  <[Z.to_nat (len (l ++ [x]) - 1) := y]> (l ++ [x]) = (l ++ [y])%list.
Proof.
  unfold len. rewrite length_app. simpl.
  replace (Z.to_nat (Z.of_nat (length l + 1) - 1)) with (length l + 0)%nat
    by lia.
  by rewrite insert_app_r.
Qed.

Lemma insert_penultimate {A : Type} (l : list A) (x y z : A) :
  <[Z.to_nat (len (l ++ [x; y]) - 2) := z]> (l ++ [x; y]) = (l ++ [z; y])%list.
Proof.
  unfold len. rewrite length_app. simpl.
  replace (Z.to_nat (Z.of_nat (length l + 2) - 2)) with (length l + 0)%nat
    by lia.
  by rewrite insert_app_r.
Qed.

Lemma spliceOut_last {A : Type} (l : list A) (x : A) :
  spliceOut (l ++ [x]) (len (l ++ [x]) - 1) = l.
Proof.
  unfold spliceOut, len. rewrite length_app. simpl.
  replace (Z.to_nat (Z.of_nat (length l + 1) - 1)) with (length l) by lia.
  rewrite take_app_length.
  rewrite drop_ge by (rewrite length_app; simpl; lia).
  by rewrite app_nil_r.
Qed.

Lemma spliceOut_penultimate {A : Type} (l : list A) (x y : A) :
  spliceOut (l ++ [x; y]) (len (l ++ [x; y]) - 2) = (l ++ [y])%list.
Proof.
  unfold spliceOut, len. rewrite length_app. simpl.
  replace (Z.to_nat (Z.of_nat (length l + 2) - 2)) with (length l) by lia.
  rewrite take_app_length.
  replace (S (length l)) with (length l + 1)%nat by lia.
  by rewrite drop_app_add.
Qed.

Lemma spliceIn_end {A : Type} (l : list A) (x : A) :
  spliceIn l (len l) x = (l ++ [x])%list.
Proof.
  unfold spliceIn, len. rewrite Nat2Z.id.
  by rewrite take_ge, drop_ge by lia.
Qed.

(** At the start, [adjustRetain] is the retain adjustment of the
    specification. *)
Lemma adjustRetain_start (ops : list op) (diff : Z) :
  adjustRetain ops AtStart diff = growLeadingRetain diff ops.
Proof.
  unfold adjustRetain, growLeadingRetain.
  destruct (diff =? 0); [reflexivity|].
  destruct ops as [|[] rest]; reflexivity.
Qed.

(** At the end as well, the trailing [retainMetadata] being stepped over. *)
Lemma adjustRetain_end (ops : list op) (diff : Z) :
  adjustRetain ops AtEnd diff = growTrailingRetain diff ops.
Proof.
  unfold adjustRetain, growTrailingRetain.
  destruct (diff =? 0); [reflexivity|].
  rewrite <- (rev_involutive ops). generalize (rev ops). clear ops.
  intros rops. rewrite (rev_involutive rops).
  destruct rops as [|lastOp before]; simpl.
  - reflexivity.
  - rewrite at_index_last.
    destruct lastOp as [n|m| | | |];
      try (rewrite at_index_last, spliceIn_end; reflexivity).
    + rewrite at_index_last, insert_last, spliceOut_last. reflexivity.
    + destruct before as [|penultOp before]; simpl.
      * reflexivity.
      * rewrite <- !app_assoc. simpl.
        rewrite at_index_penultimate.
        destruct penultOp as [n| | | | |];
          try (rewrite spliceIn_end, <- ?app_assoc; reflexivity).
        rewrite insert_penultimate, spliceOut_penultimate. reflexivity.
Qed.

Lemma getActiveRangeAndLengthDiff_clone (t : Transaction) :
  getActiveRangeAndLengthDiff (clone t) = getActiveRangeAndLengthDiff t.
Proof. reflexivity. Qed.

(** C1: for two transactions whose active ranges are both defined,
    [rebaseTransactions] grows the leading retain of B by the length
    difference of A and the trailing retain of A by the length difference of
    B when the active range of A ends at or before the start of that of B;
    it does the same with the roles exchanged when the range of B ends at or
    before the start of that of A (and the first rule does not apply); and
    when the ranges overlap it returns [[ null, null ]] and does not
    throw. *)
Theorem rebaseTransactions_by_active_range
        (A B : Transaction) (startA endA startB endB : Z) :
  let infoA := getActiveRangeAndLengthDiff A in
  let infoB := getActiveRangeAndLengthDiff B in
  ar_start infoA = Some startA -> ar_end infoA = Some endA ->
  ar_start infoB = Some startB -> ar_end infoB = Some endB ->
  (endA <= startB ->
   rebaseTransactions A B =
     opsB ← growLeadingRetain (ar_diff infoA) (operations B);
     opsA ← growTrailingRetain (ar_diff infoB) (operations A);
     Ok (Some (newTransaction opsA), Some (newTransaction opsB)))
  /\ (startB < endA -> endB <= startA ->
      rebaseTransactions A B =
        opsA ← growLeadingRetain (ar_diff infoB) (operations A);
        opsB ← growTrailingRetain (ar_diff infoA) (operations B);
        Ok (Some (newTransaction opsA), Some (newTransaction opsB)))
  /\ (startB < endA -> startA < endB ->
      rebaseTransactions A B = Ok (None, None)).
Proof.
  intros infoA infoB HsA HeA HsB HeB.
  unfold rebaseTransactions.
  rewrite !getActiveRangeAndLengthDiff_clone.
  fold infoA infoB. rewrite HsA, HeA, HsB, HeB.
  rewrite !bool_decide_eq_false_2 by discriminate.
  unfold js_le. simpl orb. cbv iota.
  rewrite !adjustRetain_start, !adjustRetain_end.
  repeat split.
  - intros H. replace (endA <=? startB) with true by lia. reflexivity.
  - intros H1 H2. replace (endA <=? startB) with false by lia.
    replace (endB <=? startA) with true by lia. reflexivity.
  - intros H1 H2. replace (endA <=? startB) with false by lia.
    replace (endB <=? startA) with false by lia. reflexivity.
Qed.

Lemma rebaseTransactions_by_active_range_witness :
  rebaseTransactions insert_x_at_1 insert_y_at_5 =
    Ok (Some (newTransaction
                [Retain 1; Replace [] [item_x] None None None None; Retain 6]),
        Some (newTransaction
                [Retain 6; Replace [] [item_y] None None None None; Retain 1]))
  /\ rebaseTransactions insert_y_at_5 insert_x_at_1 =
       Ok (Some (newTransaction
                   [Retain 6; Replace [] [item_y] None None None None;
                    Retain 1]),
           Some (newTransaction
                   [Retain 1; Replace [] [item_x] None None None None;
                    Retain 6]))
  /\ rebaseTransactions replace_2_5 replace_4_7 = Ok (None, None).
Proof.
  split; [|split].
  - refine (proj1 (rebaseTransactions_by_active_range
                     insert_x_at_1 insert_y_at_5 1 1 5 5
                     eq_refl eq_refl eq_refl eq_refl) _).
    lia.
  - refine (proj1 (proj2 (rebaseTransactions_by_active_range
                            insert_y_at_5 insert_x_at_1 5 5 1 1
                            eq_refl eq_refl eq_refl eq_refl)) _ _); lia.
  - refine (proj2 (proj2 (rebaseTransactions_by_active_range
                            replace_2_5 replace_4_7 2 5 4 7
                            eq_refl eq_refl eq_refl eq_refl)) _ _); lia.
Defined.

(** ** The builder *)

Lemma planMetadata_returns (merge : list cell -> list cell)
      (removeMetadata : list cell) (insert : list item)
      (insertMetadata : option (list cell)) :
  exists plan,
    planMetadata merge removeMetadata insert insertMetadata = Ok plan.
Proof.
  unfold planMetadata.
  destruct insertMetadata as [m|].
  - destruct (compareEmpty m && compareEmpty removeMetadata); eauto.
  - destruct (negb (compareEmpty removeMetadata)); [|eauto].
    destruct (len insert =? 0) eqn:Hlen; [eauto|].
    unfold newArray. pose proof (len_nonneg insert).
    replace (len insert - 1 <? 0) with false by lia.
    simpl. eauto.
Qed.

Lemma last_is_head_of_rev {A : Type} (l : list A) : last l = head (rev l).
Proof.
  rewrite <- (rev_involutive l) at 1.
  destruct (rev l) as [|x r]; [reflexivity|].
  simpl. apply last_snoc.
Qed.

(** C6, as the code has it: when the last operation is a [replaceMetadata]
    that is not the collapsed metadata of a removal (lines 1418-1423 do not
    take it in) and the call is not a no-op, [pushReplace] throws 'replace
    after replaceMetadata not allowed' and the operations list is as it was
    before the call. *)
Theorem pushReplace_after_replaceMetadata
        (merge : list cell -> list cell) (doc : Document) (before : list op)
        (metaRemove metaInsert : list item) (offset removeLength : Z)
        (insert : list item) (insertMetadata : option (list cell))
        (insertedDataOffset insertedDataLength : option Z) :
  let ops := before ++ [ReplaceMetadata metaRemove metaInsert] in
  removeLength <> 0 \/ insert <> [] ->
  absorbsMetadata (last before) metaRemove metaInsert = false ->
  pushReplaceOutcome merge doc ops offset removeLength insert insertMetadata
                     insertedDataOffset insertedDataLength
  = thrown ops ReplaceAfterReplaceMetadata
  /\ message ReplaceAfterReplaceMetadata
     = "replace after replaceMetadata not allowed".
Proof.
  intros ops Hcall Habsorb. split; [|reflexivity].
  unfold pushReplaceOutcome, ops. rewrite rev_app_distr. simpl.
  assert ((removeLength =? 0) && (len insert =? 0) = false) as ->.
  { destruct Hcall as [H|H].
    - replace (removeLength =? 0) with false by lia. reflexivity.
    - destruct insert; [done|]. apply andb_false_r. }
  destruct (planMetadata_returns merge
              (getMetadata doc (mkRange offset (offset + removeLength)))
              insert insertMetadata) as [plan ->].
  rewrite last_is_head_of_rev in Habsorb.
  rewrite <- (rev_involutive before) at 2.
  destruct (rev before) as [|penultOp rest]; [reflexivity|].
  simpl in Habsorb.
  destruct penultOp; try reflexivity.
  rewrite Habsorb. reflexivity.
Qed.

Lemma pushReplace_after_replaceMetadata_witness :
  pushReplaceOutcome mergeCells doc_ab [ReplaceMetadata [] [comment]]
                     1 0 [item_x] None None None
  = thrown [ReplaceMetadata [] [comment]] ReplaceAfterReplaceMetadata
  /\ message ReplaceAfterReplaceMetadata
     = "replace after replaceMetadata not allowed".
Proof.
  apply (pushReplace_after_replaceMetadata mergeCells doc_ab []
           [] [comment] 1 0 [item_x] None None None).
  - right. discriminate.
  - reflexivity.
Defined.

(** C6, as stated, fails: [removed_a] is a builder state whose last
    operation is a [replaceMetadata], and a [pushReplace] that inserts at
    the next offset does not throw: the [replaceMetadata] is popped and
    the insertion is merged into the removal. *)
Lemma pushReplace_merges_after_collapsed_metadata :
  pushReplace mergeCells doc_ab [] 0 1 [] None None None = Ok removed_a
  /\ last removed_a = Some (ReplaceMetadata [] [comment])
  /\ pushReplace mergeCells doc_ab removed_a 1 0 [item_x] None None None
     = Ok [Replace [Chr "a"] [item_x] (Some [Some [comment]])
                   (Some [Some [comment]]) None None]
  /\ pushReplace mergeCells doc_ab removed_a 1 0 [item_x] None None None
     <> Throw ReplaceAfterReplaceMetadata.
Proof. repeat split; vm_compute; congruence. Qed.

(** ** Metadata constructors *)

Lemma newFromMetadataRemoval_empty (doc : Document) (offset : Z)
      (range : Range) :
  elementsAt doc offset = [] ->
  newFromMetadataRemoval doc offset range = Throw EmptyMetadataList.
Proof. intros H. unfold newFromMetadataRemoval. rewrite H. reflexivity. Qed.

Lemma newFromMetadataRemoval_out_of_bounds (doc : Document) (offset : Z)
      (range : Range) :
  elementsAt doc offset <> [] ->
  r_start range < 0 \/ len (elementsAt doc offset) < r_end range ->
  newFromMetadataRemoval doc offset range = Throw RangeOutOfBounds.
Proof.
  intros Hne Hout. unfold newFromMetadataRemoval.
  destruct (elementsAt doc offset) as [|e es] eqn:He; [done|].
  replace (len (e :: es) =? 0) with false by (unfold len; simpl; lia).
  replace ((r_start range <? 0) || (len (e :: es) <? r_end range)) with true
    by lia.
  reflexivity.
Qed.

Lemma newFromMetadataElementReplacement_too_large (doc : Document)
      (offset index : Z) (newElement : item) :
  len (elementsAt doc offset) <= index ->
  newFromMetadataElementReplacement doc offset index newElement
  = Throw MetadataIndexOutOfBounds.
Proof.
  intros H. unfold newFromMetadataElementReplacement.
  replace (len (elementsAt doc offset) <=? index) with true by lia.
  reflexivity.
Qed.

(** For a negative index the bound check passes and the error is the one of
    the first retain with a negative length. *)
Lemma newFromMetadataElementReplacement_negative (doc : Document)
      (offset index : Z) (newElement : item) :
  index < 0 -> 0 <= offset ->
  newFromMetadataElementReplacement doc offset index newElement
  = Throw (InvalidRetainLength index).
Proof.
  intros Hi Ho. unfold newFromMetadataElementReplacement.
  pose proof (len_nonneg (elementsAt doc offset)).
  replace (len (elementsAt doc offset) <=? index) with false by lia.
  assert (exists ops, pushRetain (operations (newTransaction [])) offset = Ok ops)
    as [ops ->].
  { unfold pushRetain. replace (offset <? 0) with false by lia.
    destruct (offset =? 0); simpl; eauto. }
  simpl. unfold pushRetainMetadata.
  replace (index <? 0) with true by lia. reflexivity.
Qed.

(** C8 at index -1: the cell at offset 0 of [doc_ab] has one element, the
    index -1 is outside of it, and [newFromMetadataElementReplacement]
    throws 'Invalid retain length, cannot retain backwards:-1', not
    'Metadata index out of bounds'; the two errors of
    [newFromMetadataRemoval] and the upper bound are as documented. *)
Theorem newFromMetadataElementReplacement_at_minus_one :
  elementsAt doc_ab 0 = [comment]
  /\ newFromMetadataElementReplacement doc_ab 0 (-1) comment
     = Throw (InvalidRetainLength (-1))
  /\ message (InvalidRetainLength (-1))
     = "Invalid retain length, cannot retain backwards:-1"
  /\ newFromMetadataElementReplacement doc_ab 0 1 comment
     = Throw MetadataIndexOutOfBounds
  /\ newFromMetadataRemoval doc_ab 1 (mkRange 0 1) = Throw EmptyMetadataList
  /\ newFromMetadataRemoval doc_ab 0 (mkRange (-1) 1) = Throw RangeOutOfBounds
  /\ newFromMetadataRemoval doc_ab 0 (mkRange 0 2) = Throw RangeOutOfBounds.
Proof. repeat split; vm_compute; reflexivity. Qed.

(** ** Removal *)


(** [unfold] the bind of [result] and compute. *)
Ltac run := unfold mbind, result_bind; simpl.

(** After the retain a collapsed removal pushes, the final retain covers
    the document. *)
Lemma pushFinalRetain_after_retain (doc : Document) (s : Z) (ops : list op) :
  0 <= s -> (ops = [] /\ s = 0 /\ 0 < len (data doc) \/ ops = [Retain s] /\ 0 < s) ->
  pushFinalRetain doc ops s None = Ok (retainEverything doc s).
Proof.
  intros Hs Hops. unfold pushFinalRetain, retainEverything.
  set (n := len (data doc)) in *.
  assert (exists metaOffset,
    (if s <? n
     then pushRetain ops (n - s) ≫= λ ops0 : list op, Ok (ops0, Some 0)
     else Ok (ops, None)) = Ok ([Retain (Z.max s n)], metaOffset)
    /\ default 0 metaOffset = 0) as (metaOffset & -> & Hmeta).
  { destruct (s <? n) eqn:Hsn.
    - exists (Some 0). split; [|reflexivity].
      unfold pushRetain.
      replace (n - s <? 0) with false by lia.
      replace (n - s =? 0) with false by lia.
      destruct Hops as [(-> & -> & Hn)|(-> & Hpos)]; run.
      + replace (n - 0) with (Z.max 0 n) by lia. reflexivity.
      + replace (s + (n - s)) with (Z.max s n) by lia. reflexivity.
    - exists None. split; [|reflexivity].
      destruct Hops as [(-> & -> & Hn)|(-> & Hpos)]; [lia|].
      replace (Z.max s n) with s by lia. reflexivity. }
  run. rewrite Hmeta.
  destruct (metadataAt doc n) as [final|]; [|reflexivity].
  destruct (0 <? len final) eqn:Hfinal; [|reflexivity].
  unfold pushRetainMetadata.
  replace (len final - 0 <? 0) with false by lia.
  replace (len final - 0 =? 0) with false by lia.
  simpl. by rewrite Z.sub_0_r.
Qed.

(** A range is collapsed exactly when its start is its end. *)
Lemma isCollapsed_start_end (r : Range) :
  isCollapsed r = (r_start r =? r_end r).
Proof. unfold isCollapsed, r_start, r_end. lia. Qed.

(** The removal of a collapsed range retains the document. *)
Lemma newFromRemoval_collapsed_value
      (merge : list cell -> list cell) (isNodeDeletable : string -> bool)
      (doc : Document) (range : Range) (removeMetadata : bool) :
  r_start range = r_end range ->
  0 <= r_start range ->
  internalListOuterStart doc <= len (data doc) ->
  0 < r_start range \/ r_end range < internalListOuterStart doc ->
  newFromRemoval merge isNodeDeletable doc range removeMetadata
  = Ok (newTransaction (retainEverything doc (r_start range))).
Proof.
  intros Hcollapsed Hstart Hlist Hrule.
  unfold newFromRemoval, pushRemoval. rewrite isCollapsed_start_end.
  rewrite <- Hcollapsed in *.
  rewrite Z.eqb_refl.
  set (s := r_start range) in *.
  assert ((s =? 0) && (internalListOuterStart doc <=? s) = false) as -> by lia.
  unfold pushRetain at 1.
  replace (s - 0 <? 0) with false by lia.
  destruct (s - 0 =? 0) eqn:Hs; run.
  - rewrite pushFinalRetain_after_retain; [reflexivity|lia|].
    left. repeat split; lia.
  - rewrite Z.sub_0_r.
    rewrite pushFinalRetain_after_retain; [reflexivity|lia|].
    right. split; [reflexivity|lia].
Qed.

(** C9: for a collapsed range of the document (an offset at or after 0, the
    internal list lying within the data) that does not trigger the
    empty-paragraph rule, [newFromRemoval] returns a transaction and does
    not throw; the transaction holds [retain] and [retainMetadata]
    operations only and is a no-op; and the result is the same whatever
    [selectNodes] and the other oracles of the document tree, the merge
    rule and the node factory answer, so none of them is consulted. *)
Theorem newFromRemoval_collapsed_is_noop
        (merge : list cell -> list cell) (isNodeDeletable : string -> bool)
        (doc : Document) (range : Range) (removeMetadata : bool) :
  r_start range = r_end range ->
  0 <= r_start range ->
  internalListOuterStart doc <= len (data doc) ->
  0 < r_start range \/ r_end range < internalListOuterStart doc ->
  exists tx,
    newFromRemoval merge isNodeDeletable doc range removeMetadata = Ok tx
    /\ forallb isRetaining (operations tx) = true
    /\ isNoOp tx = true
    /\ forall merge' isNodeDeletable' select fixup mergeable,
         newFromRemoval merge' isNodeDeletable'
                        (withOracles doc select fixup mergeable)
                        range removeMetadata = Ok tx.
Proof.
  intros Hcollapsed Hstart Hlist Hrule.
  exists (newTransaction (retainEverything doc (r_start range))).
  split; [by apply newFromRemoval_collapsed_value|].
  split; [|split].
  - unfold retainEverything. simpl.
    destruct (metadataAt doc (len (data doc))) as [final|]; [|reflexivity].
    destruct (0 <? len final); reflexivity.
  - unfold isNoOp, retainEverything. simpl.
    destruct (metadataAt doc (len (data doc))) as [final|]; [|reflexivity].
    destruct (0 <? len final); reflexivity.
  - intros merge' isNodeDeletable' select fixup mergeable.
    by apply (newFromRemoval_collapsed_value merge' isNodeDeletable'
                (withOracles doc select fixup mergeable)).
Qed.

Lemma newFromRemoval_collapsed_is_noop_witness :
  exists tx,
    newFromRemoval mergeCells allDeletable doc_paragraph (mkRange 2 2) false
    = Ok tx
    /\ forallb isRetaining (operations tx) = true
    /\ isNoOp tx = true
    /\ forall merge' isNodeDeletable' select fixup mergeable,
         newFromRemoval merge' isNodeDeletable'
                        (withOracles doc_paragraph select fixup mergeable)
                        (mkRange 2 2) false = Ok tx.
Proof.
  apply (newFromRemoval_collapsed_is_noop mergeCells allDeletable
           doc_paragraph (mkRange 2 2) false).
  - reflexivity.
  - simpl. lia.
  - vm_compute. discriminate.
  - left. simpl. lia.
Defined.

(** C9 at a negative offset: the range from -1 to -1 is collapsed and ends
    below the internal list, so it does not trigger the empty-paragraph
    rule, and [newFromRemoval] throws: the retain up to the range has a
    negative length. *)
Lemma newFromRemoval_collapsed_negative_throws :
  isCollapsed (mkRange (-1) (-1)) = true
  /\ r_end (mkRange (-1) (-1)) < internalListOuterStart doc_paragraph
  /\ newFromRemoval mergeCells allDeletable doc_paragraph
                    (mkRange (-1) (-1)) false
     = Throw (InvalidRetainLength (-1))
  /\ message (InvalidRetainLength (-1))
     = "Invalid retain length, cannot retain backwards:-1".
Proof. repeat split; vm_compute; reflexivity. Qed.

(** The internal list is to lie within the data: on a record with no data,
    trailing metadata and an internal list beyond the data, the removal of
    the collapsed range at 0 returns a lone [retainMetadata], which
    [isNoOp] does not take for a no-op. *)
Lemma newFromRemoval_collapsed_outside_document :
  newFromRemoval mergeCells allDeletable
                 (plainDocument [] [Some [comment]] 1) (mkRange 0 0) false
  = Ok (newTransaction [RetainMetadata 1])
  /\ isNoOp (newTransaction [RetainMetadata 1]) = false.
Proof. split; vm_compute; reflexivity. Qed.

(** ** The object store *)

Lemma separated_refl (h : gmap Store.loc Store.object) : Store.separated h h.
Proof.
  split; [done|]. split; intros l ? ; intros; congruence.
Qed.

Lemma separated_insert (h0 h : gmap Store.loc Store.object)
      (l : Store.loc) (o : Store.object) :
  Store.separated h0 h -> h0 !! l = None -> Store.refersOutside h0 o ->
  Store.separated h0 (<[l := o]> h).
Proof.
  intros (Hsub & Htx & Harr) Hl Ho. split; [|split].
  - by apply insert_subseteq_r.
  - intros k a ap Hk Hk0. destruct (decide (l = k)) as [->|Hne].
    + rewrite lookup_insert_eq in Hk. injection Hk as ->. exact Ho.
    + rewrite lookup_insert_ne in Hk by done. eauto.
  - intros k elements Hk Hk0. destruct (decide (l = k)) as [->|Hne].
    + rewrite lookup_insert_eq in Hk. injection Hk as ->. exact Ho.
    + rewrite lookup_insert_ne in Hk by done. eauto.
Qed.

Lemma separated_fresh (h0 h : gmap Store.loc Store.object) (l : Store.loc) :
  Store.separated h0 h -> h !! l = None -> h0 !! l = None.
Proof. intros (Hsub & _) Hl. by eapply lookup_weaken_None. Qed.

Lemma keepsTransactions_refl (h : gmap Store.loc Store.object) :
  Store.keepsTransactions h h.
Proof. by intros l a ap H. Qed.

Lemma keepsTransactions_trans (h1 h2 h3 : gmap Store.loc Store.object) :
  Store.keepsTransactions h1 h2 -> Store.keepsTransactions h2 h3 ->
  Store.keepsTransactions h1 h3.
Proof. intros H12 H23 l a ap H. eauto. Qed.

Lemma keepsTransactions_insert (h : gmap Store.loc Store.object)
      (l : Store.loc) (o : Store.object) :
  (forall a ap, h !! l <> Some (Store.OTransaction a ap)) ->
  Store.keepsTransactions h (<[l := o]> h).
Proof.
  intros Hl k a ap Hk. destruct (decide (l = k)) as [->|Hne].
  - by destruct (Hl a ap).
  - by rewrite lookup_insert_ne.
Qed.

Lemma alloc_fresh (o : Store.object) (h : gmap Store.loc Store.object) :
  exists l, Store.alloc o h = (Ok l, <[l := o]> h) /\ h !! l = None.
Proof.
  eexists. split; [reflexivity|]. apply not_elem_of_dom, is_fresh.
Qed.

Lemma readOperation_inv (l : Store.loc) (h h' : gmap Store.loc Store.object)
      (r : result op) :
  Store.readOperation l h = (r, h') ->
  h' = h /\ forall o, r = Ok o -> h !! l = Some (Store.OOperation o).
Proof.
  unfold Store.readOperation. intros H.
  destruct (h !! l) as [[| |o]|]; injection H as <- <-;
    (split; [reflexivity|]); intros o' Ho; congruence.
Qed.

Lemma readArray_inv (l : Store.loc) (h h' : gmap Store.loc Store.object)
      (r : result (list Store.loc)) :
  Store.readArray l h = (r, h') ->
  h' = h /\ forall elements, r = Ok elements ->
                       h !! l = Some (Store.OArray elements).
Proof.
  unfold Store.readArray. intros H.
  destruct (h !! l) as [[|elements|]|]; injection H as <- <-;
    (split; [reflexivity|]); intros o' Ho; congruence.
Qed.

Lemma readTransaction_inv (l : Store.loc) (h h' : gmap Store.loc Store.object)
      (r : result (Store.loc * bool)) :
  Store.readTransaction l h = (r, h') ->
  h' = h /\ forall a ap, r = Ok (a, ap) ->
                   h !! l = Some (Store.OTransaction a ap).
Proof.
  unfold Store.readTransaction. intros H.
  destruct (h !! l) as [[a ap| |]|]; injection H as <- <-;
    (split; [reflexivity|]); intros a' ap' Ho; congruence.
Qed.

(** The copies of the operation records are new objects. *)
Lemma copyElements_separated (h0 : gmap Store.loc Store.object)
      (elements : list Store.loc) :
  forall (h h' : gmap Store.loc Store.object) (r : result (list Store.loc)),
    Store.copyElements elements h = (r, h') ->
    Store.separated h0 h ->
    Store.separated h0 h' /\ h ⊆ h'
    /\ forall elements', r = Ok elements' ->
                    Forall (fun e => h0 !! e = None) elements'.
Proof.
  induction elements as [|l rest IH]; intros h h' r Hrun Hsep; simpl in Hrun.
  - injection Hrun as <- <-. split; [done|]. split; [done|].
    intros ? [= <-]. constructor.
  - unfold mbind, Store.M_bind in Hrun.
    destruct (Store.readOperation l h) as [[o|e] h1] eqn:Hread;
      apply readOperation_inv in Hread as [-> _];
      [|injection Hrun as <- <-; split; [done|]; split; [done|];
        intros ? [=]].
    destruct (alloc_fresh (Store.OOperation o) h) as (l' & Halloc & Hl').
    rewrite Halloc in Hrun.
    assert (h0 !! l' = None) as Hl0 by eauto using separated_fresh.
    assert (Store.separated h0 (<[l' := Store.OOperation o]> h)) as Hsep1
      by (by apply separated_insert).
    destruct (Store.copyElements rest (<[l' := Store.OOperation o]> h))
      as [[rest'|e] h2] eqn:Hrest;
      destruct (IH _ _ _ Hrest Hsep1) as (Hsep2 & Hsub & Hfresh);
      injection Hrun as <- <-.
    + split; [done|]. split.
      * etrans; [|exact Hsub]. by apply insert_subseteq.
      * intros ? [= <-]. constructor; [done|]. by apply Hfresh.
    + split; [done|]. split; [|done].
      etrans; [|exact Hsub]. by apply insert_subseteq.
Qed.

(** The clone is a new transaction object, built from new objects, and the
    store keeps every object it had. *)
Lemma clone_separated (h0 : gmap Store.loc Store.object) (t : Store.loc)
      (h h' : gmap Store.loc Store.object) (r : result Store.loc) :
  Store.clone t h = (r, h') ->
  Store.separated h0 h ->
  Store.separated h0 h' /\ h ⊆ h'
  /\ forall t', r = Ok t' ->
           h !! t' = None
           /\ exists a', h' !! t' = Some (Store.OTransaction a' false).
Proof.
  intros Hrun Hsep.
  unfold Store.clone, Store.newTransaction, Store.ve_copy in Hrun.
  unfold mbind, Store.M_bind in Hrun.
  destruct (alloc_fresh (Store.OArray []) h) as (a0 & Halloc & Ha0).
  rewrite Halloc in Hrun. clear Halloc.
  set (h1 := <[a0 := Store.OArray []]> h) in *.
  assert (Store.separated h0 h1) as Hsep1.
  { apply separated_insert; [done|by eauto using separated_fresh|].
    constructor. }
  assert (h ⊆ h1) as Hsub1 by (by apply insert_subseteq).
  destruct (alloc_fresh (Store.OTransaction a0 false) h1)
    as (tx & Halloc & Htx).
  rewrite Halloc in Hrun. clear Halloc.
  set (h2 := <[tx := Store.OTransaction a0 false]> h1) in *.
  assert (Store.separated h0 h2) as Hsep2.
  { apply separated_insert; [done|by eauto using separated_fresh|].
    simpl. by eauto using separated_fresh. }
  assert (h ⊆ h2) as Hsub2
    by (etrans; [exact Hsub1|by apply insert_subseteq]).
  assert (h !! tx = None) as Htx0 by (by eapply lookup_weaken_None).
  destruct (Store.readTransaction t h2) as [[[ops ap]|e] h2'] eqn:Hread;
    apply readTransaction_inv in Hread as [-> _];
    [|injection Hrun as <- <-; split; [done|]; split; [done|];
      intros ? [=]].
  destruct (Store.readArray ops h2) as [[elements|e] h2'] eqn:Hread;
    apply readArray_inv in Hread as [-> _];
    [|injection Hrun as <- <-; split; [done|]; split; [done|];
      intros ? [=]].
  destruct (Store.copyElements elements h2) as [[elements'|e] h3] eqn:Hcopy;
    destruct (copyElements_separated h0 _ _ _ _ Hcopy Hsep2)
      as (Hsep3 & Hsub3 & Hfresh);
    [|injection Hrun as <- <-; split; [done|]; split; [by etrans|];
      intros ? [=]].
  destruct (alloc_fresh (Store.OArray elements') h3) as (a' & Halloc & Ha').
  rewrite Halloc in Hrun. clear Halloc.
  set (h4 := <[a' := Store.OArray elements']> h3) in *.
  assert (Store.separated h0 h4) as Hsep4.
  { apply separated_insert; [done|by eauto using separated_fresh|].
    simpl. by apply Hfresh. }
  assert (h3 ⊆ h4) as Hsub4 by (by apply insert_subseteq).
  assert (h4 !! tx = Some (Store.OTransaction a0 false)) as Htx4.
  { eapply lookup_weaken; [|exact Hsub4].
    eapply lookup_weaken; [|exact Hsub3].
    apply lookup_insert_eq. }
  unfold Store.readTransaction in Hrun. rewrite Htx4 in Hrun.
  unfold Store.write, mret, Store.M_ret in Hrun.
  injection Hrun as <- <-.
  assert (h0 !! tx = None) as Htx00 by (by apply (separated_fresh h0 h1)).
  split; [|split].
  - apply separated_insert; [done|done|].
    simpl. by eauto using separated_fresh.
  - apply insert_subseteq_r; [done|]. etrans; [exact Hsub2|]. by etrans.
  - intros ? [= <-]. split; [done|]. exists a'. apply lookup_insert_eq.
Qed.

Lemma operationAt_inv (elements : list Store.loc) (i : Z)
      (h h' : gmap Store.loc Store.object)
      (r : result (option (Store.loc * op))) :
  Store.operationAt elements i h = (r, h') ->
  h' = h
  /\ forall l o, r = Ok (Some (l, o)) ->
            l ∈ elements /\ h !! l = Some (Store.OOperation o).
Proof.
  unfold Store.operationAt, at_index. intros Hrun.
  destruct (i <? 0).
  - injection Hrun as <- <-. split; [done|]. intros ? ? [=].
  - destruct (elements !! Z.to_nat i) as [l|] eqn:Hl.
    + unfold mbind, Store.M_bind in Hrun.
      destruct (Store.readOperation l h) as [[o|e] h1] eqn:Hread;
        apply readOperation_inv in Hread as [-> Ho];
        injection Hrun as <- <-; (split; [done|]).
      * intros ? ? [= <- <-]. split; [|by apply Ho].
        by eapply list_elem_of_lookup_2.
      * intros ? ? [=].
    + injection Hrun as <- <-. split; [done|]. intros ? ? [=].
Qed.

Lemma Forall_spliceOut {A : Type} (P : A -> Prop) (l : list A) (i : Z) :
  Forall P l -> Forall P (spliceOut l i).
Proof.
  intros H. unfold spliceOut. apply Forall_app.
  split; [by apply Forall_take|by apply Forall_drop].
Qed.

Lemma Forall_spliceIn {A : Type} (P : A -> Prop) (l : list A) (i : Z) (x : A) :
  Forall P l -> P x -> Forall P (spliceIn l i x).
Proof.
  intros H Hx. unfold spliceIn. apply Forall_app.
  split; [by apply Forall_take|]. constructor; [done|by apply Forall_drop].
Qed.

(** [adjustRetain] on an array that is not in [h0] changes objects that are
    not in [h0] only, and no transaction object. *)
Lemma adjustRetain_separated (h0 : gmap Store.loc Store.object)
      (ops : Store.loc) (place : place_t) (diff : Z)
      (h h' : gmap Store.loc Store.object) (r : result unit) :
  Store.adjustRetain ops place diff h = (r, h') ->
  Store.separated h0 h -> h0 !! ops = None ->
  Store.separated h0 h' /\ Store.keepsTransactions h h'.
Proof.
  intros Hrun Hsep Hops.
  unfold Store.adjustRetain in Hrun. unfold mbind, Store.M_bind in Hrun.
  destruct (Store.readArray ops h) as [[elements|e] h1] eqn:Hread;
    apply readArray_inv in Hread as [-> Harr];
    [|injection Hrun as <- <-; split; [done|apply keepsTransactions_refl]].
  specialize (Harr _ eq_refl).
  assert (Forall (fun e => h0 !! e = None) elements) as Hfresh.
  { destruct Hsep as (_ & _ & Harrays). by eapply Harrays. }
  destruct (diff =? 0);
    [injection Hrun as <- <-; split; [done|apply keepsTransactions_refl]|].
  match type of Hrun with
  | context [Store.operationAt elements ?i h] =>
      destruct (Store.operationAt elements i h) as [[first|e] h1] eqn:Hfirst;
        apply operationAt_inv in Hfirst as [-> _];
        [|injection Hrun as <- <-; split; [done|apply keepsTransactions_refl]]
  end.
  match type of Hrun with
  | context [Store.operationAt elements ?i h] =>
      destruct (Store.operationAt elements i h) as [[at_i|e] h1] eqn:Hat;
        apply operationAt_inv in Hat as [-> Hat];
        [|injection Hrun as <- <-; split; [done|apply keepsTransactions_refl]]
  end.
  assert (forall l,
             h !! ops = Some (Store.OArray elements) ->
             forall (h1 : gmap Store.loc Store.object) o,
               (forall a ap, h1 !! ops <> Some (Store.OTransaction a ap)) ->
               Store.separated h0 h1 -> Store.keepsTransactions h h1 ->
               h1 !! l = None ->
               Store.separated h0
                 (<[ops := Store.OArray
                             (spliceIn elements
                                (if match place with
                                    | AtStart => true
                                    | AtEnd => false
                                    end then 0 else len elements) l)]>
                    (<[l := Store.OOperation o]> h1))
               /\ Store.keepsTransactions h
                    (<[ops := Store.OArray
                                (spliceIn elements
                                   (if match place with
                                       | AtStart => true
                                       | AtEnd => false
                                       end then 0 else len elements) l)]>
                       (<[l := Store.OOperation o]> h1))) as Hinsert.
  { intros l _ h1 o Hkind Hsep1 Hkeep Hl.
    assert (h0 !! l = None) as Hl0 by (by apply (separated_fresh h0 h1)).
    split.
    - apply separated_insert; [|done|].
      + by apply separated_insert.
      + simpl. by apply Forall_spliceIn.
    - eapply keepsTransactions_trans; [exact Hkeep|].
      eapply keepsTransactions_trans.
      + apply keepsTransactions_insert. intros a ap. by rewrite Hl.
      + apply keepsTransactions_insert. intros a ap.
        destruct (decide (l = ops)) as [->|Hne].
        * by rewrite lookup_insert_eq.
        * rewrite lookup_insert_ne by done. apply Hkind. }
  assert (forall a ap, h !! ops <> Some (Store.OTransaction a ap)) as Hkind
    by (intros a ap; by rewrite Harr).
  destruct at_i as [[l o]|].
  - destruct (Hat l o eq_refl) as [Hin Hl].
    assert (h0 !! l = None) as Hl0
      by (by eapply (proj1 (Forall_forall _ _) Hfresh)).
    destruct o as [n| | | | |];
      try (destruct (diff <? 0);
           [injection Hrun as <- <-; split; [done|apply keepsTransactions_refl]|];
           destruct (alloc_fresh (Store.OOperation (Retain diff)) h)
             as (l' & Halloc & Hl');
           rewrite Halloc in Hrun; injection Hrun as <- <-;
           by apply (Hinsert l' Harr h (Retain diff) Hkind Hsep
                       (keepsTransactions_refl h) Hl')).
    unfold Store.write, Store.throw, mret, Store.M_ret in Hrun.
    assert (Store.separated h0 (<[l := Store.OOperation (Retain (n + diff))]> h))
      as Hsep1 by (by apply separated_insert).
    assert (Store.keepsTransactions h
              (<[l := Store.OOperation (Retain (n + diff))]> h)) as Hkeep1.
    { apply keepsTransactions_insert. intros a ap. by rewrite Hl. }
    destruct (n + diff <? 0); [by injection Hrun as <- <-|].
    destruct (n + diff =? 0); injection Hrun as <- <-; [|done].
    split.
    + apply separated_insert; [done|done|]. simpl. by apply Forall_spliceOut.
    + eapply keepsTransactions_trans; [exact Hkeep1|].
      apply keepsTransactions_insert. intros a ap.
      destruct (decide (l = ops)) as [->|Hne].
      * by rewrite lookup_insert_eq.
      * rewrite lookup_insert_ne by done. apply Hkind.
  - destruct (diff <? 0);
      [injection Hrun as <- <-; split; [done|apply keepsTransactions_refl]|].
    destruct (alloc_fresh (Store.OOperation (Retain diff)) h)
      as (l' & Halloc & Hl').
    rewrite Halloc in Hrun. injection Hrun as <- <-.
    by apply (Hinsert l' Harr h (Retain diff) Hkind Hsep
                (keepsTransactions_refl h) Hl').
Qed.

Lemma readOperations_weaken (elements : list Store.loc)
      (h h' : gmap Store.loc Store.object) (ops : list op) :
  h ⊆ h' ->
  (Store.readOperations elements h).1 = Ok ops ->
  Store.readOperations elements h' = (Ok ops, h').
Proof.
  intros Hsub. revert ops.
  induction elements as [|l rest IH]; intros ops Hrun; simpl in *.
  - by injection Hrun as <-.
  - unfold mbind, Store.M_bind, Store.readOperation in *.
    destruct (h !! l) as [[| |o]|] eqn:Hl; try discriminate.
    rewrite (lookup_weaken _ _ _ _ Hl Hsub).
    destruct (Store.readOperations rest h) as [[ops'|e] h1] eqn:Hrest;
      [|discriminate].
    rewrite (IH ops' eq_refl). simpl in Hrun. by injection Hrun as <-.
Qed.

(** A transaction looks the same in a store that keeps every object. *)
Lemma view_weaken (h h' : gmap Store.loc Store.object) (t : Store.loc)
      (v : Transaction) :
  h ⊆ h' -> Store.view h t = Some v -> Store.view h' t = Some v.
Proof.
  intros Hsub. unfold Store.view, Store.operationsOf.
  unfold mbind, Store.M_bind, Store.readTransaction, Store.readArray.
  destruct (h !! t) as [[a ap| |]|] eqn:Ht; try discriminate.
  rewrite (lookup_weaken _ _ _ _ Ht Hsub).
  destruct (h !! a) as [[|elements|]|] eqn:Ha; try discriminate.
  rewrite (lookup_weaken _ _ _ _ Ha Hsub).
  destruct (Store.readOperations elements h) as [[ops|e] h1] eqn:Hops;
    [|discriminate].
  intros [= <-].
  by rewrite (readOperations_weaken elements h h' ops Hsub)
    by (by rewrite Hops).
Qed.

Lemma getActiveRangeAndLengthDiff_reads (t : Store.loc)
      (h h' : gmap Store.loc Store.object) (r : result ActiveRange) :
  Store.getActiveRangeAndLengthDiff t h = (r, h') -> h' = h.
Proof.
  unfold Store.getActiveRangeAndLengthDiff, Store.operationsOf.
  unfold mbind, Store.M_bind. intros Hrun.
  destruct (Store.readTransaction t h) as [[[a ap]|e] h1] eqn:H1;
    apply readTransaction_inv in H1 as [-> _];
    [|by injection Hrun as <- <-].
  destruct (Store.readArray a h) as [[elements|e] h1] eqn:H2;
    apply readArray_inv in H2 as [-> _];
    [|by injection Hrun as <- <-].
  assert (forall elements r h1,
             Store.readOperations elements h = (r, h1) -> h1 = h) as Hreads.
  { clear. induction elements as [|l rest IH]; intros r h1 Hrun; simpl in Hrun.
    - by injection Hrun as <- <-.
    - unfold mbind, Store.M_bind in Hrun.
      destruct (Store.readOperation l h) as [[o|e] h2] eqn:H1;
        apply readOperation_inv in H1 as [-> _];
        [|by injection Hrun as <- <-].
      destruct (Store.readOperations rest h) as [[ops|e] h2];
        specialize (IH _ _ eq_refl) as ->; by injection Hrun as <- <-. }
  destruct (Store.readOperations elements h) as [[ops|e] h1] eqn:H3;
    apply Hreads in H3 as ->; by injection Hrun as <- <-.
Qed.

(** Two adjustments in a row, on arrays that are not in [h0]. *)
Lemma adjustRetain_twice (h0 : gmap Store.loc Store.object)
      (ops1 ops2 : Store.loc) (place1 place2 : place_t) (diff1 diff2 : Z)
      (A : Type) (a : A)
      (h h' : gmap Store.loc Store.object) (r : result A) :
  (_ ← Store.adjustRetain ops1 place1 diff1;
   _ ← Store.adjustRetain ops2 place2 diff2;
   mret a) h = (r, h') ->
  Store.separated h0 h -> h0 !! ops1 = None -> h0 !! ops2 = None ->
  Store.separated h0 h' /\ Store.keepsTransactions h h'.
Proof.
  intros Hrun Hsep H1 H2. unfold mbind, Store.M_bind in Hrun.
  destruct (Store.adjustRetain ops1 place1 diff1 h) as [[[]|e] h1] eqn:Hfirst;
    destruct (adjustRetain_separated h0 _ _ _ _ _ _ Hfirst Hsep H1)
      as [Hsep1 Hkeep1];
    [|by injection Hrun as <- <-].
  destruct (Store.adjustRetain ops2 place2 diff2 h1) as [[[]|e] h2] eqn:Hsecond;
    destruct (adjustRetain_separated h0 _ _ _ _ _ _ Hsecond Hsep1 H2)
      as [Hsep2 Hkeep2];
    injection Hrun as <- <-;
    (split; [done|by eapply keepsTransactions_trans]).
Qed.

(** C10: [rebaseTransactions] leaves every object of the store as it was,
    whether it returns or throws: the store after the call holds the store
    before it, so each transaction of the store, the arguments among them,
    has the operations list and the applied flag it had; and on success the
    two transactions returned are objects that were not in the store, so
    they are distinct from the arguments and from each other, and their
    applied flag is false. *)
Theorem rebaseTransactions_leaves_arguments
        (h : gmap Store.loc Store.object) (a b : Store.loc) :
  let out := Store.rebaseTransactions a b h in
  h ⊆ out.2
  /\ (forall t v, Store.view h t = Some v -> Store.view out.2 t = Some v)
  /\ (forall a' b',
        out.1 = Ok (Some a', Some b') ->
        h !! a' = None /\ h !! b' = None /\ a' <> b'
        /\ (exists opsA, out.2 !! a' = Some (Store.OTransaction opsA false))
        /\ (exists opsB, out.2 !! b' = Some (Store.OTransaction opsB false))).
Proof.
  intros out.
  cut (h ⊆ out.2
       /\ (forall a' b',
             out.1 = Ok (Some a', Some b') ->
             h !! a' = None /\ h !! b' = None /\ a' <> b'
             /\ (exists opsA,
                   out.2 !! a' = Some (Store.OTransaction opsA false))
             /\ (exists opsB,
                   out.2 !! b' = Some (Store.OTransaction opsB false)))).
  { intros [Hsub Hnew]. split; [done|]. split; [|done].
    intros t v. by apply view_weaken. }
  destruct out as [r h'] eqn:Hrun. subst out. simpl.
  unfold Store.rebaseTransactions in Hrun. unfold mbind at 1, Store.M_bind at 1 in Hrun.
  destruct (Store.clone a h) as [[ta|e] h1] eqn:HcloneA;
    destruct (clone_separated h _ _ _ _ HcloneA (separated_refl h))
      as (Hsep1 & Hsub1 & HnewA);
    [|injection Hrun as <- <-; split; [done|intros ? ? [=]]].
  destruct (HnewA ta eq_refl) as (Hta & opsA & HtaA).
  unfold mbind at 1, Store.M_bind at 1 in Hrun.
  destruct (Store.clone b h1) as [[tb|e] h2] eqn:HcloneB;
    destruct (clone_separated h _ _ _ _ HcloneB Hsep1)
      as (Hsep2 & Hsub2 & HnewB);
    [|injection Hrun as <- <-; split; [by etrans|intros ? ? [=]]].
  destruct (HnewB tb eq_refl) as (Htb & opsB & HtbB).
  assert (h ⊆ h2) as Hsub by (by etrans).
  assert (h !! tb = None) as Htb0 by (by eapply lookup_weaken_None).
  assert (h2 !! ta = Some (Store.OTransaction opsA false)) as HtaA2
    by (by eapply lookup_weaken).
  assert (ta <> tb) as Hne by (intros ->; congruence).
  assert (h !! opsA = None) as HopsA.
  { destruct Hsep2 as (_ & Htx & _). by eapply Htx. }
  assert (h !! opsB = None) as HopsB.
  { destruct Hsep2 as (_ & Htx & _). by eapply Htx. }
  unfold mbind at 1, Store.M_bind at 1 in Hrun.
  destruct (Store.getActiveRangeAndLengthDiff ta h2) as [[infoA|e] h3] eqn:HA;
    apply getActiveRangeAndLengthDiff_reads in HA as ->;
    [|injection Hrun as <- <-; split; [done|intros ? ? [=]]].
  unfold mbind at 1, Store.M_bind at 1 in Hrun.
  destruct (Store.getActiveRangeAndLengthDiff tb h2) as [[infoB|e] h3] eqn:HB;
    apply getActiveRangeAndLengthDiff_reads in HB as ->;
    [|injection Hrun as <- <-; split; [done|intros ? ? [=]]].
  unfold mbind at 1, Store.M_bind at 1 in Hrun.
  unfold Store.readTransaction at 1 in Hrun. rewrite HtaA2 in Hrun.
  unfold mbind at 1, Store.M_bind at 1 in Hrun.
  unfold Store.readTransaction at 1 in Hrun. rewrite HtbB in Hrun.
  assert (forall (h' : gmap Store.loc Store.object),
             Store.separated h h' /\ Store.keepsTransactions h2 h' ->
             h ⊆ h'
             /\ h !! ta = None /\ h !! tb = None /\ ta <> tb
             /\ (exists opsA, h' !! ta = Some (Store.OTransaction opsA false))
             /\ (exists opsB, h' !! tb = Some (Store.OTransaction opsB false)))
    as Hdone.
  { intros h3 [(Hsub3 & _) Hkeep]. repeat split; try done; eauto. }
  assert (forall ops1 ops2 place1 place2 diff1 diff2,
             h !! ops1 = None -> h !! ops2 = None ->
             (_ ← Store.adjustRetain ops1 place1 diff1;
              _ ← Store.adjustRetain ops2 place2 diff2;
              mret (Some ta, Some tb)) h2 = (r, h') ->
             h ⊆ h'
             /\ (forall a' b',
                   r = Ok (Some a', Some b') ->
                   h !! a' = None /\ h !! b' = None /\ a' <> b'
                   /\ (exists opsA,
                         h' !! a' = Some (Store.OTransaction opsA false))
                   /\ (exists opsB,
                         h' !! b' = Some (Store.OTransaction opsB false))))
    as Hbranch.
  { intros ops1 ops2 place1 place2 diff1 diff2 H1 H2 Hm.
    pose proof (adjustRetain_twice h _ _ _ _ _ _ _ _ _ _ _ Hm Hsep2 H1 H2)
      as Hboth.
    destruct (Hdone _ Hboth) as (Hsub' & ? & ? & ? & ? & ?).
    split; [done|]. intros a' b' Hr.
    assert (a' = ta /\ b' = tb) as [-> ->].
    { clear -Hm Hr. unfold mbind, Store.M_bind in Hm.
      destruct (Store.adjustRetain ops1 place1 diff1 h2) as [[[]|e] h3];
        [|congruence].
      destruct (Store.adjustRetain ops2 place2 diff2 h3) as [[[]|e] h4];
        [|congruence].
      unfold mret, Store.M_ret in Hm. split; congruence. }
    done. }
  destruct (bool_decide (ar_start infoA = None)
            || bool_decide (ar_start infoB = None)).
  { refine (Hbranch _ _ _ _ _ _ _ _ Hrun); assumption. }
  destruct (js_le (ar_end infoA) (ar_start infoB)).
  { refine (Hbranch _ _ _ _ _ _ _ _ Hrun); assumption. }
  destruct (js_le (ar_end infoB) (ar_start infoA)).
  { refine (Hbranch _ _ _ _ _ _ _ _ Hrun); assumption. }
  unfold mret, Store.M_ret in Hrun. injection Hrun as <- <-.
  split; [done|]. intros ? ? [=].
Qed.

Lemma rebaseTransactions_leaves_arguments_witness :
  Store.view (Store.rebaseTransactions 1%positive 6%positive store_scenario_5).2
             1%positive
  = Some (markAsApplied insert_x_at_1)
  /\ Store.view (Store.rebaseTransactions 1%positive 6%positive
                                          store_scenario_5).2 6%positive
     = Some insert_y_at_5.
Proof.
  split.
  - apply (proj1 (proj2 (rebaseTransactions_leaves_arguments
                           store_scenario_5 1%positive 6%positive))).
    vm_compute. reflexivity.
  - apply (proj1 (proj2 (rebaseTransactions_leaves_arguments
                           store_scenario_5 1%positive 6%positive))).
    vm_compute. reflexivity.
Defined.

(** Scenario 5 in the store: the transactions returned are new objects
    whose operations are those of [rebaseTransactions] on the values. *)
Lemma store_scenario_5_rebased :
  let out := Store.rebaseTransactions 1%positive 6%positive store_scenario_5 in
  out.1 = Ok (Some 12%positive, Some 18%positive)
  /\ rebaseTransactions insert_x_at_1 insert_y_at_5
     = Ok (Store.view out.2 12%positive, Store.view out.2 18%positive).
Proof. vm_compute. split; reflexivity. Qed.

(** ** The store and the values *)

Lemma readOperations_holds (h : gmap Store.loc Store.object)
      (elements : list Store.loc) (ops : list op) :
  Forall2 (fun l o => h !! l = Some (Store.OOperation o)) elements ops ->
  Store.readOperations elements h = (Ok ops, h).
Proof.
  induction 1 as [|l o elements ops Hl _ IH]; simpl; [reflexivity|].
  unfold mbind, Store.M_bind, Store.readOperation.
  by rewrite Hl, IH.
Qed.

Lemma readOperations_inv (h : gmap Store.loc Store.object)
      (elements : list Store.loc) :
  forall ops,
    (Store.readOperations elements h).1 = Ok ops ->
    Forall2 (fun l o => h !! l = Some (Store.OOperation o)) elements ops.
Proof.
  induction elements as [|l rest IH]; intros ops Hrun; simpl in Hrun.
  - injection Hrun as <-. constructor.
  - unfold mbind, Store.M_bind, Store.readOperation in Hrun.
    destruct (h !! l) as [[| |o]|] eqn:Hl; try discriminate.
    destruct (Store.readOperations rest h) as [[ops'|e] h1] eqn:Hrest;
      [|discriminate].
    injection Hrun as <-. constructor; [done|]. by apply IH.
Qed.

Lemma view_holds (h : gmap Store.loc Store.object) (t array : Store.loc)
      (ap : bool) (elements : list Store.loc) (ops : list op) :
  h !! t = Some (Store.OTransaction array ap) ->
  Store.holds h array elements ops ->
  Store.view h t = Some (mkTransaction ops ap).
Proof.
  intros Ht [Harr Hops]. unfold Store.view, Store.operationsOf.
  unfold mbind, Store.M_bind, Store.readTransaction, Store.readArray.
  by rewrite Ht, Harr, (readOperations_holds _ _ _ Hops).
Qed.

Lemma view_inv (h : gmap Store.loc Store.object) (t : Store.loc)
      (T : Transaction) :
  Store.view h t = Some T ->
  exists array elements,
    h !! t = Some (Store.OTransaction array (applied T))
    /\ Store.holds h array elements (operations T).
Proof.
  unfold Store.view, Store.operationsOf.
  unfold mbind, Store.M_bind, Store.readTransaction, Store.readArray.
  destruct (h !! t) as [[array ap| |]|] eqn:Ht; try discriminate.
  destruct (h !! array) as [[|elements|]|] eqn:Harr; try discriminate.
  destruct (Store.readOperations elements h) as [[ops|e] h1] eqn:Hops;
    [|discriminate].
  intros [= <-]. exists array, elements. split; [done|]. split; [done|].
  apply readOperations_inv. by rewrite Hops.
Qed.

Lemma holds_weaken (h h' : gmap Store.loc Store.object) (array : Store.loc)
      (elements : list Store.loc) (ops : list op) :
  h ⊆ h' -> Store.holds h array elements ops ->
  Store.holds h' array elements ops.
Proof.
  intros Hsub [Harr Hops]. split; [by eapply lookup_weaken|].
  eapply Forall2_impl; [exact Hops|]. intros l o Hl.
  exact (lookup_weaken _ _ _ _ Hl Hsub).
Qed.

Lemma Forall2_impl_elem {A B : Type} (P Q : A -> B -> Prop)
      (l : list A) (k : list B) :
  Forall2 P l k -> (forall x y, x ∈ l -> P x y -> Q x y) -> Forall2 Q l k.
Proof.
  induction 1 as [|x y l k Hxy _ IH]; intros HPQ; constructor.
  - apply HPQ; [left|done].
  - apply IH. intros x' y' Hin. apply HPQ. by right.
Qed.

(** The copy of the records reads as the original, and its records are
    new and distinct. *)
Lemma copyElements_holds (elements : list Store.loc) :
  forall (h : gmap Store.loc Store.object) (ops : list op),
    Forall2 (fun l o => h !! l = Some (Store.OOperation o)) elements ops ->
    exists elements' h',
      Store.copyElements elements h = (Ok elements', h')
      /\ h ⊆ h'
      /\ Forall2 (fun l o => h' !! l = Some (Store.OOperation o)) elements' ops
      /\ NoDup elements'
      /\ Forall (fun l => h !! l = None) elements'.
Proof.
  induction elements as [|l rest IH]; intros h ops Hops.
  - apply Forall2_nil_inv_l in Hops as ->. exists [], h.
    repeat split; try done; constructor.
  - apply Forall2_cons_inv_l in Hops as (o & ops' & Hl & Hrest & ->).
    simpl. unfold mbind, Store.M_bind, Store.readOperation. rewrite Hl.
    destruct (alloc_fresh (Store.OOperation o) h) as (l' & -> & Hl').
    set (h1 := <[l' := Store.OOperation o]> h).
    assert (h ⊆ h1) as Hsub1 by (by apply insert_subseteq).
    destruct (IH h1 ops') as (rest' & h2 & -> & Hsub2 & Hops2 & Hnodup & Hfresh).
    { eapply Forall2_impl; [exact Hrest|]. intros ? ? Hx.
      exact (lookup_weaken _ _ _ _ Hx Hsub1). }
    exists (l' :: rest'), h2. split; [reflexivity|]. split; [by etrans|].
    split; [|split].
    + constructor; [|done]. eapply lookup_weaken; [|exact Hsub2].
      apply lookup_insert_eq.
    + constructor; [|done]. intros Hin.
      apply (proj1 (Forall_forall _ _) Hfresh) in Hin.
      unfold h1 in Hin. by rewrite lookup_insert_eq in Hin.
    + constructor; [done|]. eapply Forall_impl; [exact Hfresh|].
      intros ? Hx. exact (lookup_weaken_None _ _ _ Hx Hsub1).
Qed.

(** The clone of a transaction of the store reads as the transaction with
    the flag cleared, and is made of new, distinct objects. *)
Lemma clone_holds (h : gmap Store.loc Store.object) (t array : Store.loc)
      (ap : bool) (elements : list Store.loc) (ops : list op) :
  h !! t = Some (Store.OTransaction array ap) ->
  Store.holds h array elements ops ->
  exists t' array' elements' h',
    Store.clone t h = (Ok t', h')
    /\ h ⊆ h'
    /\ h' !! t' = Some (Store.OTransaction array' false)
    /\ Store.holds h' array' elements' ops
    /\ NoDup (t' :: array' :: elements')
    /\ Forall (fun l => h !! l = None) (t' :: array' :: elements').
Proof.
  intros Ht [Harr Hops].
  unfold Store.clone, Store.newTransaction, Store.ve_copy.
  unfold mbind, Store.M_bind.
  destruct (alloc_fresh (Store.OArray []) h) as (a0 & -> & Ha0).
  set (h1 := <[a0 := Store.OArray []]> h).
  assert (h ⊆ h1) as Hsub1 by (by apply insert_subseteq).
  destruct (alloc_fresh (Store.OTransaction a0 false) h1) as (tx & -> & Htx).
  set (h2 := <[tx := Store.OTransaction a0 false]> h1).
  assert (h1 ⊆ h2) as Hsub2 by (by apply insert_subseteq).
  assert (h ⊆ h2) as Hsub02 by (by etrans).
  unfold Store.readTransaction at 1.
  rewrite (lookup_weaken _ _ _ _ Ht Hsub02).
  unfold Store.readArray. rewrite (lookup_weaken _ _ _ _ Harr Hsub02).
  destruct (copyElements_holds elements h2 ops)
    as (elements' & h3 & -> & Hsub3 & Hops3 & Hnodup & Hfresh).
  { eapply Forall2_impl; [exact Hops|]. intros ? ? Hx.
    exact (lookup_weaken _ _ _ _ Hx Hsub02). }
  destruct (alloc_fresh (Store.OArray elements') h3) as (a' & -> & Ha').
  set (h4 := <[a' := Store.OArray elements']> h3).
  assert (h3 ⊆ h4) as Hsub4 by (by apply insert_subseteq).
  assert (h2 !! tx = Some (Store.OTransaction a0 false)) as Htx2
    by apply lookup_insert_eq.
  assert (h4 !! tx = Some (Store.OTransaction a0 false)) as Htx4.
  { eapply lookup_weaken; [|exact Hsub4]. by eapply lookup_weaken. }
  unfold Store.readTransaction. rewrite Htx4.
  unfold Store.write, mret, Store.M_ret.
  assert (h !! tx = None) as Htx0 by (by eapply lookup_weaken_None).
  assert (tx <> a') as Hne.
  { intros ->. assert (h3 !! a' = Some (Store.OTransaction a0 false))
      by (by eapply lookup_weaken). congruence. }
  assert (Forall (fun l => l <> tx /\ l <> a') elements') as Hother.
  { apply Forall_forall. intros l Hin.
    apply (proj1 (Forall_forall _ _) Hfresh) in Hin as Hl.
    apply list_elem_of_lookup_1 in Hin as [i Hi].
    destruct (Forall2_lookup_l _ _ _ _ _ Hops3 Hi) as (o & _ & Hlo).
    split; intros ->; congruence. }
  exists tx, a', elements', (<[tx := Store.OTransaction a' false]> h4).
  split; [reflexivity|]. split; [|split; [|split; [|split]]].
  - apply insert_subseteq_r; [done|]. etrans; [exact Hsub02|]. by etrans.
  - apply lookup_insert_eq.
  - split.
    + rewrite lookup_insert_ne by done. apply lookup_insert_eq.
    + eapply Forall2_impl_elem; [exact Hops3|]. intros l o Hin Hl. simpl.
      destruct (proj1 (Forall_forall _ _) Hother _ Hin) as [Hl1 Hl2].
      rewrite lookup_insert_ne by done. unfold h4.
      by rewrite lookup_insert_ne.
  - constructor.
    + rewrite elem_of_cons. intros [?|Hin]; [done|].
      by destruct (proj1 (Forall_forall _ _) Hother _ Hin).
    + constructor; [|done]. intros Hin.
      by destruct (proj1 (Forall_forall _ _) Hother _ Hin).
  - constructor; [done|]. constructor.
    + eapply lookup_weaken_None; [exact Ha'|]. by etrans.
    + eapply Forall_impl; [exact Hfresh|]. intros ? Hx.
      exact (lookup_weaken_None _ _ _ Hx Hsub02).
Qed.

Lemma spliceOut_NoDup {A : Type} (l : list A) (i : Z) (x : A) :
  NoDup l -> l !! Z.to_nat i = Some x ->
  NoDup (spliceOut l i) /\ x ∉ spliceOut l i.
Proof.
  intros Hnodup Hx. unfold spliceOut.
  rewrite <- (take_drop_middle l _ x Hx) in Hnodup.
  apply NoDup_app in Hnodup as (N1 & Hdisj & N2).
  apply NoDup_cons in N2 as [Hnotin N2].
  split.
  - apply NoDup_app. split; [done|]. split; [|done].
    intros y Hy Hy'. apply (Hdisj y Hy). by right.
  - rewrite elem_of_app. intros [Hin|Hin]; [|done].
    apply (Hdisj x Hin). by left.
Qed.

Lemma elem_of_spliceOut {A : Type} (l : list A) (i : Z) (x : A) :
  x ∈ spliceOut l i -> x ∈ l.
Proof.
  unfold spliceOut. rewrite elem_of_app. intros [Hin|Hin].
  - by eapply subseteq_take.
  - by eapply subseteq_drop.
Qed.

Lemma elem_of_spliceIn {A : Type} (l : list A) (i : Z) (x y : A) :
  y ∈ spliceIn l i x <-> y = x \/ y ∈ l.
Proof.
  unfold spliceIn. rewrite elem_of_app, elem_of_cons.
  rewrite <- (take_drop (Z.to_nat i) l) at 3. rewrite elem_of_app. tauto.
Qed.

Lemma spliceIn_NoDup {A : Type} (l : list A) (i : Z) (x : A) :
  NoDup l -> x ∉ l -> NoDup (spliceIn l i x).
Proof.
  intros Hnodup Hx. unfold spliceIn.
  rewrite <- (take_drop (Z.to_nat i) l) in Hnodup, Hx.
  apply NoDup_app in Hnodup as (N1 & Hdisj & N2).
  rewrite elem_of_app in Hx.
  apply NoDup_app. split; [done|]. split.
  - intros y Hy. rewrite elem_of_cons. intros [->|Hin]; [tauto|].
    by apply (Hdisj y).
  - apply NoDup_cons. split; [tauto|done].
Qed.

Lemma Forall2_spliceOut {A B : Type} (P : A -> B -> Prop)
      (l : list A) (k : list B) (i : Z) :
  Forall2 P l k -> Forall2 P (spliceOut l i) (spliceOut k i).
Proof.
  intros H. unfold spliceOut. apply Forall2_app.
  - by apply Forall2_take.
  - by apply Forall2_drop.
Qed.

Lemma Forall2_spliceIn {A B : Type} (P : A -> B -> Prop)
      (l : list A) (k : list B) (i : Z) (x : A) (y : B) :
  Forall2 P l k -> P x y -> Forall2 P (spliceIn l i x) (spliceIn k i y).
Proof.
  intros H Hxy. unfold spliceIn. apply Forall2_app.
  - by apply Forall2_take.
  - constructor; [done|]. by apply Forall2_drop.
Qed.

(** [ops[ i ]] in the store and on the values. *)
Lemma operationAt_holds (h : gmap Store.loc Store.object)
      (elements : list Store.loc) (ops : list op) (i : Z) :
  Forall2 (fun l o => h !! l = Some (Store.OOperation o)) elements ops ->
  exists r,
    Store.operationAt elements i h = (Ok r, h)
    /\ at_index ops i = snd <$> r
    /\ at_index elements i = fst <$> r
    /\ forall l o, r = Some (l, o) -> 0 <= i /\ elements !! Z.to_nat i = Some l.
Proof.
  intros Hops. unfold Store.operationAt, at_index.
  destruct (i <? 0) eqn:Hi.
  - exists None. repeat split; try done.
  - destruct (elements !! Z.to_nat i) as [l|] eqn:Hl.
    + destruct (Forall2_lookup_l _ _ _ _ _ Hops Hl) as (o & Ho & Hlo).
      exists (Some (l, o)).
      unfold mbind, Store.M_bind, Store.readOperation. rewrite Hlo.
      repeat split; try done.
      * lia.
      * by injection H as <- _.
    + exists None. split; [done|]. split; [|done].
      apply Forall2_length in Hops.
      apply lookup_ge_None in Hl. simpl.
      apply lookup_ge_None. lia.
Qed.

(** [adjustRetain] on the store computes [adjustRetain] on the values, and
    changes the array and its records only. *)
Lemma adjustRetain_holds (h : gmap Store.loc Store.object)
      (array : Store.loc) (elements : list Store.loc) (ops : list op)
      (place : place_t) (diff : Z) :
  Store.holds h array elements ops ->
  NoDup (array :: elements) ->
  match adjustRetain ops place diff with
  | Ok ops' =>
      exists elements' h',
        Store.adjustRetain array place diff h = (Ok tt, h')
        /\ Store.holds h' array elements' ops'
        /\ NoDup (array :: elements')
        /\ Forall (fun l => l ∈ elements \/ h !! l = None) elements'
        /\ forall l x, l ∉ array :: elements -> h !! l = Some x ->
                  h' !! l = Some x
  | Throw e => exists h', Store.adjustRetain array place diff h = (Throw e, h')
  end.
Proof.
  intros [Harr Hops] Hnodup.
  apply NoDup_cons in Hnodup as [Hnotin Hnodup].
  pose proof (Forall2_length _ _ _ Hops) as Hlen.
  assert (len elements = len ops) as HlenZ by (unfold len; lia).
  unfold adjustRetain, Store.adjustRetain.
  unfold mbind, Store.M_bind, Store.readArray. rewrite Harr.
  destruct (diff =? 0).
  { exists elements, h. repeat split; try done.
    - by apply NoDup_cons.
    - apply Forall_forall. by left. }
  set (start := match place with AtStart => true | AtEnd => false end).
  rewrite HlenZ.
  set (i := if start then 0 else len ops - 1).
  destruct (operationAt_holds h elements ops i Hops)
    as (first & -> & Hfirst & _ & _).
  rewrite Hfirst.
  set (i' := match start, snd <$> first with
             | false, Some (RetainMetadata _) => len ops - 2
             | _, _ => i
             end).
  assert (match start, first with
          | false, Some (_, RetainMetadata _) => len ops - 2
          | _, _ => i
          end = i') as ->.
  { unfold i'. destruct start, first as [[? []]|]; reflexivity. }
  destruct (operationAt_holds h elements ops i' Hops)
    as (at_i & -> & Hat & _ & Hidx).
  rewrite Hat.
  (* the retain is inserted *)
  assert (forall idx,
             (diff <? 0) = false ->
             exists elements' h',
               (l ← Store.alloc (Store.OOperation (Retain diff));
                Store.write array
                  (Store.OArray (spliceIn elements idx l))) h = (Ok tt, h')
               /\ Store.holds h' array elements'
                              (spliceIn ops idx (Retain diff))
               /\ NoDup (array :: elements')
               /\ Forall (fun l => l ∈ elements \/ h !! l = None) elements'
               /\ forall l x, l ∉ array :: elements -> h !! l = Some x ->
                         h' !! l = Some x) as Hinsert.
  { intros idx _. unfold mbind, Store.M_bind.
    destruct (alloc_fresh (Store.OOperation (Retain diff)) h)
      as (l' & -> & Hl').
    assert (l' <> array) as Hne by (intros ->; congruence).
    assert (l' ∉ elements) as Hl'notin.
    { intros Hin. apply list_elem_of_lookup_1 in Hin as [j Hj].
      destruct (Forall2_lookup_l _ _ _ _ _ Hops Hj) as (o & _ & Hlo).
      congruence. }
    eexists (spliceIn elements idx l'), _. split; [reflexivity|].
    split; [|split; [|split]].
    - split; [apply lookup_insert_eq|].
      apply Forall2_spliceIn.
      + eapply Forall2_impl_elem; [exact Hops|]. intros l o Hin Hl. simpl.
        assert (array <> l) by (by intros ->).
        assert (l' <> l) by (by intros ->).
        by rewrite !lookup_insert_ne by done.
      + rewrite lookup_insert_ne by done. apply lookup_insert_eq.
    - apply NoDup_cons. split.
      + rewrite elem_of_spliceIn. intros [->|?]; done.
      + by apply spliceIn_NoDup.
    - apply Forall_forall. intros l. rewrite elem_of_spliceIn.
      intros [->|?]; [by right|by left].
    - intros l x Hl Hx. apply not_elem_of_cons in Hl as [Hl1 Hl2].
      assert (l' <> l) by (intros ->; congruence).
      by rewrite !lookup_insert_ne by done. }
  destruct at_i as [[l o]|]; simpl.
  - destruct (Hidx l o eq_refl) as [Hi' Hl].
    destruct (Forall2_lookup_l _ _ _ _ _ Hops Hl) as (o' & Ho' & Hlo).
    assert (l ∈ elements) as Hlin by (by eapply list_elem_of_lookup_2).
    assert (l <> array) as Hne by (intros ->; done).
    destruct o as [n| | | | |];
      try (destruct (diff <? 0) eqn:Hneg; [by eexists|];
           by apply Hinsert).
    unfold Store.write, Store.throw, mret, Store.M_ret.
    destruct (n + diff <? 0); [by eexists|].
    destruct (n + diff =? 0).
    + destruct (spliceOut_NoDup elements i' l Hnodup Hl) as [Hnodup' Hlout].
      eexists (spliceOut elements i'), _. split; [reflexivity|].
      split; [|split; [|split]].
      * split; [apply lookup_insert_eq|].
        eapply Forall2_impl_elem; [by apply Forall2_spliceOut|].
        intros l1 o1 Hin Hl1. simpl.
        assert (l <> l1) by (by intros ->).
        apply elem_of_spliceOut in Hin.
        assert (array <> l1) by (by intros ->).
        by rewrite !lookup_insert_ne by done.
      * apply NoDup_cons. split; [|done].
        intros Hin. by apply elem_of_spliceOut in Hin.
      * apply Forall_forall. intros l1 Hin. left.
        by eapply elem_of_spliceOut.
      * intros l1 x Hl1 Hx. apply not_elem_of_cons in Hl1 as [Hl1 Hl2].
        assert (l <> l1) by (by intros ->).
        by rewrite !lookup_insert_ne by done.
    + eexists elements, _. split; [reflexivity|].
      split; [|split; [|split]].
      * split; [by rewrite lookup_insert_ne|].
        apply Forall2_same_length_lookup_2; [by rewrite length_insert|].
        intros j l1 o1 Hl1 Ho1.
        destruct (decide (j = Z.to_nat i')) as [->|Hj].
        -- rewrite Hl in Hl1. injection Hl1 as <-.
           rewrite list_lookup_insert_eq in Ho1
             by (apply lookup_lt_Some in Ho'; lia).
           injection Ho1 as <-. apply lookup_insert_eq.
        -- rewrite list_lookup_insert_ne in Ho1 by done.
           rewrite lookup_insert_ne.
           ++ by eapply (Forall2_lookup_lr _ _ _ _ _ _ Hops).
           ++ intros ->. apply Hj.
              by eapply (NoDup_lookup elements j (Z.to_nat i') l1).
      * by apply NoDup_cons.
      * apply Forall_forall. by left.
      * intros l1 x Hl1 Hx. apply not_elem_of_cons in Hl1 as [Hl1 Hl2].
        assert (l <> l1) by (by intros ->).
        by rewrite lookup_insert_ne by done.
  - destruct (diff <? 0) eqn:Hneg; [by eexists|].
    by apply Hinsert.
Qed.

(** Two adjustments in a row, on two transactions made of distinct
    objects. *)
Lemma adjustRetain_both (h : gmap Store.loc Store.object)
      (tX arrX : Store.loc) (elemsX : list Store.loc) (opsX : list op)
      (tY arrY : Store.loc) (elemsY : list Store.loc) (opsY : list op)
      (placeX placeY : place_t) (diffX diffY : Z) (A : Type) (res : A) :
  h !! tX = Some (Store.OTransaction arrX false) ->
  h !! tY = Some (Store.OTransaction arrY false) ->
  Store.holds h arrX elemsX opsX -> Store.holds h arrY elemsY opsY ->
  NoDup (arrX :: elemsX) -> NoDup (arrY :: elemsY) ->
  (forall l, l ∈ arrX :: elemsX -> l ∉ arrY :: elemsY) ->
  let run := (_ ← Store.adjustRetain arrX placeX diffX;
              _ ← Store.adjustRetain arrY placeY diffY;
              mret res) h in
  match adjustRetain opsX placeX diffX with
  | Ok opsX' =>
      match adjustRetain opsY placeY diffY with
      | Ok opsY' =>
          run.1 = Ok res
          /\ Store.view run.2 tX = Some (mkTransaction opsX' false)
          /\ Store.view run.2 tY = Some (mkTransaction opsY' false)
      | Throw e => run.1 = Throw e
      end
  | Throw e => run.1 = Throw e
  end.
Proof.
  intros HtX HtY HX HY NX NY Hdisj run. subst run.
  assert (forall t a arr (elems : list Store.loc) ops,
             h !! t = Some (Store.OTransaction a false) ->
             Store.holds h arr elems ops -> t ∉ arr :: elems)
    as Hkind.
  { intros t a arr elems ops Ht [Harr Hops] Hin.
    apply elem_of_cons in Hin as [->|Hin]; [congruence|].
    apply list_elem_of_lookup_1 in Hin as [j Hj].
    destruct (Forall2_lookup_l _ _ _ _ _ Hops Hj) as (o & _ & Hlo).
    congruence. }
  assert (forall l (elems : list Store.loc) arr ops,
             Store.holds h arr elems ops -> l ∈ arr :: elems ->
             is_Some (h !! l)) as Hdefined.
  { intros l elems arr ops [Harr Hops] Hin.
    apply elem_of_cons in Hin as [->|Hin]; [by eexists|].
    apply list_elem_of_lookup_1 in Hin as [j Hj].
    destruct (Forall2_lookup_l _ _ _ _ _ Hops Hj) as (o & _ & Hlo).
    by eexists. }
  unfold mbind, Store.M_bind.
  pose proof (adjustRetain_holds h arrX elemsX opsX placeX diffX HX NX) as H1.
  destruct (adjustRetain opsX placeX diffX) as [opsX'|e];
    [|by destruct H1 as (h1 & ->)].
  destruct H1 as (elemsX' & h1 & -> & HX1 & NX1 & HnewX & Hframe1).
  assert (Store.holds h1 arrY elemsY opsY) as HY1.
  { destruct HY as [Harr Hops]. split.
    - apply Hframe1; [|done]. intros Hin. apply (Hdisj _ Hin). by left.
    - eapply Forall2_impl_elem; [exact Hops|]. intros l o Hin Hl. simpl.
      apply Hframe1; [|done]. intros Hin'. apply (Hdisj _ Hin'). by right. }
  pose proof (adjustRetain_holds h1 arrY elemsY opsY placeY diffY HY1 NY)
    as H2.
  destruct (adjustRetain opsY placeY diffY) as [opsY'|e];
    [|by destruct H2 as (h2 & ->)].
  destruct H2 as (elemsY' & h2 & -> & HY2 & NY2 & HnewY & Hframe2).
  simpl. split; [reflexivity|].
  assert (forall l, l ∈ arrX :: elemsX' -> l ∉ arrY :: elemsY) as Hdisj'.
  { intros l Hin HinY.
    apply elem_of_cons in Hin as [->|Hin].
    - apply (Hdisj arrX); [by left|done].
    - apply (proj1 (Forall_forall _ _) HnewX) in Hin as [Hin|Hfresh].
      + apply (Hdisj l); [by right|done].
      + destruct (Hdefined _ _ _ _ HY HinY) as [x Hx]. congruence. }
  split.
  - eapply view_holds.
    + apply Hframe2; [|apply Hframe1; [|exact HtX]].
      * by eapply Hkind.
      * by eapply Hkind.
    + destruct HX1 as [Harr Hops]. split.
      * apply Hframe2; [|done]. apply Hdisj'. by left.
      * eapply Forall2_impl_elem; [exact Hops|]. intros l o Hin Hl. simpl.
        apply Hframe2; [|done]. apply Hdisj'. by right.
  - eapply view_holds; [|exact HY2].
    apply Hframe2; [|apply Hframe1; [|exact HtY]].
    + by eapply Hkind.
    + by eapply Hkind.
Qed.

Lemma getActiveRangeAndLengthDiff_holds (h : gmap Store.loc Store.object)
      (t array : Store.loc) (ap : bool) (elements : list Store.loc)
      (ops : list op) :
  h !! t = Some (Store.OTransaction array ap) ->
  Store.holds h array elements ops ->
  Store.getActiveRangeAndLengthDiff t h
  = (Ok (getActiveRangeAndLengthDiff (mkTransaction ops false)), h).
Proof.
  intros Ht [Harr Hops].
  unfold Store.getActiveRangeAndLengthDiff, Store.operationsOf.
  unfold mbind, Store.M_bind, Store.readTransaction, Store.readArray.
  by rewrite Ht, Harr, (readOperations_holds _ _ _ Hops).
Qed.

(** [rebaseTransactions] on the store computes [rebaseTransactions] on the
    values: for two transactions of the store it throws when the value
    version throws, returns [[ null, null ]] when it does, and otherwise
    returns two transactions that read as the two values. *)
Theorem rebaseTransactions_in_store (h : gmap Store.loc Store.object)
        (a b : Store.loc) (A B : Transaction) :
  Store.view h a = Some A -> Store.view h b = Some B ->
  let out := Store.rebaseTransactions a b h in
  match rebaseTransactions A B with
  | Ok (Some A', Some B') =>
      exists a' b',
        out.1 = Ok (Some a', Some b')
        /\ Store.view out.2 a' = Some A' /\ Store.view out.2 b' = Some B'
  | Ok (None, None) => out.1 = Ok (None, None)
  | Ok _ => False
  | Throw e => out.1 = Throw e
  end.
Proof.
  intros HA HB out.
  remember (Store.rebaseTransactions a b h) as run eqn:Hrun. subst out.
  apply view_inv in HA as (arrA0 & elemsA0 & Ha & HholdsA0).
  apply view_inv in HB as (arrB0 & elemsB0 & Hb & HholdsB0).
  destruct (clone_holds h a arrA0 (applied A) elemsA0 (operations A) Ha
              HholdsA0)
    as (tA & arrA & elemsA & h1 & HcloneA & Hsub1 & HtA & HholdsA & NA & FA).
  destruct (clone_holds h1 b arrB0 (applied B) elemsB0 (operations B)
              (lookup_weaken _ _ _ _ Hb Hsub1)
              (holds_weaken _ _ _ _ _ Hsub1 HholdsB0))
    as (tB & arrB & elemsB & h2 & HcloneB & Hsub2 & HtB & HholdsB & NB & FB).
  pose proof (lookup_weaken _ _ _ _ HtA Hsub2) as HtA2.
  pose proof (holds_weaken _ _ _ _ _ Hsub2 HholdsA) as HholdsA2.
  unfold Store.rebaseTransactions in Hrun.
  unfold mbind at 1, Store.M_bind at 1 in Hrun. rewrite HcloneA in Hrun.
  unfold mbind at 1, Store.M_bind at 1 in Hrun. rewrite HcloneB in Hrun.
  unfold mbind at 1, Store.M_bind at 1 in Hrun.
  rewrite (getActiveRangeAndLengthDiff_holds _ _ _ _ _ _ HtA2 HholdsA2)
    in Hrun.
  unfold mbind at 1, Store.M_bind at 1 in Hrun.
  rewrite (getActiveRangeAndLengthDiff_holds _ _ _ _ _ _ HtB HholdsB) in Hrun.
  unfold mbind at 1, Store.M_bind at 1 in Hrun.
  unfold Store.readTransaction at 1 in Hrun. rewrite HtA2 in Hrun.
  unfold mbind at 1, Store.M_bind at 1 in Hrun.
  unfold Store.readTransaction at 1 in Hrun. rewrite HtB in Hrun.
  unfold rebaseTransactions.
  change (getActiveRangeAndLengthDiff (clone A))
    with (getActiveRangeAndLengthDiff (mkTransaction (operations A) false)).
  change (getActiveRangeAndLengthDiff (clone B))
    with (getActiveRangeAndLengthDiff (mkTransaction (operations B) false)).
  set (infoA := getActiveRangeAndLengthDiff
                  (mkTransaction (operations A) false)) in *.
  set (infoB := getActiveRangeAndLengthDiff
                  (mkTransaction (operations B) false)) in *.
  change (operations (clone A)) with (operations A).
  change (operations (clone B)) with (operations B).
  change (applied (clone A)) with false.
  change (applied (clone B)) with false.
  (* the objects of the two clones are distinct *)
  assert (forall l, l ∈ arrA :: elemsA -> is_Some (h1 !! l)) as HdefA.
  { intros l Hin. destruct HholdsA as [Harr Hops].
    apply elem_of_cons in Hin as [->|Hin]; [by eexists|].
    apply list_elem_of_lookup_1 in Hin as [j Hj].
    destruct (Forall2_lookup_l _ _ _ _ _ Hops Hj) as (o & _ & Hlo).
    by eexists. }
  assert (forall l, l ∈ arrB :: elemsB -> h1 !! l = None) as HfreshB.
  { intros l Hin. apply Forall_cons in FB as [_ FB].
    by apply (proj1 (Forall_forall _ _) FB). }
  assert (forall l, l ∈ arrA :: elemsA -> l ∉ arrB :: elemsB) as HdisjAB.
  { intros l HinA HinB. destruct (HdefA l HinA) as [x Hx].
    rewrite (HfreshB l HinB) in Hx. discriminate. }
  assert (forall l, l ∈ arrB :: elemsB -> l ∉ arrA :: elemsA) as HdisjBA.
  { intros l HinB HinA. by apply (HdisjAB l). }
  apply NoDup_cons in NA as [_ NA]. apply NoDup_cons in NB as [_ NB].
  destruct (bool_decide (ar_start infoA = None)
            || bool_decide (ar_start infoB = None)).
  { pose proof (adjustRetain_both h2 tA arrA elemsA (operations A)
                  tB arrB elemsB (operations B) AtStart AtStart
                  (ar_diff infoB) (ar_diff infoA) _ (Some tA, Some tB)
                  HtA2 HtB HholdsA2 HholdsB NA NB HdisjAB) as Hboth.
    cbv zeta in Hboth. rewrite <- Hrun in Hboth.
    unfold mbind at 1 2, result_bind.
    destruct (adjustRetain (operations A) AtStart (ar_diff infoB));
      [|done].
    destruct (adjustRetain (operations B) AtStart (ar_diff infoA));
      [|done].
    destruct Hboth as (Hr & HvA & HvB). by exists tA, tB. }
  destruct (js_le (ar_end infoA) (ar_start infoB)).
  { pose proof (adjustRetain_both h2 tB arrB elemsB (operations B)
                  tA arrA elemsA (operations A) AtStart AtEnd
                  (ar_diff infoA) (ar_diff infoB) _ (Some tA, Some tB)
                  HtB HtA2 HholdsB HholdsA2 NB NA HdisjBA) as Hboth.
    cbv zeta in Hboth. rewrite <- Hrun in Hboth.
    unfold mbind at 1 2, result_bind.
    destruct (adjustRetain (operations B) AtStart (ar_diff infoA));
      [|done].
    destruct (adjustRetain (operations A) AtEnd (ar_diff infoB));
      [|done].
    destruct Hboth as (Hr & HvB & HvA). by exists tA, tB. }
  destruct (js_le (ar_end infoB) (ar_start infoA)).
  { pose proof (adjustRetain_both h2 tA arrA elemsA (operations A)
                  tB arrB elemsB (operations B) AtStart AtEnd
                  (ar_diff infoB) (ar_diff infoA) _ (Some tA, Some tB)
                  HtA2 HtB HholdsA2 HholdsB NA NB HdisjAB) as Hboth.
    cbv zeta in Hboth. rewrite <- Hrun in Hboth.
    unfold mbind at 1 2, result_bind.
    destruct (adjustRetain (operations A) AtStart (ar_diff infoB));
      [|done].
    destruct (adjustRetain (operations B) AtEnd (ar_diff infoA));
      [|done].
    destruct Hboth as (Hr & HvA & HvB). by exists tA, tB. }
  subst run. reflexivity.
Qed.

Lemma rebaseTransactions_in_store_witness :
  exists a' b',
    (Store.rebaseTransactions 1%positive 6%positive store_scenario_5).1
    = Ok (Some a', Some b')
    /\ Store.view (Store.rebaseTransactions 1%positive 6%positive
                                           store_scenario_5).2 a'
       = Some (newTransaction
                 [Retain 1; Replace [] [item_x] None None None None;
                  Retain 6])
    /\ Store.view (Store.rebaseTransactions 1%positive 6%positive
                                           store_scenario_5).2 b'
       = Some (newTransaction
                 [Retain 6; Replace [] [item_y] None None None None;
                  Retain 1]).
Proof.
  apply (rebaseTransactions_in_store store_scenario_5 1%positive 6%positive
           (markAsApplied insert_x_at_1) insert_y_at_5).
  - vm_compute. reflexivity.
  - vm_compute. reflexivity.
Defined.

(** ** Further properties *)

(** The clone of a transaction of the store is a new object that reads as
    the transaction with the applied flag cleared, and the store keeps
    every object it had (invariant I5, property P6). *)
Theorem clone_in_store (h : gmap Store.loc Store.object) (t : Store.loc)
        (T : Transaction) :
  Store.view h t = Some T ->
  exists t',
    (Store.clone t h).1 = Ok t'
    /\ h !! t' = None
    /\ h ⊆ (Store.clone t h).2
    /\ Store.view (Store.clone t h).2 t' = Some (clone T).
Proof.
  intros HT.
  apply view_inv in HT as (array & elements & Ht & Hholds).
  destruct (clone_holds h t array (applied T) elements (operations T) Ht
              Hholds)
    as (t' & array' & elements' & h' & -> & Hsub & Ht' & Hholds' & _ & Hfresh).
  exists t'. simpl. split; [done|]. split; [|split; [done|]].
  - by apply Forall_cons in Hfresh as [? _].
  - by eapply view_holds.
Qed.

Lemma clone_in_store_witness :
  exists t',
    (Store.clone 1%positive store_scenario_5).1 = Ok t'
    /\ store_scenario_5 !! t' = None
    /\ store_scenario_5 ⊆ (Store.clone 1%positive store_scenario_5).2
    /\ Store.view (Store.clone 1%positive store_scenario_5).2 t'
       = Some (clone (markAsApplied insert_x_at_1)).
Proof.
  apply (clone_in_store store_scenario_5 1%positive
           (markAsApplied insert_x_at_1)).
  vm_compute. reflexivity.
Defined.

(** [isNoOp] holds exactly for an empty operations list, a single retain,
    and a retain followed by a [retainMetadata] (property P6). *)
Theorem isNoOp_iff (t : Transaction) :
  isNoOp t = true
  <-> operations t = []
      \/ (exists n, operations t = [Retain n])
      \/ (exists n m, operations t = [Retain n; RetainMetadata m]).
Proof.
  unfold isNoOp. split.
  - destruct (operations t) as [|o0 [|o1 [|o2 ops]]]; intros H.
    + by left.
    + right. left. destruct o0; try discriminate. by eexists.
    + right. right. destruct o0; try discriminate.
      destruct o1; try discriminate. by do 2 eexists.
    + discriminate.
  - intros [->|[[n ->]|(n & m & ->)]]; reflexivity.
Qed.

(** [pushRetain] throws for a negative length, leaves the operations for
    the length zero, adds the length to a trailing retain, and appends a
    retain otherwise (section 4.2). *)
Theorem pushRetain_coalesces (ops : list op) (n length : Z) :
  (length < 0 -> pushRetain ops length = Throw (InvalidRetainLength length))
  /\ pushRetain ops 0 = Ok ops
  /\ (0 < length ->
      pushRetain (ops ++ [Retain n]) length = Ok (ops ++ [Retain (n + length)]))
  /\ (0 < length -> (forall m, last ops <> Some (Retain m)) ->
      pushRetain ops length = Ok (ops ++ [Retain length])).
Proof.
  unfold pushRetain. repeat split.
  - intros H. by replace (length <? 0) with true by lia.
  - intros H. replace (length <? 0) with false by lia.
    replace (length =? 0) with false by lia.
    by rewrite last_snoc, removelast_last.
  - intros H Hlast. replace (length <? 0) with false by lia.
    replace (length =? 0) with false by lia.
    destruct (last ops) as [[]|] eqn:Hl; try reflexivity.
    by destruct (Hlast length0).
Qed.

Lemma scan_invariant (ops : list op) :
  forall st,
    (sc_start st = None -> sc_diff st = 0) ->
    (sc_start st <> None -> sc_end st <> None) ->
    let st' := fold_left scanStep ops st in
    (sc_start st' = None -> sc_diff st' = 0)
    /\ (sc_start st' <> None -> sc_end st' <> None).
Proof.
  induction ops as [|o ops IH]; intros st Hdiff Hend; simpl; [done|].
  apply IH.
  - destruct o as [n|n|r i rm im ido idl|r i|k f t|m b idx]; simpl;
      try done;
      destruct (sc_start st); try done;
      destruct (0 <? sc_annotations st); simpl; try done.
    all: intros _; by apply Hdiff.
  - destruct o as [n|n|r i rm im ido idl|r i|k f t|m b idx]; simpl;
      try done;
      destruct (sc_start st); try done;
      destruct (0 <? sc_annotations st); simpl; try done;
      intros _; by apply Hend.
Qed.

(** For every transaction, an active range whose start is defined has its
    end defined, and a transaction without an active range has length
    difference 0 (the remark "the no-op must have diff 0" of
    [rebaseTransactions]). *)
Theorem getActiveRangeAndLengthDiff_defined (t : Transaction) :
  let info := getActiveRangeAndLengthDiff t in
  (ar_start info <> None -> ar_end info <> None)
  /\ (ar_start info = None -> ar_diff info = 0).
Proof.
  unfold getActiveRangeAndLengthDiff. simpl.
  destruct (scan_invariant (operations t) (mkScan None None 0 0 0)) as [H1 H2];
    try done.
Qed.

(** ** Offsets outside the active range *)

(** Only a [replace] changes the adjustment of [translateOffset]. *)
Lemma translateOffsetFrom_without_replace (ops : list op) :
  forall offset excludeInsertion cursor adjustment,
    existsb (fun o => String.eqb (opType o) "replace") ops = false ->
    translateOffsetFrom ops offset excludeInsertion cursor adjustment
    = offset + adjustment.
Proof.
  induction ops as [|o ops IH]; intros x e c a Hno; simpl; [done|].
  simpl in Hno. apply orb_false_elim in Hno as [Ho Hno].
  destruct o as [n|n|r i rm im ido idl|r i|k f t|m b idx]; try discriminate;
    try (by apply IH).
  destruct ((c <=? x) && (x <? c + n)); [done|by apply IH].
Qed.

(** A transaction without content data operations translates every offset
    to itself, whatever the bias. *)
Theorem translateOffset_without_content_operations
        (t : Transaction) (offset : Z) (excludeInsertion : bool) :
  hasContentDataOperations t = false ->
  translateOffset t offset excludeInsertion = offset.
Proof.
  intros Hno. unfold translateOffset.
  rewrite translateOffsetFrom_without_replace by exact Hno. lia.
Qed.

(** The start of the active range, once set, is never moved. *)
Lemma scanStep_start_kept (st : Scan) (o : op) (s : Z) :
  sc_start st = Some s -> sc_start (scanStep st o) = Some s.
Proof.
  intros H. destruct o; simpl; rewrite ?H; try done.
Qed.

Lemma scan_start_kept (ops : list op) :
  forall st s, sc_start st = Some s ->
          sc_start (fold_left scanStep ops st) = Some s.
Proof.
  induction ops as [|o ops IH]; intros st s H; simpl; [done|].
  apply IH. by apply scanStep_start_kept.
Qed.

(** The end marker, once at or after [b], stays there while the offset
    is at or after [b]. *)
Lemma scan_end_bound (ops : list op) :
  forall st b x,
    retainsNonNegative ops = true ->
    sc_end st = Some x -> b <= x -> b <= sc_offset st ->
    exists y, sc_end (fold_left scanStep ops st) = Some y /\ b <= y.
Proof.
  induction ops as [|o ops IH]; intros st b x Hnn Hend Hx Hoff; simpl.
  - by exists x.
  - simpl in Hnn. apply andb_prop in Hnn as [Ho Hnn].
    destruct o as [n|n|r i rm im ido idl|r i|k f t|m bias idx]; simpl.
    + apply Z.leb_le in Ho.
      destruct (0 <? sc_annotations st); simpl.
      * eapply (IH _ b (sc_offset st + n)); simpl; try done; lia.
      * eapply (IH _ b x); simpl; try done; lia.
    + destruct (0 <? sc_annotations st); simpl.
      * eapply (IH _ b (sc_offset st)); simpl; try done; lia.
      * eapply (IH _ b x); simpl; try done; lia.
    + pose proof (len_nonneg r).
      rewrite orb_true_r.
      eapply (IH _ b (sc_offset st + len r)); simpl; try done; lia.
    + eapply (IH _ b (sc_offset st + 1)); simpl; try done; lia.
    + eapply (IH _ b (sc_offset st + 1)); simpl; try done; lia.
    + eapply (IH _ b x); simpl; try done; lia.
Qed.

(** When the end marker finishes before the current offset, what is left
    of the operations holds no [replace] and changes no length. *)
Lemma scan_quiet (ops : list op) :
  forall st,
    retainsNonNegative ops = true ->
    (forall y, sc_end (fold_left scanStep ops st) = Some y -> y < sc_offset st) ->
    sc_diff (fold_left scanStep ops st) = sc_diff st
    /\ existsb (fun o => String.eqb (opType o) "replace") ops = false.
Proof.
  induction ops as [|o ops IH]; intros st Hnn Hquiet; simpl; [done|].
  simpl in Hnn, Hquiet. apply andb_prop in Hnn as [Ho Hnn].
  specialize (IH (scanStep st o) Hnn).
  assert (forall x,
             sc_end (scanStep st o) = Some x -> sc_offset st <= x ->
             sc_offset st <= sc_offset (scanStep st o) -> False) as Hactive.
  { intros x Hend Hx Hoff.
    destruct (scan_end_bound ops _ (sc_offset st) x Hnn Hend Hx Hoff)
      as (y & Hy & Hle).
    specialize (Hquiet y Hy). lia. }
  destruct o as [n|n|r i rm im ido idl|r i|k f t|m bias idx]; simpl in *.
  - apply Z.leb_le in Ho.
    destruct (0 <? sc_annotations st) eqn:Hann; simpl in *.
    + exfalso. apply (Hactive (sc_offset st + n)); [done|lia|lia].
    + apply IH. intros y Hy. specialize (Hquiet y Hy). lia.
  - destruct (0 <? sc_annotations st) eqn:Hann; simpl in *.
    + exfalso. apply (Hactive (sc_offset st)); [done|lia|lia].
    + apply IH. intros y Hy. by specialize (Hquiet y Hy).
  - exfalso. pose proof (len_nonneg r).
    rewrite orb_true_r in Hactive.
    apply (Hactive (sc_offset st + len r)); [done|lia|lia].
  - exfalso. apply (Hactive (sc_offset st + 1)); [done|lia|lia].
  - exfalso. apply (Hactive (sc_offset st + 1)); [done|lia|lia].
  - apply IH. intros y Hy. by specialize (Hquiet y Hy).
Qed.

(** An offset beyond the end of the active range moves by the whole length
    difference. *)
Lemma translateOffsetFrom_after_end (ops : list op) :
  forall st offset excludeInsertion,
    retainsNonNegative ops = true ->
    sc_offset st <= offset ->
    (forall y, sc_end (fold_left scanStep ops st) = Some y -> y < offset) ->
    translateOffsetFrom ops offset excludeInsertion (sc_offset st) (sc_diff st)
    = offset + sc_diff (fold_left scanStep ops st).
Proof.
  induction ops as [|o ops IH]; intros st x e Hnn Hc Hend; simpl; [done|].
  simpl in Hnn, Hend. apply andb_prop in Hnn as [Ho Hnn].
  specialize (IH (scanStep st o) x e Hnn).
  pose proof (scan_end_bound ops (scanStep st o)) as Hbound.
  pose proof (scan_quiet ops (scanStep st o) Hnn) as Hquiet.
  destruct o as [n|n|r i rm im ido idl|r i|k f t|m bias idx]; simpl in *;
    try (by apply IH).
  - apply Z.leb_le in Ho.
    destruct ((sc_offset st <=? x) && (x <? sc_offset st + n)) eqn:Hin.
    + apply andb_prop in Hin as [_ Hin]. apply Z.ltb_lt in Hin.
      destruct (0 <? sc_annotations st) eqn:Hann; simpl in *.
      * destruct (Hbound (sc_offset st + n) (sc_offset st + n) Hnn)
          as (y & Hy & Hle); try done; try lia.
        specialize (Hend y Hy). lia.
      * destruct Hquiet as [Hd _].
        { intros y Hy. specialize (Hend y Hy). lia. }
        by rewrite Hd.
    + apply andb_false_iff in Hin.
      assert (sc_offset st + n <= x) by (destruct Hin as [H|H]; lia).
      by apply IH.
  - pose proof (len_nonneg r). rewrite orb_true_r in *.
    destruct (Hbound (sc_offset st + len r) (sc_offset st + len r) Hnn)
      as (y & Hy & Hle); try done; try lia.
    pose proof (Hend y Hy).
    replace (x =? sc_offset st + len r) with false by lia.
    replace (x =? sc_offset st) with false by lia.
    replace ((sc_offset st <? x) && (x <? sc_offset st + len r))
      with false by lia.
    apply IH; [lia|done].
Qed.

(** An offset before the start of the active range keeps the adjustment it
    had. *)
Lemma translateOffsetFrom_before_start (ops : list op) :
  forall st offset excludeInsertion,
    retainsNonNegative ops = true ->
    sc_start st = None ->
    sc_offset st <= offset ->
    (forall s, sc_start (fold_left scanStep ops st) = Some s -> offset < s) ->
    translateOffsetFrom ops offset excludeInsertion (sc_offset st) (sc_diff st)
    = offset + sc_diff st.
Proof.
  induction ops as [|o ops IH]; intros st x e Hnn Hnone Hc Hstart; simpl;
    [done|].
  simpl in Hnn, Hstart. apply andb_prop in Hnn as [Ho Hnn].
  assert (sc_start (scanStep st o) = Some (sc_offset st) -> False) as Hactive.
  { intros H. apply (scan_start_kept ops) in H.
    specialize (Hstart _ H). lia. }
  specialize (IH (scanStep st o) x e Hnn).
  destruct o as [n|n|r i rm im ido idl|r i|k f t|m bias idx];
    simpl in *; rewrite ?Hnone in *; simpl in *;
    rewrite ?orb_true_r in *; try (exfalso; by apply Hactive).
  - apply Z.leb_le in Ho.
    destruct (0 <? sc_annotations st) eqn:Hann; [exfalso; by apply Hactive|].
    destruct ((sc_offset st <=? x) && (x <? sc_offset st + n)) eqn:Hin;
      [done|].
    apply andb_false_iff in Hin.
    assert (sc_offset st + n <= x) by (destruct Hin as [H|H]; lia).
    by apply IH.
  - destruct (0 <? sc_annotations st) eqn:Hann; [exfalso; by apply Hactive|].
    by apply IH.
  - by apply IH.
Qed.

(** [translateOffset] and the active range of [getActiveRangeAndLengthDiff]
    agree: for a transaction whose retains are not negative, an offset
    before the start of the active range (or any offset, when there is no
    active range) is translated to itself, and an offset beyond the end of
    the active range is moved by the length difference, with either
    bias. *)
Theorem translateOffset_outside_active_range
        (t : Transaction) (offset : Z) (excludeInsertion : bool) :
  let info := getActiveRangeAndLengthDiff t in
  retainsNonNegative (operations t) = true ->
  0 <= offset ->
  ((forall s, ar_start info = Some s -> offset < s) ->
   translateOffset t offset excludeInsertion = offset)
  /\ ((forall e, ar_end info = Some e -> e < offset) ->
      translateOffset t offset excludeInsertion = offset + ar_diff info).
Proof.
  intros info Hnn Hoff. subst info.
  unfold getActiveRangeAndLengthDiff, translateOffset. simpl. split.
  - intros Hs.
    rewrite (translateOffsetFrom_before_start (operations t)
               (mkScan None None 0 0 0)); simpl; try done. lia.
  - intros He.
    by rewrite (translateOffsetFrom_after_end (operations t)
                  (mkScan None None 0 0 0)).
Qed.

Lemma translateOffset_outside_active_range_witness :
  translateOffset replace_2_5 1 false = 1
  /\ translateOffset replace_2_5 6 false = 6 + ar_diff (getActiveRangeAndLengthDiff replace_2_5).
Proof.
  split.
  - apply (translateOffset_outside_active_range replace_2_5 1 false);
      [reflexivity|lia|].
    intros s Hs. vm_compute in Hs. injection Hs as <-. lia.
  - apply (translateOffset_outside_active_range replace_2_5 6 false);
      [reflexivity|lia|].
    intros s Hs. vm_compute in Hs. injection Hs as <-. lia.
Defined.

(** A translated offset is never before the translation of the cursor. *)
Lemma translateOffsetFrom_at_least (ops : list op) :
  forall cursor adjustment offset excludeInsertion,
    retainsNonNegative ops = true ->
    cursor <= offset ->
    cursor + adjustment
    <= translateOffsetFrom ops offset excludeInsertion cursor adjustment.
Proof.
  induction ops as [|o ops IH]; intros c a x e Hnn Hc; simpl; [lia|].
  simpl in Hnn. apply andb_prop in Hnn as [Ho Hnn].
  destruct o as [n|n|r i rm im ido idl|r i|k f t|m b idx];
    try (by apply IH).
  - apply Z.leb_le in Ho.
    destruct ((c <=? x) && (x <? c + n)) eqn:Hin; [lia|].
    apply andb_false_iff in Hin.
    assert (c + n <= x) by (destruct Hin as [H|H]; lia).
    specialize (IH (c + n) a x e Hnn). lia.
  - pose proof (len_nonneg r). pose proof (len_nonneg i).
    destruct (Z.eqb_spec x (c + len r)).
    { destruct (e && (len r <? len i)) eqn:He; [|lia].
      apply andb_prop in He as [_ He]. lia. }
    destruct (Z.eqb_spec x c).
    { destruct (len i =? 0) eqn:Hi; lia. }
    destruct ((c <? x) && (x <? c + len r)) eqn:Hin; [lia|].
    apply andb_false_iff in Hin.
    assert (c + len r <= x) by (destruct Hin as [Hlt|Hlt]; lia).
    specialize (IH (c + len r) (a + (len i - len r)) x e Hnn). lia.
Qed.

(** Excluding the insertion never gives the larger offset. *)
Lemma translateOffsetFrom_excluding (ops : list op) :
  forall cursor adjustment offset,
    translateOffsetFrom ops offset true cursor adjustment
    <= translateOffsetFrom ops offset false cursor adjustment.
Proof.
  induction ops as [|o ops IH]; intros c a x; simpl; [lia|].
  destruct o as [n|n|r i rm im ido idl|r i|k f t|m b idx]; try apply IH.
  - destruct ((c <=? x) && (x <? c + n)); [lia|apply IH].
  - destruct (x =? c + len r).
    { destruct (len r <? len i) eqn:Hlt; simpl; lia. }
    destruct (x =? c); [lia|].
    destruct ((c <? x) && (x <? c + len r)); [lia|apply IH].
Qed.

Lemma translateOffsetFrom_monotone (ops : list op) :
  forall cursor adjustment offset1 offset2,
    retainsNonNegative ops = true ->
    cursor <= offset1 -> offset1 <= offset2 ->
    translateOffsetFrom ops offset1 false cursor adjustment
    <= translateOffsetFrom ops offset2 false cursor adjustment.
Proof.
  induction ops as [|o ops IH]; intros c a x1 x2 Hnn Hc Hle; simpl; [lia|].
  simpl in Hnn. apply andb_prop in Hnn as [Ho Hnn].
  destruct o as [n|n|r i rm im ido idl|r i|k f t|m b idx];
    try (by apply IH).
  - apply Z.leb_le in Ho.
    pose proof (translateOffsetFrom_at_least ops (c + n) a x2 false Hnn)
      as Hlow.
    destruct ((c <=? x1) && (x1 <? c + n)) eqn:Hin1;
      destruct ((c <=? x2) && (x2 <? c + n)) eqn:Hin2;
      rewrite ?andb_true_iff, ?andb_false_iff in *; try lia.
    apply IH; [done|lia|lia].
  - pose proof (len_nonneg r). pose proof (len_nonneg i).
    pose proof (translateOffsetFrom_at_least ops (c + len r)
                  (a + (len i - len r)) x2 false Hnn) as Hlow.
    specialize (IH (c + len r) (a + (len i - len r)) x1 x2 Hnn).
    simpl.
    destruct (Z.eqb_spec x1 (c + len r)); destruct (Z.eqb_spec x2 (c + len r));
      destruct (Z.eqb_spec x1 c); destruct (Z.eqb_spec x2 c);
      destruct (len i =? 0) eqn:Hi;
      destruct ((c <? x1) && (x1 <? c + len r)) eqn:Hin1;
      destruct ((c <? x2) && (x2 <? c + len r)) eqn:Hin2;
      rewrite ?andb_true_iff, ?andb_false_iff in *; lia.
Qed.

(** With the default bias [translateOffset] keeps the order of offsets:
    for a transaction whose retains are not negative, a larger offset is
    never translated before a smaller one.  The translation that excludes
    the insertion is never after the default one. *)
Theorem translateOffset_monotone (t : Transaction) (offset1 offset2 : Z) :
  retainsNonNegative (operations t) = true ->
  0 <= offset1 -> offset1 <= offset2 ->
  translateOffset t offset1 false <= translateOffset t offset2 false
  /\ translateOffset t offset1 true <= translateOffset t offset1 false.
Proof.
  intros Hnn H0 Hle. unfold translateOffset. split.
  - by apply translateOffsetFrom_monotone.
  - apply translateOffsetFrom_excluding.
Qed.

Lemma translateOffset_monotone_witness :
  translateOffset replace_2_5 3 false <= translateOffset replace_2_5 6 false
  /\ translateOffset replace_2_5 3 true <= translateOffset replace_2_5 3 false.
Proof.
  apply (translateOffset_monotone replace_2_5 3 6); [reflexivity|lia|lia].
Defined.

(** ** Range translation *)

(** C7: [translateRange] translates the start of the range with
    [!excludeInsertion] and its end with [excludeInsertion], and constructs
    the result in the direction of the range: from the translated end back
    to the translated start for a backwards range, from the translated
    start to the translated end otherwise.  The ends of the result are the
    lesser and the greater of the two translated offsets; the result has
    the direction of the range whenever the translated start is before the
    translated end; and with the default flag, for a transaction whose
    retains are not negative, the translated start is never after the
    translated end, so that the start of the result is the translated start
    and its end the translated end. *)
Theorem translateRange_asymmetric (t : Transaction) (range : Range)
        (excludeInsertion : bool) :
  let start := translateOffset t (r_start range) (negb excludeInsertion) in
  let end_ := translateOffset t (r_end range) excludeInsertion in
  let translated := translateRange t range excludeInsertion in
  (isBackwards range = true -> translated = mkRange end_ start)
  /\ (isBackwards range = false -> translated = mkRange start end_)
  /\ r_start translated = Z.min start end_
  /\ r_end translated = Z.max start end_
  /\ (start < end_ -> isBackwards translated = isBackwards range)
  /\ (retainsNonNegative (operations t) = true -> 0 <= r_start range ->
      excludeInsertion = false ->
      start <= end_ /\ r_start translated = start /\ r_end translated = end_).
Proof.
  intros start end_ translated.
  assert (r_start range <= r_end range) as Hle by (unfold r_start, r_end; lia).
  assert (r_start translated = Z.min start end_
          /\ r_end translated = Z.max start end_) as [Hs He].
  { unfold translated, translateRange. fold start end_.
    destruct (isBackwards range); unfold r_start, r_end; simpl; lia. }
  split; [|split; [|split; [|split; [|split]]]]; try done.
  - intros Hback. unfold translated, translateRange. by rewrite Hback.
  - intros Hfwd. unfold translated, translateRange. by rewrite Hfwd.
  - intros Hlt. unfold translated, translateRange. fold start end_.
    destruct (isBackwards range); unfold isBackwards; simpl; lia.
  - intros Hnn H0 ->.
    assert (start <= end_) as Hmono.
    { unfold start, end_, translateOffset. simpl.
      pose proof (translateOffsetFrom_excluding (operations t) 0 0
                    (r_start range)).
      pose proof (translateOffsetFrom_monotone (operations t) 0 0 _ _
                    Hnn H0 Hle).
      lia. }
    split; [done|]. rewrite Hs, He. lia.
Qed.

Lemma translateRange_asymmetric_witness :
  translateRange insertion_at_2 (mkRange 4 2) false = mkRange 5 2
  /\ isBackwards (translateRange insertion_at_2 (mkRange 4 2) false)
     = isBackwards (mkRange 4 2)
  /\ translateRange insertion_at_2 (mkRange 2 4) false = mkRange 2 5.
Proof.
  split; [|split].
  - apply (proj1 (translateRange_asymmetric insertion_at_2 (mkRange 4 2)
                    false)).
    reflexivity.
  - apply (proj1 (proj2 (proj2 (proj2 (proj2
             (translateRange_asymmetric insertion_at_2 (mkRange 4 2)
                false)))))).
    vm_compute. reflexivity.
  - apply (proj1 (proj2 (translateRange_asymmetric insertion_at_2
                           (mkRange 2 4) false))).
    reflexivity.
Defined.

(** With [excludeInsertion] the translated start can fall after the
    translated end, and the range that is constructed then runs the other
    way: over a replacement of two items by three the forward range from 1
    to 2 becomes the range from 3 back to 2, and the backwards range from 2
    to 1 the forward range from 2 to 3. *)
Lemma translateRange_excluding_turns :
  translateRange replace_two_by_three (mkRange 1 2) true = mkRange 3 2
  /\ translateRange replace_two_by_three (mkRange 2 1) true = mkRange 2 3.
Proof. split; reflexivity. Qed.

(** [translateRange] of a forward range is a forward range: the start,
    translated with the insertion excluded, is not after the end, so the
    range that is constructed runs forwards. *)
Theorem translateRange_forward (t : Transaction) (range : Range) :
  retainsNonNegative (operations t) = true ->
  0 <= r_from range -> r_from range <= r_to range ->
  r_from (translateRange t range false) <= r_to (translateRange t range false)
  /\ isBackwards (translateRange t range false) = false.
Proof.
  intros Hnn H0 Hle.
  assert (r_start range = r_from range /\ r_end range = r_to range)
    as [Hs He] by (unfold r_start, r_end; lia).
  assert (r_from (translateRange t range false)
          <= r_to (translateRange t range false)) as Hforward.
  { unfold translateRange, isBackwards.
    replace (r_to range <? r_from range) with false by lia. simpl.
    rewrite Hs, He. unfold translateOffset.
    pose proof (translateOffsetFrom_excluding (operations t) 0 0
                  (r_from range)).
    pose proof (translateOffsetFrom_monotone (operations t) 0 0 _ _
                  Hnn H0 Hle).
    lia. }
  split; [done|]. unfold isBackwards. lia.
Qed.

Lemma translateRange_forward_witness :
  r_from (translateRange insertion_at_2 (mkRange 2 4) false)
  <= r_to (translateRange insertion_at_2 (mkRange 2 4) false)
  /\ isBackwards (translateRange insertion_at_2 (mkRange 2 4) false) = false.
Proof.
  apply (translateRange_forward insertion_at_2 (mkRange 2 4));
    [reflexivity|simpl; lia|simpl; lia].
Defined.

(** The translation that excludes the insertion does not keep the order of
    offsets: over a replacement of two items by three, the offset 1 inside
    the removed items goes to 3 and the offset 2 at their end to 2. *)
Lemma translateOffset_excluding_not_monotone :
  translateOffset replace_two_by_three 1 true = 3
  /\ translateOffset replace_two_by_three 2 true = 2.
Proof. split; reflexivity. Qed.

(** ** Reversal and the scans *)

(** Reversal keeps the type of an operation. *)
Lemma reversalRule_type (o : op) : opType (reversalRule o) = opType o.
Proof. by destruct o. Qed.

Lemma existsb_by_type (type : string) (l : list op) :
  existsb (fun o => String.eqb (opType o) type) l
  = existsb (fun ty => String.eqb ty type) (map opType l).
Proof. induction l as [|o l IH]; simpl; [done|by rewrite IH]. Qed.

(** [reversed] keeps the types of the operations in order, so every test
    by type ([hasOperationWithType] and the three tests built on it,
    [isNoOp]) answers for the reversed transaction as for the transaction;
    the reversed transaction has not been applied. *)
Theorem reversed_keeps_types (t : Transaction) (type : string) :
  map opType (operations (reversed t)) = map opType (operations t)
  /\ hasOperationWithType (reversed t) type = hasOperationWithType t type
  /\ isNoOp (reversed t) = isNoOp t
  /\ hasBeenApplied (reversed t) = false.
Proof.
  assert (map opType (operations (reversed t)) = map opType (operations t))
    as Htypes.
  { rewrite reversed_operations, reversed_operations_rule, map_map.
    apply map_ext. intros o. apply reversalRule_type. }
  split; [exact Htypes|]. split; [|split; [|reflexivity]].
  - unfold hasOperationWithType.
    by rewrite !existsb_by_type, Htypes.
  - unfold isNoOp.
    destruct (operations (reversed t)) as [|a [|b [|c l]]];
      destruct (operations t) as [|a' [|b' [|c' l']]];
      simpl in Htypes; try discriminate; try reflexivity.
    + by injection Htypes as ->.
    + by injection Htypes as -> ->.
Qed.

(** The scan of the reversed operations mirrors the scan of the operations:
    opposite length difference, same start. *)
Lemma scan_reversed (ops : list op) :
  forall st st',
    sc_annotations st' = sc_annotations st ->
    sc_diff st' = - sc_diff st ->
    sc_start st' = sc_start st ->
    (sc_start st = None -> sc_offset st' = sc_offset st) ->
    sc_diff (fold_left scanStep (map reversalRule ops) st')
    = - sc_diff (fold_left scanStep ops st)
    /\ sc_start (fold_left scanStep (map reversalRule ops) st')
       = sc_start (fold_left scanStep ops st).
Proof.
  induction ops as [|o ops IH]; intros st st' Hann Hdiff Hstart Hoff; simpl;
    [done|].
  apply IH;
    destruct o as [n|n|r i rm im ido idl|r i|k f t|m b idx]; simpl;
    rewrite ?Hann, ?Hdiff, ?Hstart; try done; try lia;
    destruct (sc_start st) eqn:Hs; try done;
    rewrite ?Hoff by done; try done;
    destruct (0 <? sc_annotations st); simpl; try done;
    intros _; rewrite ?Hoff by done; done.
Qed.

(** The reversed transaction changes the length of the document by the
    opposite amount, and its active range starts where the active range of
    the transaction starts. *)
Theorem reversed_length_diff (t : Transaction) :
  ar_diff (getActiveRangeAndLengthDiff (reversed t))
  = - ar_diff (getActiveRangeAndLengthDiff t)
  /\ ar_start (getActiveRangeAndLengthDiff (reversed t))
     = ar_start (getActiveRangeAndLengthDiff t).
Proof.
  unfold getActiveRangeAndLengthDiff.
  rewrite reversed_operations, reversed_operations_rule. simpl.
  by apply scan_reversed.
Qed.

(** ** Rebase: symmetry, retains and active ranges *)

(** The only error of [adjustRetain] is the negative retain length. *)
Lemma adjustRetain_throws (ops : list op) (place : place_t) (diff : Z)
      (e : error) :
  adjustRetain ops place diff = Throw e -> e = NegativeRetainLength.
Proof.
  unfold adjustRetain. intros H.
  repeat match type of H with
         | context [if ?b then _ else _] => destruct b
         | context [match ?x with _ => _ end] => destruct x
         end; congruence.
Qed.

(** [rebaseTransactions] with its arguments swapped. *)
Lemma rebaseTransactions_swap (A B : Transaction) :
  let infoA := getActiveRangeAndLengthDiff A in
  let infoB := getActiveRangeAndLengthDiff B in
  (rebaseTransactions A B = Ok (None, None)
   <-> rebaseTransactions B A = Ok (None, None))
  /\ (js_le (ar_end infoA) (ar_start infoB)
      && js_le (ar_end infoB) (ar_start infoA) = false ->
      rebaseTransactions B A
      = r ← rebaseTransactions A B; Ok (snd r, fst r)).
Proof.
  cbv zeta. unfold rebaseTransactions.
  rewrite !getActiveRangeAndLengthDiff_clone.
  generalize (getActiveRangeAndLengthDiff A) as infoA.
  generalize (getActiveRangeAndLengthDiff B) as infoB.
  intros infoB infoA.
  unfold clone, ve_copy. simpl.
  rewrite (orb_comm (bool_decide (ar_start infoB = None))).
  pose proof (adjustRetain_throws (operations A) AtStart (ar_diff infoB)).
  pose proof (adjustRetain_throws (operations A) AtEnd (ar_diff infoB)).
  pose proof (adjustRetain_throws (operations B) AtStart (ar_diff infoA)).
  pose proof (adjustRetain_throws (operations B) AtEnd (ar_diff infoA)).
  destruct (bool_decide (ar_start infoA = None)
            || bool_decide (ar_start infoB = None));
    [|destruct (js_le (ar_end infoA) (ar_start infoB));
      destruct (js_le (ar_end infoB) (ar_start infoA))];
    unfold mbind, result_bind; simpl;
    destruct (adjustRetain (operations A) AtStart (ar_diff infoB)) as [?|eAs];
    destruct (adjustRetain (operations A) AtEnd (ar_diff infoB)) as [?|eAe];
    destruct (adjustRetain (operations B) AtStart (ar_diff infoA)) as [?|eBs];
    destruct (adjustRetain (operations B) AtEnd (ar_diff infoA)) as [?|eBe];
    simpl;
    try (rewrite (H eAs) by done); try (rewrite (H0 eAe) by done);
    try (rewrite (H1 eBs) by done); try (rewrite (H2 eBe) by done);
    (split; [split; intros; congruence|intros Htie; simpl in Htie; congruence]).
Qed.

(** [rebaseTransactions] is symmetric in its arguments: it reports a
    conflict for [(A, B)] exactly when it does for [(B, A)], and unless
    both active ranges precede each other (two insertions at one place,
    where the first argument wins) the result for [(B, A)] is the result
    for [(A, B)] with the two transactions swapped, errors included.  So
    [rebasedOnto] does not depend on [startmost] outside that tie. *)
Theorem rebaseTransactions_swapped (A B : Transaction) :
  let infoA := getActiveRangeAndLengthDiff A in
  let infoB := getActiveRangeAndLengthDiff B in
  (rebaseTransactions A B = Ok (None, None)
   <-> rebaseTransactions B A = Ok (None, None))
  /\ (js_le (ar_end infoA) (ar_start infoB)
      && js_le (ar_end infoB) (ar_start infoA) = false ->
      rebaseTransactions B A
      = r ← rebaseTransactions A B; Ok (snd r, fst r))
  /\ (js_le (ar_end infoA) (ar_start infoB)
      && js_le (ar_end infoB) (ar_start infoA) = false ->
      rebasedOnto A B true = rebasedOnto A B false).
Proof.
  intros infoA infoB.
  destruct (rebaseTransactions_swap A B) as [Hconflict Hswap].
  split; [exact Hconflict|]. split; [exact Hswap|].
  intros Htie. unfold rebasedOnto. rewrite (Hswap Htie).
  by destruct (rebaseTransactions A B) as [[a b]|].
Qed.

Lemma rebaseTransactions_swapped_witness :
  rebasedOnto insert_x_at_1 insert_y_at_5 true
  = rebasedOnto insert_x_at_1 insert_y_at_5 false.
Proof.
  apply (proj2 (proj2 (rebaseTransactions_swapped insert_x_at_1 insert_y_at_5))).
  reflexivity.
Defined.

Lemma adjustRetain_zero (ops : list op) (place : place_t) :
  adjustRetain ops place 0 = Ok ops.
Proof. reflexivity. Qed.

(** When the second transaction has no active range, the first one is
    returned as it is (its clone) and the second one has its leading
    retain adjusted. *)
Lemma rebaseTransactions_first_branch (A B : Transaction) :
  ar_start (getActiveRangeAndLengthDiff B) = None ->
  rebaseTransactions A B
  = opsB ← adjustRetain (operations B) AtStart
             (ar_diff (getActiveRangeAndLengthDiff A));
    Ok (Some (newTransaction (operations A)), Some (newTransaction opsB)).
Proof.
  intros HB. unfold rebaseTransactions.
  rewrite !getActiveRangeAndLengthDiff_clone.
  assert (ar_diff (getActiveRangeAndLengthDiff B) = 0) as ->.
  { unfold getActiveRangeAndLengthDiff in *. simpl in *.
    by apply (scan_invariant (operations B) (mkScan None None 0 0 0)). }
  rewrite HB. rewrite (bool_decide_eq_true_2 (None = None)) by done.
  rewrite orb_true_r. by rewrite adjustRetain_zero.
Qed.

(** Rebasing over a transaction [B] that changes nothing leaves [A] as it
    is and adjusts the leading retain of [B] by the length difference of
    [A]; the result never is the conflict [[ null, null ]]. *)
Theorem rebaseTransactions_without_active_range (A B : Transaction) :
  ar_start (getActiveRangeAndLengthDiff B) = None ->
  rebaseTransactions A B
  = opsB ← adjustRetain (operations B) AtStart
             (ar_diff (getActiveRangeAndLengthDiff A));
    Ok (Some (newTransaction (operations A)), Some (newTransaction opsB)).
Proof. apply rebaseTransactions_first_branch. Qed.

Lemma rebaseTransactions_without_active_range_witness :
  rebaseTransactions replace_2_5 (newTransaction [Retain 8])
  = opsB ← adjustRetain [Retain 8] AtStart
             (ar_diff (getActiveRangeAndLengthDiff replace_2_5));
    Ok (Some (newTransaction (operations replace_2_5)),
        Some (newTransaction opsB)).
Proof.
  apply (rebaseTransactions_without_active_range replace_2_5
           (newTransaction [Retain 8])).
  reflexivity.
Defined.

(** Rebasing [A] and the empty transaction: the empty transaction becomes a
    single retain of the length difference of [A] when [A] grows the
    document, stays empty when [A] keeps the length, and
    [rebaseTransactions] throws 'Negative retain length' when [A] shrinks
    the document. *)
Theorem rebaseTransactions_with_empty (A : Transaction) :
  let diff := ar_diff (getActiveRangeAndLengthDiff A) in
  rebaseTransactions A (newTransaction [])
  = if diff <? 0 then Throw NegativeRetainLength
    else Ok (Some (newTransaction (operations A)),
             Some (newTransaction (if diff =? 0 then [] else [Retain diff]))).
Proof.
  intros diff.
  rewrite rebaseTransactions_first_branch by reflexivity.
  fold diff. unfold adjustRetain. simpl.
  destruct (diff =? 0) eqn:H0.
  - replace (diff <? 0) with false by lia. reflexivity.
  - destruct (diff <? 0); reflexivity.
Qed.

Lemma editsOf_app (l k : list op) : editsOf (l ++ k) = editsOf l ++ editsOf k.
Proof. apply List.filter_app. Qed.

Lemma growLeadingRetain_edits (diff : Z) (ops ops' : list op) :
  growLeadingRetain diff ops = Ok ops' -> editsOf ops' = editsOf ops.
Proof.
  unfold growLeadingRetain. intros H.
  destruct (diff =? 0); [congruence|].
  destruct ops as [|[n|n|r i rm im ido idl|r i|k f t|m b idx] rest];
    repeat match type of H with
           | context [if ?b then _ else _] => destruct b
           end; try discriminate; by injection H as <-.
Qed.

Lemma growTrailingRetain_edits (diff : Z) (ops ops' : list op) :
  growTrailingRetain diff ops = Ok ops' -> editsOf ops' = editsOf ops.
Proof.
  unfold growTrailingRetain. intros H.
  destruct (diff =? 0); [congruence|].
  remember (rev ops) as rops eqn:Hrev.
  assert (ops = rev rops) as Hops by (subst rops; by rewrite rev_involutive).
  clear Hrev. subst ops.
  assert (forall l, (if diff <? 0 then Throw NegativeRetainLength
                else Ok (rev l ++ [Retain diff])) = Ok ops' ->
               editsOf ops' = editsOf (rev l)) as Hdefault.
  { intros l Hl. destruct (diff <? 0); [discriminate|]. injection Hl as <-.
    rewrite editsOf_app. simpl. by rewrite app_nil_r. }
  destruct rops as [|[n|n|r i rm im ido idl|r i|k f t|m b idx] before];
    try (by apply Hdefault).
  - simpl.
    destruct (n + diff <? 0); [discriminate|].
    destruct (n + diff =? 0); injection H as <-;
      rewrite ?editsOf_app; simpl; by rewrite ?app_nil_r.
  - destruct before as [|[n'|n'|r i rm im ido idl|r i|k f t|m b idx] before];
      try (by apply Hdefault).
    simpl.
    destruct (n' + diff <? 0); [discriminate|].
    destruct (n' + diff =? 0); injection H as <-;
      rewrite <- ?app_assoc, ?editsOf_app; simpl; done.
Qed.

(** [adjustRetain] touches retains only. *)
Lemma adjustRetain_edits (ops ops' : list op) (place : place_t) (diff : Z) :
  adjustRetain ops place diff = Ok ops' -> editsOf ops' = editsOf ops.
Proof.
  destruct place.
  - rewrite adjustRetain_start. apply growLeadingRetain_edits.
  - rewrite adjustRetain_end. apply growTrailingRetain_edits.
Qed.

Lemma scan_diff_edits (ops : list op) :
  forall st st',
    sc_diff st = sc_diff st' ->
    sc_diff (fold_left scanStep ops st)
    = sc_diff (fold_left scanStep (editsOf ops) st').
Proof.
  induction ops as [|o ops IH]; intros st st' Hd; simpl; [done|].
  destruct o as [n|n|r i rm im ido idl|r i|k f t|m b idx]; simpl;
    apply IH; simpl; congruence.
Qed.

(** The length difference of a transaction is that of its operations
    other than retains. *)
Lemma diff_by_edits (t t' : Transaction) :
  editsOf (operations t') = editsOf (operations t) ->
  ar_diff (getActiveRangeAndLengthDiff t')
  = ar_diff (getActiveRangeAndLengthDiff t).
Proof.
  intros H. unfold getActiveRangeAndLengthDiff. simpl.
  rewrite (scan_diff_edits (operations t') _ (mkScan None None 0 0 0)) by done.
  rewrite (scan_diff_edits (operations t) _ (mkScan None None 0 0 0)) by done.
  by rewrite H.
Qed.

(** A rebase that succeeds changes retains only: each returned transaction
    has the operations other than [retain] of its original, in the same
    order and unchanged, the same length difference, and has not been
    applied. *)
Theorem rebaseTransactions_keeps_edits (A B A' B' : Transaction) :
  rebaseTransactions A B = Ok (Some A', Some B') ->
  editsOf (operations A') = editsOf (operations A)
  /\ editsOf (operations B') = editsOf (operations B)
  /\ ar_diff (getActiveRangeAndLengthDiff A')
     = ar_diff (getActiveRangeAndLengthDiff A)
  /\ ar_diff (getActiveRangeAndLengthDiff B')
     = ar_diff (getActiveRangeAndLengthDiff B)
  /\ hasBeenApplied A' = false /\ hasBeenApplied B' = false.
Proof.
  intros H.
  assert (editsOf (operations A') = editsOf (operations A)
          /\ editsOf (operations B') = editsOf (operations B)
          /\ applied A' = false /\ applied B' = false) as (HA & HB & HaA & HaB).
  { unfold rebaseTransactions in H.
    unfold clone, ve_copy in H. simpl in H.
    repeat match type of H with
           | context [if ?b then _ else _] => destruct b
           end;
      unfold mbind, result_bind in H;
      repeat match type of H with
             | context [adjustRetain ?o ?p ?d] =>
                 let E := fresh "E" in
                 destruct (adjustRetain o p d) eqn:E; try discriminate;
                 apply adjustRetain_edits in E
             end;
      try discriminate; injection H as <- <-; simpl; done. }
  repeat split; try done; by apply diff_by_edits.
Qed.

Lemma rebaseTransactions_keeps_edits_witness :
  editsOf [Retain 1; Replace [] [item_x] None None None None; Retain 6]
  = editsOf (operations insert_x_at_1).
Proof.
  apply (rebaseTransactions_keeps_edits insert_x_at_1 insert_y_at_5
           (newTransaction
              [Retain 1; Replace [] [item_x] None None None None; Retain 6])
           (newTransaction
              [Retain 6; Replace [] [item_y] None None None None; Retain 1])).
  reflexivity.
Defined.

Lemma fmap_add_add (a b : Z) (x : option Z) :
  Z.add a <$> (Z.add b <$> x) = Z.add (a + b) <$> x.
Proof. destruct x; simpl; [f_equal; lia|done]. Qed.

Lemma fmap_add_zero (x : option Z) : Z.add 0 <$> x = x.
Proof. by destruct x. Qed.

Lemma shiftScan_shiftScan (a b : Z) (st : Scan) :
  shiftScan a (shiftScan b st) = shiftScan (a + b) st.
Proof.
  unfold shiftScan. simpl. rewrite !fmap_add_add. f_equal. lia.
Qed.

Lemma shiftScan_zero (st : Scan) : shiftScan 0 st = st.
Proof. destruct st. unfold shiftScan. simpl. by rewrite !fmap_add_zero. Qed.

(** The scan commutes with moving every position of the scan state. *)
Lemma scanStep_shift (d : Z) (st : Scan) (o : op) :
  scanStep (shiftScan d st) o = shiftScan d (scanStep st o).
Proof.
  destruct st as [s e off ann df].
  destruct o as [n|n|r i rm im ido idl|r i|k f t|m b idx];
    unfold shiftScan; simpl; try done;
    destruct s; destruct (0 <? ann); simpl;
    f_equal; try done; try lia; f_equal; lia.
Qed.

Lemma scan_shift (d : Z) (ops : list op) :
  forall st,
    fold_left scanStep ops (shiftScan d st)
    = shiftScan d (fold_left scanStep ops st).
Proof.
  induction ops as [|o ops IH]; intros st; simpl; [done|].
  by rewrite scanStep_shift, IH.
Qed.

Lemma scan_from_offset (n : Z) (ops : list op) :
  fold_left scanStep ops (mkScan None None n 0 0)
  = shiftScan n (fold_left scanStep ops (mkScan None None 0 0 0)).
Proof.
  rewrite <- scan_shift. f_equal. unfold shiftScan. simpl. f_equal. lia.
Qed.

Lemma activeRange_of_shifted (d : Z) (st : Scan) :
  mkActiveRange (sc_start (shiftScan d st)) (sc_end (shiftScan d st))
                (sc_diff (shiftScan d st))
  = shiftActiveRange d (mkActiveRange (sc_start st) (sc_end st) (sc_diff st)).
Proof. reflexivity. Qed.

Lemma scan_leading_retain (n : Z) (rest : list op) :
  fold_left scanStep (Retain n :: rest) (mkScan None None 0 0 0)
  = shiftScan n (fold_left scanStep rest (mkScan None None 0 0 0)).
Proof.
  simpl. replace (0 + n) with n by lia. apply scan_from_offset.
Qed.

Lemma growLeadingRetain_scan (diff : Z) (ops ops' : list op) :
  growLeadingRetain diff ops = Ok ops' ->
  fold_left scanStep ops' (mkScan None None 0 0 0)
  = shiftScan diff (fold_left scanStep ops (mkScan None None 0 0 0)).
Proof.
  unfold growLeadingRetain. intros H.
  destruct (Z.eqb_spec diff 0) as [->|Hd].
  { injection H as <-. by rewrite shiftScan_zero. }
  assert ((if diff <? 0 then Throw NegativeRetainLength
           else Ok (Retain diff :: ops)) = Ok ops' ->
          fold_left scanStep ops' (mkScan None None 0 0 0)
          = shiftScan diff (fold_left scanStep ops (mkScan None None 0 0 0)))
    as Hdefault.
  { intros Hl. destruct (diff <? 0); [discriminate|]. injection Hl as <-.
    apply scan_leading_retain. }
  destruct ops as [|[n|n|r i rm im ido idl|r i|k f t|m b idx] rest];
    try (by apply Hdefault).
  rewrite (scan_leading_retain n), shiftScan_shiftScan.
  destruct (n + diff <? 0); [discriminate|].
  destruct (Z.eqb_spec (n + diff) 0) as [H0|H0]; injection H as <-.
  - replace (diff + n) with 0 by lia. by rewrite shiftScan_zero.
  - rewrite scan_leading_retain. f_equal. lia.
Qed.

(** Growing the leading retain moves the active range and keeps the length
    difference. *)
Lemma growLeadingRetain_shift (diff : Z) (ops ops' : list op) :
  growLeadingRetain diff ops = Ok ops' ->
  getActiveRangeAndLengthDiff (newTransaction ops')
  = shiftActiveRange diff (getActiveRangeAndLengthDiff (newTransaction ops)).
Proof.
  intros H. unfold getActiveRangeAndLengthDiff.
  cbn [operations newTransaction].
  by rewrite (growLeadingRetain_scan diff ops ops' H).
Qed.

Lemma scan_annotations_kept (ops : list op) :
  forall st,
    existsb (fun o => String.eqb (opType o) "annotate") ops = false ->
    sc_annotations (fold_left scanStep ops st) = sc_annotations st.
Proof.
  induction ops as [|o ops IH]; intros st Hno; simpl; [done|].
  simpl in Hno. apply orb_false_elim in Hno as [Ho Hno].
  rewrite IH by done.
  by destruct o.
Qed.

(** Retains after the last annotated span change neither the active range
    nor the length difference. *)
Lemma scan_retaining_tail (tail : list op) :
  forall st,
    sc_annotations st <= 0 ->
    forallb isRetaining tail = true ->
    let st' := fold_left scanStep tail st in
    sc_start st' = sc_start st /\ sc_end st' = sc_end st
    /\ sc_diff st' = sc_diff st.
Proof.
  induction tail as [|o tail IH]; intros st Hann Hall; simpl; [done|].
  simpl in Hall. apply andb_prop in Hall as [Ho Hall].
  specialize (IH (scanStep st o)).
  destruct o as [n|n|r i rm im ido idl|r i|k f t|m b idx]; try discriminate;
    simpl in *;
    replace (0 <? sc_annotations st) with false in * by lia; simpl in *;
    destruct IH as (H1 & H2 & H3); try done;
    rewrite H1, H2, H3; by destruct (sc_start st).
Qed.

Lemma scan_same_head (pre tail tail' : list op) (st : Scan) :
  existsb (fun o => String.eqb (opType o) "annotate") pre = false ->
  sc_annotations st <= 0 ->
  forallb isRetaining tail = true -> forallb isRetaining tail' = true ->
  let a := fold_left scanStep (pre ++ tail) st in
  let b := fold_left scanStep (pre ++ tail') st in
  sc_start a = sc_start b /\ sc_end a = sc_end b /\ sc_diff a = sc_diff b.
Proof.
  intros Hpre Hann Ht Ht'. simpl. rewrite !fold_left_app.
  pose proof (scan_annotations_kept pre st Hpre) as Hk.
  destruct (scan_retaining_tail tail (fold_left scanStep pre st))
    as (H1 & H2 & H3); [lia|done|].
  destruct (scan_retaining_tail tail' (fold_left scanStep pre st))
    as (H1' & H2' & H3'); [lia|done|].
  simpl in *. by rewrite H1, H2, H3, H1', H2', H3'.
Qed.

(** Growing the trailing retain of operations without annotation leaves the
    active range and the length difference. *)
Lemma growTrailingRetain_scan (diff : Z) (ops ops' : list op) :
  growTrailingRetain diff ops = Ok ops' ->
  existsb (fun o => String.eqb (opType o) "annotate") ops = false ->
  getActiveRangeAndLengthDiff (newTransaction ops')
  = getActiveRangeAndLengthDiff (newTransaction ops).
Proof.
  intros H Hno.
  assert (exists pre tail tail',
             ops = pre ++ tail /\ ops' = pre ++ tail'
             /\ forallb isRetaining tail = true
             /\ forallb isRetaining tail' = true) as
      (pre & tail & tail' & -> & -> & Ht & Ht').
  { unfold growTrailingRetain in H.
    destruct (diff =? 0).
    { injection H as <-. exists ops, [], []. by rewrite app_nil_r. }
    remember (rev ops) as rops eqn:Hrev.
    assert (ops = rev rops) as Hops by (subst rops; by rewrite rev_involutive).
    clear Hrev. subst ops.
    assert (forall l, (if diff <? 0 then Throw NegativeRetainLength
                  else Ok (rev l ++ [Retain diff])) = Ok ops' ->
                 exists pre tail tail',
                   rev l = pre ++ tail /\ ops' = pre ++ tail'
                   /\ forallb isRetaining tail = true
                   /\ forallb isRetaining tail' = true) as Hdefault.
    { intros l Hl. destruct (diff <? 0); [discriminate|]. injection Hl as <-.
      exists (rev l), [], [Retain diff]. by rewrite app_nil_r. }
    destruct rops as [|[n|n|r i rm im ido idl|r i|k f t|m b idx] before];
      try (by apply Hdefault).
    - destruct (n + diff <? 0); [discriminate|].
      destruct (n + diff =? 0); injection H as <-.
      + exists (rev before), [Retain n], []. by rewrite app_nil_r.
      + by exists (rev before), [Retain n], [Retain (n + diff)].
    - destruct before as [|[n'|n'|r i rm im ido idl|r i|k f t|m b idx] before];
        try (by apply Hdefault).
      destruct (n' + diff <? 0); [discriminate|].
      destruct (n' + diff =? 0); injection H as <-.
      + exists (rev before), [Retain n'; RetainMetadata n], [RetainMetadata n].
        simpl. by rewrite <- app_assoc.
      + exists (rev before), [Retain n'; RetainMetadata n],
          [Retain (n' + diff); RetainMetadata n].
        simpl. by rewrite <- app_assoc. }
  rewrite existsb_app in Hno. apply orb_false_elim in Hno as [Hpre _].
  unfold getActiveRangeAndLengthDiff. cbn [operations newTransaction].
  destruct (scan_same_head pre tail' tail (mkScan None None 0 0 0))
    as (H1 & H2 & H3); simpl; try done.
  by rewrite H1, H2, H3.
Qed.

(** An active range with an end has a start. *)
Lemma scan_end_has_start (ops : list op) :
  forall st,
    (sc_end st <> None -> sc_start st <> None) ->
    sc_end (fold_left scanStep ops st) <> None ->
    sc_start (fold_left scanStep ops st) <> None.
Proof.
  induction ops as [|o ops IH]; intros st Hst; simpl; [done|].
  apply IH.
  destruct o as [n|n|r i rm im ido idl|r i|k f t|m b idx]; simpl; try done;
    destruct (sc_start st); try done;
    destruct (0 <? sc_annotations st); simpl; try done.
Qed.

(** When the active range of [A] ends at or before the start of the active
    range of [B], the rebased [B] has the active range of [B] moved by the
    length difference of [A], with the same length difference; the rebased
    [A] has the active range and length difference of [A], provided [A]
    holds no annotate operations. *)
Theorem rebaseTransactions_shifts_active_range (A B A' B' : Transaction) :
  let infoA := getActiveRangeAndLengthDiff A in
  let infoB := getActiveRangeAndLengthDiff B in
  js_le (ar_end infoA) (ar_start infoB) = true ->
  rebaseTransactions A B = Ok (Some A', Some B') ->
  getActiveRangeAndLengthDiff B' = shiftActiveRange (ar_diff infoA) infoB
  /\ (hasAnnotationOperations A = false ->
      getActiveRangeAndLengthDiff A' = infoA).
Proof.
  intros infoA infoB Hle Hrun.
  unfold rebaseTransactions in Hrun.
  rewrite !getActiveRangeAndLengthDiff_clone in Hrun.
  fold infoA infoB in Hrun. rewrite Hle in Hrun.
  assert (ar_start infoA <> None /\ ar_start infoB <> None) as [HsA HsB].
  { unfold js_le in Hle.
    destruct (ar_end infoA) eqn:He; [|discriminate].
    destruct (ar_start infoB) eqn:Hs; [|discriminate]. split; [|done].
    apply (scan_end_has_start (operations A) (mkScan None None 0 0 0));
      [done|].
    unfold infoA, getActiveRangeAndLengthDiff in He. simpl in He.
    by rewrite He. }
  rewrite (bool_decide_eq_false_2 _ HsA), (bool_decide_eq_false_2 _ HsB)
    in Hrun.
  cbn [orb] in Hrun. unfold clone, ve_copy in Hrun.
  cbn [operations applied newTransaction] in Hrun.
  rewrite adjustRetain_start, adjustRetain_end in Hrun.
  unfold mbind, result_bind in Hrun.
  destruct (growLeadingRetain (ar_diff infoA) (operations B)) as [opsB|]
    eqn:HB; [|discriminate].
  destruct (growTrailingRetain (ar_diff infoB) (operations A)) as [opsA|]
    eqn:HA; [|discriminate].
  injection Hrun as <- <-. split.
  - apply (growLeadingRetain_shift _ _ _ HB).
  - intros Hno. apply (growTrailingRetain_scan _ _ _ HA Hno).
Qed.

Lemma rebaseTransactions_shifts_active_range_witness :
  getActiveRangeAndLengthDiff
    (newTransaction
       [Retain 6; Replace [] [item_y] None None None None; Retain 1])
  = shiftActiveRange (ar_diff (getActiveRangeAndLengthDiff insert_x_at_1))
                     (getActiveRangeAndLengthDiff insert_y_at_5)
  /\ (hasAnnotationOperations insert_x_at_1 = false ->
      getActiveRangeAndLengthDiff
        (newTransaction
           [Retain 1; Replace [] [item_x] None None None None; Retain 6])
      = getActiveRangeAndLengthDiff insert_x_at_1).
Proof.
  apply (rebaseTransactions_shifts_active_range insert_x_at_1 insert_y_at_5);
    reflexivity.
Defined.

(** ** The modified range *)

(** Retains set no marker of the modified range. *)
Lemma modifiedFrom_retaining (docEnd : Z) (ops : list op) :
  forall st,
    forallb isRetaining ops = true ->
    md_start (modifiedFrom docEnd ops st) = md_start st
    /\ md_end (modifiedFrom docEnd ops st) = md_end st.
Proof.
  induction ops as [|o ops IH]; intros st Hall; simpl; [done|].
  simpl in Hall. apply andb_prop in Hall as [Ho Hall].
  destruct o as [n|n|r i rm im ido idl|r i|k f t|m b idx]; try discriminate.
  - destruct (docEnd <? md_oldOffset st + n); [done|].
    by destruct (IH (mkModified (md_start st) (md_end st)
                                (md_oldOffset st + n) (md_offset st + n))).
  - by apply IH.
Qed.

(** A transaction of retains only has no modified range. *)
Theorem getModifiedRange_of_retains (t : Transaction) (doc : Document) :
  forallb isRetaining (operations t) = true ->
  getModifiedRange t doc = None.
Proof.
  intros Hall. unfold getModifiedRange.
  destruct (modifiedFrom_retaining (internalListOuterStart doc) (operations t)
              (mkModified None None 0 0) Hall) as [-> _].
  reflexivity.
Qed.

Lemma getModifiedRange_of_retains_witness :
  getModifiedRange (newTransaction [Retain 7; RetainMetadata 1]) doc_paragraph
  = None.
Proof.
  apply (getModifiedRange_of_retains
           (newTransaction [Retain 7; RetainMetadata 1]) doc_paragraph).
  reflexivity.
Defined.

(** Until the loop is left, [oldOffset] is the source length of the
    operations gone through. *)
Lemma modifiedFrom_app (docEnd : Z) (pre : list op) :
  forall st rest,
    modifiedFrom docEnd (pre ++ rest) st = modifiedFrom docEnd pre st
    \/ (modifiedFrom docEnd (pre ++ rest) st
        = modifiedFrom docEnd rest (modifiedFrom docEnd pre st)
        /\ md_oldOffset (modifiedFrom docEnd pre st)
           = md_oldOffset st + sourceLength pre).
Proof.
  induction pre as [|o pre IH]; intros st rest; simpl.
  - right. split; [done|lia].
  - destruct o as [n|n|r i rm im ido idl|r i|k f t|m b idx]; simpl.
    + destruct (docEnd <? md_oldOffset st + n); [by left|].
      destruct (IH (mkModified (md_start st) (md_end st)
                               (md_oldOffset st + n) (md_offset st + n))
                   rest) as [H|[H1 H2]]; [by left|right].
      split; [done|]. rewrite H2. simpl. lia.
    + apply IH.
    + match goal with
      | |- context [modifiedFrom docEnd (pre ++ rest) ?s] =>
          destruct (IH s rest) as [H|[H1 H2]]; [by left|right]
      end.
      split; [done|]. rewrite H2. simpl. lia.
    + match goal with
      | |- context [modifiedFrom docEnd (pre ++ rest) ?s] =>
          destruct (IH s rest) as [H|[H1 H2]]; [by left|right]
      end.
      split; [done|]. rewrite H2. simpl. lia.
    + match goal with
      | |- context [modifiedFrom docEnd (pre ++ rest) ?s] =>
          destruct (IH s rest) as [H|[H1 H2]]; [by left|right]
      end.
      split; [done|]. rewrite H2. simpl. lia.
    + match goal with
      | |- context [modifiedFrom docEnd (pre ++ rest) ?s] =>
          destruct (IH s rest) as [H|[H1 H2]]; [by left|right]
      end.
      split; [done|]. rewrite H2. simpl. lia.
Qed.

(** Changes within the internal list are ignored: once a retain reaches
    beyond the start of the internal list, that retain and every operation
    after it do not count for the modified range. *)
Theorem getModifiedRange_ignores_internal_list
        (doc : Document) (pre post : list op) (length : Z) :
  internalListOuterStart doc < sourceLength pre + length ->
  getModifiedRange (newTransaction (pre ++ Retain length :: post)) doc
  = getModifiedRange (newTransaction pre) doc.
Proof.
  intros Hcross. unfold getModifiedRange. cbn [operations newTransaction].
  destruct (modifiedFrom_app (internalListOuterStart doc) pre
              (mkModified None None 0 0) (Retain length :: post))
    as [->|[-> Hold]]; [done|].
  simpl. simpl in Hold. rewrite Hold.
  by replace (internalListOuterStart doc <? 0 + sourceLength pre + length)
    with true by lia.
Qed.

Lemma getModifiedRange_ignores_internal_list_witness :
  getModifiedRange
    (newTransaction
       ([Retain 2; Replace [] [item_x] None None None None]
          ++ Retain 5 :: [Replace [] [item_y] None None None None]))
    doc_paragraph
  = getModifiedRange
      (newTransaction [Retain 2; Replace [] [item_x] None None None None])
      doc_paragraph.
Proof.
  apply (getModifiedRange_ignores_internal_list doc_paragraph
           [Retain 2; Replace [] [item_x] None None None None]
           [Replace [] [item_y] None None None None] 5).
  vm_compute. reflexivity.
Defined.

(** Operations whose retains are not negative apply to a document of a
    length that is not negative. *)
Lemma sourceLength_nonneg (ops : list op) :
  retainsNonNegative ops = true -> 0 <= sourceLength ops.
Proof.
  induction ops as [|o ops IH]; intros Hnn; simpl; [lia|].
  simpl in Hnn. apply andb_prop in Hnn as [Ho Hnn]. specialize (IH Hnn).
  destruct o as [n|n|r i rm im ido idl|r i|k f t|m b idx]; try done.
  - lia.
  - pose proof (len_nonneg r). lia.
Qed.

(** The loop of [getModifiedRange] and the scan of
    [getActiveRangeAndLengthDiff] go together: same start, and the end of
    the one is the end of the other moved by the length difference. *)
Lemma modifiedFrom_scan (docEnd : Z) (ops : list op) :
  forall md sc,
    forallb isContentOperation ops = true ->
    forallb unmarked ops = true ->
    retainsNonNegative ops = true ->
    md_oldOffset md + sourceLength ops <= docEnd ->
    sc_annotations sc = 0 ->
    (sc_start sc = None -> sc_diff sc = 0) ->
    md_oldOffset md = sc_offset sc ->
    md_offset md = sc_offset sc + sc_diff sc ->
    md_start md = sc_start sc ->
    md_end md = (fun e => e + sc_diff sc) <$> sc_end sc ->
    let md' := modifiedFrom docEnd ops md in
    let sc' := fold_left scanStep ops sc in
    md_start md' = sc_start sc'
    /\ md_end md' = (fun e => e + sc_diff sc') <$> sc_end sc'.
Proof.
  induction ops as [|o ops IH];
    intros md sc Hcontent Hunmarked Hnn Hfit Hann Hnone Hold Hoff Hstart Hend;
    simpl; [done|].
  simpl in Hcontent, Hunmarked, Hnn, Hfit.
  apply andb_prop in Hcontent as [Hc Hcontent].
  apply andb_prop in Hunmarked as [Hu Hunmarked].
  apply andb_prop in Hnn as [Ho Hnn].
  pose proof (sourceLength_nonneg ops Hnn) as Hrest.
  destruct o as [n|n|r i rm im ido idl|r i|k f t|m b idx]; try discriminate.
  - apply Z.leb_le in Ho.
    replace (docEnd <? md_oldOffset md + n) with false by lia.
    apply IH; simpl; rewrite ?Hann; simpl; try done; try lia;
      try (rewrite Hstart; by destruct (sc_start sc));
      destruct (sc_start sc); done.
  - apply IH; simpl; rewrite ?Hann; simpl; try done; try lia;
      try (rewrite Hstart; by destruct (sc_start sc));
      destruct (sc_start sc); done.
  - destruct ido; [discriminate|]. destruct idl; [discriminate|].
    pose proof (len_nonneg r).
    apply IH; simpl; rewrite ?orb_true_r; simpl; try done; try lia.
    + by destruct (sc_start sc).
    + rewrite Hstart. destruct (sc_start sc); [done|].
      f_equal. rewrite Hoff, Hnone by done. lia.
    + f_equal. lia.
Qed.

(** For a transaction of retains and replaces without inserted-data marks
    that stays before the internal list, the modified range is the active
    range of [getActiveRangeAndLengthDiff] with its end moved by the length
    difference: the first is in the coordinates of the new document, the
    second in those of the old one.  It is [null] exactly when there is no
    active range. *)
Theorem getModifiedRange_is_active_range (t : Transaction) (doc : Document) :
  let info := getActiveRangeAndLengthDiff t in
  forallb isContentOperation (operations t) = true ->
  forallb unmarked (operations t) = true ->
  retainsNonNegative (operations t) = true ->
  sourceLength (operations t) <= internalListOuterStart doc ->
  getModifiedRange t doc
  = match ar_start info, ar_end info with
    | Some s, Some e => Some (mkRange s (e + ar_diff info))
    | _, _ => None
    end.
Proof.
  intros info Hcontent Hunmarked Hnn Hfit.
  unfold getModifiedRange, info, getActiveRangeAndLengthDiff. simpl.
  destruct (modifiedFrom_scan (internalListOuterStart doc) (operations t)
              (mkModified None None 0 0) (mkScan None None 0 0 0))
    as [-> ->]; simpl; try done.
  destruct (sc_start _); [|done]. by destruct (sc_end _).
Qed.

Lemma getModifiedRange_is_active_range_witness :
  getModifiedRange replace_2_5 (plainDocument [] [] 8)
  = Some (mkRange 2 (5 + -2)).
Proof.
  apply (getModifiedRange_is_active_range replace_2_5 (plainDocument [] [] 8));
    reflexivity || (vm_compute; congruence).
Defined.

(** ** The final retain *)

(** [pushFinalRetain] from an offset inside the data, after an operation
    that is no retain. *)
Lemma pushFinalRetain_appends (doc : Document) (ops : list op) (offset : Z) :
  offset < len (data doc) ->
  (forall n, last ops <> Some (Retain n)) ->
  pushFinalRetain doc ops offset None
  = Ok (ops ++ Retain (len (data doc) - offset) :: finalRetainMetadata doc).
Proof.
  intros Hoff Hlast. unfold pushFinalRetain, finalRetainMetadata.
  replace (offset <? len (data doc)) with true by lia.
  unfold pushRetain.
  replace (len (data doc) - offset <? 0) with false by lia.
  replace (len (data doc) - offset =? 0) with false by lia.
  assert (match last ops with
          | Some (Retain n) =>
              Ok (removelast ops ++ [Retain (n + (len (data doc) - offset))])
          | _ => Ok (ops ++ [Retain (len (data doc) - offset)])
          end = Ok (ops ++ [Retain (len (data doc) - offset)])) as ->.
  { destruct (last ops) as [[]|] eqn:Hl; try done. by destruct (Hlast length). }
  run.
  destruct (metadataAt doc (len (data doc))) as [final|]; [|done].
  destruct (0 <? len final) eqn:Hfinal; [|done].
  unfold pushRetainMetadata.
  replace (len final - 0 <? 0) with false by lia.
  replace (len final - 0 =? 0) with false by lia.
  rewrite last_snoc, Z.sub_0_r. by rewrite <- app_assoc.
Qed.

(** ** Wrapping *)

(** The loop of [closingArray] after [done] openings have been closed. *)
Lemma closingArrayFrom_spec (openings : list item) :
  forall (todo done : list item) (closings : list item),
    openings = rev todo ++ done ->
    closingArrayFrom openings (length todo) (len done) closings
    = Returned (closings ++ map closingOf todo).
Proof.
  induction todo as [|x todo IH]; intros done closings Hsplit; simpl.
  - by rewrite app_nil_r.
  - simpl in Hsplit. rewrite <- app_assoc in Hsplit. simpl in Hsplit.
    assert (at_index openings (len openings - len done - 1) = Some x) as ->.
    { subst openings. unfold at_index.
      replace (len (rev todo ++ x :: done) - len done - 1)
        with (Z.of_nat (length (rev todo)))
        by (unfold len; rewrite length_app; simpl; lia).
      rewrite (proj2 (Z.ltb_ge _ _)) by lia.
      rewrite Nat2Z.id. by apply list_lookup_middle. }
    specialize (IH (x :: done) (closings ++ [closingOf x]) Hsplit).
    replace (len done + 1) with (len (x :: done)) by (unfold len; simpl; lia).
    unfold closingOf in *. rewrite IH. by rewrite <- app_assoc.
Qed.

(** [closingArray] never throws: it returns the closing elements of the
    openings in reverse order, without their attributes.  So the closings
    of a concatenation are the closings of the second part followed by
    those of the first. *)
Theorem closingArray_reverses (openings : list item) :
  closingArray openings = Returned (map closingOf (rev openings))
  /\ forall more,
      closingArray (openings ++ more)
      = more' ← closingArray more; closings ← closingArray openings;
        Returned (more' ++ closings).
Proof.
  assert (forall l, closingArray l = Returned (map closingOf (rev l))) as Hspec.
  { intros l. unfold closingArray.
    rewrite <- (length_rev l).
    apply (closingArrayFrom_spec l (rev l) [] []).
    by rewrite rev_involutive, app_nil_r. }
  split; [apply Hspec|].
  intros more. rewrite !Hspec. simpl. by rewrite rev_app_distr, map_app.
Qed.

(** A [replace] that inserts, pushed after a retain or onto an empty list,
    is appended as it is. *)
Lemma pushReplace_fresh (merge : list cell -> list cell) (doc : Document)
      (ops : list op) (offset removeLength : Z) (insert : list item)
      (insertedDataOffset insertedDataLength : option Z) :
  insert <> [] ->
  (forall o, last ops = Some o -> isRetaining o = true) ->
  exists rm im,
    pushReplace merge doc ops offset removeLength insert None
                insertedDataOffset insertedDataLength
    = Ok (ops ++ [Replace (getData doc (mkRange offset (offset + removeLength)))
                          insert rm im
                          (match insertedDataOffset, insertedDataLength with
                           | Some o, Some _ => Some o
                           | _, _ => None
                           end)
                          (match insertedDataOffset, insertedDataLength with
                           | Some _, Some l => Some l
                           | _, _ => None
                           end)])
    /\ (removeLength = 0 -> rm = None /\ im = None).
Proof.
  intros Hins Hlast.
  assert (0 < len insert) as Hpos.
  { destruct insert; [done|]. unfold len. simpl. lia. }
  assert ((len insert =? 0) = false) as Hlen by lia.
  set (range := mkRange offset (offset + removeLength)).
  assert (exists plan,
             planMetadata merge (getMetadata doc range) insert None = Ok plan
             /\ plan_extraMetadata plan = None
             /\ (removeLength = 0 -> plan_insertMetadata plan = None))
    as (plan & Hplan & Hextra & Hzero).
  { unfold planMetadata. rewrite Hlen.
    destruct (compareEmpty (getMetadata doc range)) eqn:Hempty; simpl.
    - by eexists.
    - unfold newArray.
      rewrite (proj2 (Z.ltb_ge _ _)) by lia.
      simpl. eexists. repeat split. intros ->.
      unfold range, getMetadata, slice_range in Hempty. simpl in Hempty.
      replace (offset + 0) with offset in Hempty by lia.
      by rewrite Nat.sub_diag in Hempty. }
  exists (match plan_insertMetadata plan with
     | Some _ => Some (getMetadata doc range) | None => None end),
    (plan_insertMetadata plan).
  split.
  - unfold pushReplace, pushReplaceOutcome.
    rewrite last_is_head_of_rev in Hlast.
    rewrite <- (rev_involutive ops) at 2.
    destruct (rev ops) as [|lastOp before]; cbn [pushReplaceFromEnd];
      rewrite Hlen, andb_false_r; fold range; rewrite Hplan;
      [|specialize (Hlast lastOp eq_refl);
        destruct lastOp; try discriminate; simpl];
      unfold pushPlanned, pushReplaceInternal;
      rewrite Hextra, Hlen, andb_false_r;
      destruct (plan_insertMetadata plan);
      destruct insertedDataOffset, insertedDataLength; reflexivity.
  - intros H0. by rewrite (Hzero H0).
Qed.

(** [closingArray] returns the closings in reverse order. *)
Lemma closingArray_returns (openings : list item) :
  closingArray openings = Returned (map closingOf (rev openings)).
Proof.
  unfold closingArray. rewrite <- (length_rev openings).
  apply (closingArrayFrom_spec openings (rev openings) [] []).
  by rewrite rev_involutive, app_nil_r.
Qed.

Ltac attempt_run := unfold mbind, attempt_bind; cbn [attemptOf].

(** [newFromWrap] throws when [unwrapOuter] is longer than the data before
    the range. *)
Theorem newFromWrap_unwrapOuter_too_long
        (merge : list cell -> list cell) (doc : Document) (range : Range)
        (unwrapOuter wrapOuter unwrapEach wrapEach : list item) :
  r_start range < len unwrapOuter ->
  newFromWrap merge doc range unwrapOuter wrapOuter unwrapEach wrapEach
  = Raised "unwrapOuter is longer than the data preceding the range".
Proof.
  intros Hshort. unfold newFromWrap.
  rewrite !closingArray_returns. attempt_run.
  replace (len unwrapOuter <? r_start range) with false by lia.
  by replace (r_start range <? len unwrapOuter) with true by lia.
Qed.

Lemma newFromWrap_unwrapOuter_too_long_witness :
  newFromWrap mergeCells doc_paragraph (mkRange 0 5)
              [Elem "paragraph" []] [] [] []
  = Raised "unwrapOuter is longer than the data preceding the range".
Proof.
  apply (newFromWrap_unwrapOuter_too_long mergeCells doc_paragraph
           (mkRange 0 5) [Elem "paragraph" []] [] [] []).
  vm_compute. reflexivity.
Defined.

(** The comparison of the types stops at the first index whose types
    differ. *)
Lemma checkUnwrapFrom_mismatch (which : string) (unwrapData unwrap : list item)
      (found expected : item) :
  forall (steps : nat) (i k : nat),
    unwrapData !! (i + k)%nat = Some found ->
    unwrap !! (i + k)%nat = Some expected ->
    itemType found <> itemType expected ->
    (forall j f e, (i <= j < i + k)%nat ->
              unwrapData !! j = Some f -> unwrap !! j = Some e ->
              itemType f = itemType e) ->
    (k < steps)%nat ->
    checkUnwrapFrom which unwrapData unwrap steps (Z.of_nat i)
    = Raised ("Element in " +:+ which +:+ " does not match: expected "
              +:+ typeText (itemType expected) +:+ " but found "
              +:+ typeText (itemType found)).
Proof.
  intros steps i k. revert steps i.
  induction k as [|k IH]; intros steps i Hfound Hexpected Hdiff Hsame Hsteps;
    (destruct steps as [|steps]; [lia|]); simpl; unfold at_index;
    rewrite (proj2 (Z.ltb_ge _ _)) by lia; rewrite Nat2Z.id.
  - rewrite Nat.add_0_r in Hfound, Hexpected.
    rewrite Hfound, Hexpected. by rewrite bool_decide_eq_true_2.
  - destruct (lookup_lt_is_Some_2 unwrapData i) as [f Hf].
    { apply lookup_lt_Some in Hfound. lia. }
    destruct (lookup_lt_is_Some_2 unwrap i) as [e He].
    { apply lookup_lt_Some in Hexpected. lia. }
    rewrite Hf, He.
    rewrite bool_decide_eq_false_2
      by (intros Hne; apply Hne; apply (Hsame i f e); [lia|done|done]).
    replace (Z.of_nat i + 1) with (Z.of_nat (S i)) by lia.
    apply IH; try lia.
    + by replace (S i + k)%nat with (i + S k)%nat by lia.
    + by replace (S i + k)%nat with (i + S k)%nat by lia.
    + done.
    + intros j f' e' Hj. apply Hsame. lia.
Qed.

(** [newFromWrap] checks [unwrapOuter] against the data just before the
    range: at the first index at which the type in the data differs from
    the type given, it throws 'Element in unwrapOuter does not match:
    expected ... but found ...' with the type given and the type found, and
    returns no transaction. *)
Theorem newFromWrap_unwrapOuter_mismatch
        (merge : list cell -> list cell) (doc : Document) (range : Range)
        (unwrapOuter wrapOuter unwrapEach wrapEach : list item)
        (i : nat) (found expected : item) :
  let unwrapOuterData :=
    js_slice (data doc) (r_start range - len unwrapOuter) (r_start range) in
  len unwrapOuter <= r_start range ->
  unwrapOuterData !! i = Some found ->
  unwrapOuter !! i = Some expected ->
  itemType found <> itemType expected ->
  (forall j f e, (j < i)%nat ->
            unwrapOuterData !! j = Some f -> unwrapOuter !! j = Some e ->
            itemType f = itemType e) ->
  newFromWrap merge doc range unwrapOuter wrapOuter unwrapEach wrapEach
  = Raised ("Element in unwrapOuter does not match: expected "
            +:+ typeText (itemType expected) +:+ " but found "
            +:+ typeText (itemType found)).
Proof.
  intros unwrapOuterData Hlen Hfound Hexpected Hdiff Hsame.
  assert (0 < len unwrapOuter) as Hpos.
  { apply lookup_lt_Some in Hexpected. unfold len. lia. }
  unfold newFromWrap. rewrite !closingArray_returns. attempt_run.
  assert (exists ops,
             (if len unwrapOuter <? r_start range
              then attemptOf (pushRetain (operations (newTransaction []))
                                (r_start range - len unwrapOuter))
              else if r_start range <? len unwrapOuter
                   then Raised
                          "unwrapOuter is longer than the data preceding the range"
                   else Returned (operations (newTransaction [])))
             = Returned ops) as [ops ->].
  { destruct (len unwrapOuter <? r_start range) eqn:Hlt.
    - unfold pushRetain.
      rewrite (proj2 (Z.ltb_ge _ _)) by lia.
      replace (r_start range - len unwrapOuter =? 0) with false by lia.
      simpl. by eexists.
    - replace (r_start range <? len unwrapOuter) with false by lia.
      by eexists. }
  replace (0 <? len unwrapOuter) with true by lia. rewrite orb_true_r.
  fold unwrapOuterData. unfold checkUnwrap.
  pose proof (checkUnwrapFrom_mismatch "unwrapOuter" unwrapOuterData
                unwrapOuter found expected (length unwrapOuterData) 0 i)
    as Hmismatch.
  change (Z.of_nat 0) with 0 in Hmismatch.
  rewrite Hmismatch; try done.
  - intros j f e Hj. apply Hsame. lia.
  - by apply lookup_lt_Some in Hfound.
Qed.

Lemma newFromWrap_unwrapOuter_mismatch_witness :
  newFromWrap mergeCells doc_paragraph (mkRange 1 4)
              [Elem "heading" []] [Elem "list" []] [] []
  = Raised "Element in unwrapOuter does not match: expected heading but found paragraph".
Proof.
  apply (newFromWrap_unwrapOuter_mismatch mergeCells doc_paragraph
           (mkRange 1 4) [Elem "heading" []] [Elem "list" []] [] []
           0%nat (Elem "paragraph" []) (Elem "heading" []));
    [vm_compute; congruence|reflexivity|reflexivity|
      simpl; congruence|intros j f e Hj; lia].
Defined.

(** [pushReplace] that removes nothing and inserts nothing does nothing. *)
Lemma pushReplace_nothing (merge : list cell -> list cell) (doc : Document)
      (ops : list op) (offset : Z) (insertMetadata : option (list cell))
      (insertedDataOffset insertedDataLength : option Z) :
  pushReplace merge doc ops offset 0 [] insertMetadata
              insertedDataOffset insertedDataLength = Ok ops.
Proof.
  unfold pushReplace, pushReplaceOutcome.
  remember (rev ops) as rops eqn:Hrev.
  assert (ops = rev rops) as -> by (subst rops; by rewrite rev_involutive).
  clear Hrev. by destruct rops.
Qed.

(** [newFromWrap] with nothing to wrap and nothing to unwrap returns a
    no-op: the transaction that retains the whole document. *)
Theorem newFromWrap_nothing
        (merge : list cell -> list cell) (doc : Document) (range : Range) :
  0 <= r_start range -> r_start range <= r_end range ->
  0 < r_end range \/ 0 < len (data doc) ->
  newFromWrap merge doc range [] [] [] []
  = Returned (newTransaction (retainEverything doc (r_end range)))
  /\ isNoOp (newTransaction (retainEverything doc (r_end range))) = true.
Proof.
  intros H0 Hle Hne. split.
  - unfold newFromWrap. rewrite !closingArray_returns. attempt_run.
    change (len (@nil item)) with 0.
    cbn [operations newTransaction applied].
    assert (exists ops,
               (if 0 <? r_start range
                then attemptOf (pushRetain [] (r_start range - 0))
                else if r_start range <? 0
                     then Raised
                            "unwrapOuter is longer than the data preceding the range"
                     else Returned []) = Returned ops
               /\ attemptOf (pushRetain ops (r_end range - r_start range))
                  = Returned (if r_end range =? 0 then []
                              else [Retain (r_end range)]))
      as (ops & -> & Hretain).
    { destruct (Z.ltb_spec 0 (r_start range)) as [Hpos|Hzero].
      - exists [Retain (r_start range)]. unfold pushRetain.
        rewrite (proj2 (Z.ltb_ge _ _)) by lia.
        replace (r_start range - 0 =? 0) with false by lia.
        split; [simpl; by rewrite Z.sub_0_r|].
        rewrite (proj2 (Z.ltb_ge _ _)) by lia.
        replace (r_end range =? 0) with false by lia.
        destruct (Z.eqb_spec (r_end range - r_start range) 0) as [Heq|Hneq];
          simpl; do 3 f_equal; lia.
      - exists []. replace (r_start range <? 0) with false by lia.
        split; [done|]. unfold pushRetain.
        rewrite (proj2 (Z.ltb_ge _ _)) by lia.
        replace (r_start range) with 0 by lia. rewrite Z.sub_0_r.
        by destruct (r_end range =? 0). }
    change (0 <? 0) with false. cbn [orb].
    rewrite Hretain. rewrite pushReplace_nothing. cbn [attemptOf].
    rewrite Z.add_0_r.
    rewrite (pushFinalRetain_after_retain doc (r_end range)); [done|lia|].
    destruct (Z.eqb_spec (r_end range) 0) as [Heq|Hneq].
    + left. repeat split; [done|]. destruct Hne; lia.
    + right. split; [done|lia].
  - unfold retainEverything, isNoOp. simpl.
    destruct (metadataAt doc (len (data doc))) as [final|]; [|done].
    by destruct (0 <? len final).
Qed.

Lemma newFromWrap_nothing_witness :
  newFromWrap mergeCells doc_paragraph (mkRange 1 4) [] [] [] []
  = Returned (newTransaction (retainEverything doc_paragraph 4))
  /\ isNoOp (newTransaction (retainEverything doc_paragraph 4)) = true.
Proof.
  apply (newFromWrap_nothing mergeCells doc_paragraph (mkRange 1 4));
    [simpl; lia|simpl; lia|left; simpl; lia].
Defined.

(** [pushFinalRetain] from the end of the data retains the trailing
    metadata only. *)
Lemma pushFinalRetain_at_end (doc : Document) (ops : list op) (offset : Z) :
  len (data doc) <= offset ->
  (forall n, last ops <> Some (RetainMetadata n)) ->
  pushFinalRetain doc ops offset None = Ok (ops ++ finalRetainMetadata doc).
Proof.
  intros Hoff Hlast. unfold pushFinalRetain, finalRetainMetadata.
  replace (offset <? len (data doc)) with false by lia. run.
  destruct (metadataAt doc (len (data doc))) as [final|];
    [|by rewrite app_nil_r].
  destruct (0 <? len final) eqn:Hfinal; [|by rewrite app_nil_r].
  unfold pushRetainMetadata.
  replace (len final - 0 <? 0) with false by lia.
  replace (len final - 0 =? 0) with false by lia.
  rewrite Z.sub_0_r.
  destruct (last ops) as [[]|] eqn:Hl; try done. by destruct (Hlast length).
Qed.

(** A collapsed range holds no data. *)
Lemma getData_empty_range (doc : Document) (offset : Z) :
  getData doc (mkRange offset (offset + 0)) = [].
Proof.
  unfold getData, slice_range. simpl. rewrite Z.add_0_r.
  by rewrite Nat.sub_diag.
Qed.

(** Wrapping a range inside the data in [wrapOuter], with nothing to
    unwrap: the transaction retains up to the range, inserts the openings
    of [wrapOuter], retains the range, inserts the closings of [wrapOuter]
    in reverse order, and retains the rest of the document.  It removes
    nothing. *)
Theorem newFromWrap_outer
        (merge : list cell -> list cell) (doc : Document) (range : Range)
        (wrapOuter : list item) :
  wrapOuter <> [] ->
  0 <= r_start range -> r_start range < r_end range ->
  r_end range <= len (data doc) ->
  newFromWrap merge doc range [] wrapOuter [] []
  = Returned
      (newTransaction
         ((if r_start range =? 0 then [] else [Retain (r_start range)])
            ++ [Replace [] wrapOuter None None None None;
                Retain (r_end range - r_start range);
                Replace [] (map closingOf (rev wrapOuter)) None None None None]
            ++ (if r_end range <? len (data doc)
                then [Retain (len (data doc) - r_end range)] else [])
            ++ finalRetainMetadata doc)).
Proof.
  intros Hwrap H0 Hlt Hend.
  assert (0 < len wrapOuter) as Hpos.
  { destruct wrapOuter; [done|]. unfold len. simpl. lia. }
  assert (map closingOf (rev wrapOuter) <> []) as Hclosing.
  { intros Hnil. apply (f_equal length) in Hnil.
    rewrite length_map, length_rev in Hnil. unfold len in Hpos. simpl in Hnil.
    lia. }
  unfold newFromWrap. rewrite !closingArray_returns. attempt_run.
  change (len (@nil item)) with 0.
  cbn [operations newTransaction applied rev map].
  replace (0 <? len wrapOuter) with true by lia.
  change (0 <? 0) with false. cbn [orb].
  rewrite !Z.sub_0_r, Z.add_0_r.
  set (leading := if r_start range =? 0 then [] else [Retain (r_start range)]).
  assert ((if 0 <? r_start range
           then attemptOf (pushRetain [] (r_start range))
           else if r_start range <? 0
                then Raised
                       "unwrapOuter is longer than the data preceding the range"
                else Returned []) = Returned leading) as ->.
  { unfold leading, pushRetain.
    destruct (Z.ltb_spec 0 (r_start range)) as [Hp|Hz].
    - rewrite (proj2 (Z.ltb_ge _ _)) by lia.
      by replace (r_start range =? 0) with false by lia.
    - replace (r_start range <? 0) with false by lia.
      by replace (r_start range =? 0) with true by lia. }
  assert (js_slice (data doc) (r_start range) (r_start range) = []) as ->.
  { unfold js_slice. rewrite (proj2 (Z.ltb_ge _ _)) by lia.
    by rewrite Z.sub_diag. }
  unfold checkUnwrap. cbn [length checkUnwrapFrom].
  destruct (pushReplace_fresh merge doc leading (r_start range) 0 wrapOuter
              None None Hwrap) as (rm & im & Hpush & Hnone).
  { intros o. unfold leading. destruct (r_start range =? 0); simpl; [done|].
    by intros [= <-]. }
  destruct (Hnone eq_refl) as [-> ->].
  unfold ve_copy. rewrite Hpush, getData_empty_range. cbn [attemptOf].
  assert (pushRetain (leading ++ [Replace [] wrapOuter None None None None])
                     (r_end range - r_start range)
          = Ok (leading ++ [Replace [] wrapOuter None None None None;
                            Retain (r_end range - r_start range)])) as ->.
  { unfold pushRetain.
    rewrite (proj2 (Z.ltb_ge _ _)) by lia.
    replace (r_end range - r_start range =? 0) with false by lia.
    rewrite last_snoc. by rewrite <- app_assoc. }
  cbn [attemptOf].
  destruct (pushReplace_fresh merge doc
              (leading ++ [Replace [] wrapOuter None None None None;
                           Retain (r_end range - r_start range)])
              (r_end range) 0 (map closingOf (rev wrapOuter))
              None None Hclosing) as (rm & im & Hpush' & Hnone').
  { intros o.
    change [Replace [] wrapOuter None None None None;
            Retain (r_end range - r_start range)]
      with ([Replace [] wrapOuter None None None None]
              ++ [Retain (r_end range - r_start range)]).
    rewrite app_assoc, last_snoc. by intros [= <-]. }
  destruct (Hnone' eq_refl) as [-> ->].
  rewrite Hpush', getData_empty_range. cbn [attemptOf].
  rewrite <- !app_assoc. cbn [app].
  destruct (Z.ltb_spec (r_end range) (len (data doc))) as [Hin|Hat].
  - rewrite pushFinalRetain_appends; [|lia|].
    + by rewrite <- !app_assoc.
    + intros n.
      change [Replace [] wrapOuter None None None None;
              Retain (r_end range - r_start range);
              Replace [] (map closingOf (rev wrapOuter)) None None None None]
        with ([Replace [] wrapOuter None None None None;
               Retain (r_end range - r_start range)]
                ++ [Replace [] (map closingOf (rev wrapOuter))
                            None None None None]).
      by rewrite app_assoc, last_snoc.
  - rewrite pushFinalRetain_at_end; [|lia|].
    + by rewrite <- !app_assoc.
    + intros n.
      change [Replace [] wrapOuter None None None None;
              Retain (r_end range - r_start range);
              Replace [] (map closingOf (rev wrapOuter)) None None None None]
        with ([Replace [] wrapOuter None None None None;
               Retain (r_end range - r_start range)]
                ++ [Replace [] (map closingOf (rev wrapOuter))
                            None None None None]).
      by rewrite app_assoc, last_snoc.
Qed.

Lemma newFromWrap_outer_witness :
  newFromWrap mergeCells doc_paragraph (mkRange 0 5) [] [Elem "list" []] [] []
  = Returned
      (newTransaction
         [Replace [] [Elem "list" []] None None None None;
          Retain 5;
          Replace [] [Elem "/list" []] None None None None;
          Retain 2]).
Proof.
  apply (newFromWrap_outer mergeCells doc_paragraph (mkRange 0 5)
           [Elem "list" []]);
    [discriminate|simpl; lia|simpl; lia|vm_compute; congruence].
Defined.

(** ** Annotation *)

Lemma annotationsOf_app (l k : list op) :
  annotationsOf (l ++ k) = annotationsOf l ++ annotationsOf k.
Proof. apply omap_app. Qed.

Lemma sourceLength_app (l k : list op) :
  sourceLength (l ++ k) = sourceLength l + sourceLength k.
Proof.
  induction l as [|o l IH]; simpl; [done|].
  destruct o; rewrite ?IH; lia.
Qed.

Lemma annotatedSpans_snoc (method : method_t) (index : string) (n : nat) :
  annotatedSpans method index n
    ++ [(method, start, index); (method, stop, index)]
  = annotatedSpans method index (S n).
Proof.
  unfold annotatedSpans. induction n as [|n IH]; simpl; [done|].
  simpl in IH. by rewrite IH.
Qed.

(** [pushRetain] of a length that is not negative returns, and adds the
    length to what the operations retain. *)
Lemma pushRetain_returns (ops : list op) (length : Z) :
  0 <= length ->
  exists ops',
    pushRetain ops length = Ok ops'
    /\ annotationsOf ops' = annotationsOf ops
    /\ sourceLength ops' = sourceLength ops + length
    /\ targetLength ops' = targetLength ops + length
    /\ editsOf ops' = editsOf ops
    /\ (forall P : op -> bool,
          (forall n, P (Retain n) = true) ->
          forallb P ops = true -> forallb P ops' = true).
Proof.
  intros Hlen. unfold pushRetain.
  rewrite (proj2 (Z.ltb_ge _ _)) by lia.
  destruct (Z.eqb_spec length 0) as [->|Hne].
  { exists ops. repeat split; try done; lia. }
  assert (exists ops',
             ops' = ops ++ [Retain length]
             /\ annotationsOf ops' = annotationsOf ops
             /\ sourceLength ops' = sourceLength ops + length
             /\ targetLength ops' = targetLength ops + length
             /\ editsOf ops' = editsOf ops
             /\ (forall P : op -> bool,
                   (forall n, P (Retain n) = true) ->
                   forallb P ops = true -> forallb P ops' = true))
    as (fresh & Hfresh & Hrest).
  { eexists. split; [done|]. repeat split.
    - rewrite annotationsOf_app. simpl. by rewrite app_nil_r.
    - rewrite sourceLength_app. simpl. lia.
    - clear. induction ops as [|o ops IH]; simpl; [lia|].
      destruct o; rewrite ?IH; lia.
    - rewrite editsOf_app. simpl. by rewrite app_nil_r.
    - intros P HP Hall. rewrite forallb_app, Hall. simpl. by rewrite HP. }
  destruct (last ops) as [o|] eqn:Hlast;
    [|exists fresh; by rewrite Hfresh in *].
  destruct o as [n| | | | |]; try (exists fresh; by rewrite Hfresh in *).
  apply last_Some in Hlast as [before ->].
  rewrite removelast_last. eexists. split; [done|]. repeat split.
  - rewrite !annotationsOf_app. by simpl.
  - rewrite !sourceLength_app. simpl. lia.
  - clear. induction before as [|o ops IH]; simpl; [lia|].
    destruct o; rewrite ?IH; lia.
  - rewrite !editsOf_app. by simpl.
  - intros P HP Hall. rewrite forallb_app in *.
    apply andb_prop in Hall as [-> _]. simpl. by rewrite HP.
Qed.

Lemma targetLength_app (l k : list op) :
  targetLength (l ++ k) = targetLength l + targetLength k.
Proof.
  induction l as [|o l IH]; simpl; [done|].
  destruct o; rewrite ?IH; lia.
Qed.

(** [pushRetainMetadata] of a length that is not negative returns, and
    retains no data. *)
Lemma pushRetainMetadata_returns (ops : list op) (length : Z) :
  0 <= length ->
  exists ops',
    pushRetainMetadata ops length = Ok ops'
    /\ annotationsOf ops' = annotationsOf ops
    /\ sourceLength ops' = sourceLength ops
    /\ targetLength ops' = targetLength ops
    /\ (forall P : op -> bool,
          (forall n, P (RetainMetadata n) = true) ->
          forallb P ops = true -> forallb P ops' = true).
Proof.
  intros Hlen. unfold pushRetainMetadata.
  rewrite (proj2 (Z.ltb_ge _ _)) by lia.
  destruct (Z.eqb_spec length 0) as [->|Hne].
  { by exists ops. }
  assert (exists ops',
             ops' = ops ++ [RetainMetadata length]
             /\ annotationsOf ops' = annotationsOf ops
             /\ sourceLength ops' = sourceLength ops
             /\ targetLength ops' = targetLength ops
             /\ (forall P : op -> bool,
                   (forall n, P (RetainMetadata n) = true) ->
                   forallb P ops = true -> forallb P ops' = true))
    as (fresh & Hfresh & Hrest).
  { eexists. split; [done|]. repeat split.
    - rewrite annotationsOf_app. simpl. by rewrite app_nil_r.
    - rewrite sourceLength_app. simpl. lia.
    - rewrite targetLength_app. simpl. lia.
    - intros P HP Hall. rewrite forallb_app, Hall. simpl. by rewrite HP. }
  destruct (last ops) as [o|] eqn:Hlast;
    [|exists fresh; by rewrite Hfresh in *].
  destruct o as [|n| | | |]; try (exists fresh; by rewrite Hfresh in *).
  apply last_Some in Hlast as [before ->].
  rewrite removelast_last. eexists. split; [done|]. repeat split.
  - rewrite !annotationsOf_app. by simpl.
  - rewrite !sourceLength_app. simpl. lia.
  - rewrite !targetLength_app. simpl. lia.
  - intros P HP Hall. rewrite forallb_app in *.
    apply andb_prop in Hall as [-> _]. simpl. by rewrite HP.
Qed.

(** [pushFinalRetain] without a metadata offset returns, and retains what
    is left of the document. *)
Lemma pushFinalRetain_returns (doc : Document) (ops : list op) (offset : Z) :
  exists ops',
    pushFinalRetain doc ops offset None = Ok ops'
    /\ annotationsOf ops' = annotationsOf ops
    /\ sourceLength ops' = sourceLength ops + Z.max 0 (len (data doc) - offset)
    /\ targetLength ops' = targetLength ops + Z.max 0 (len (data doc) - offset)
    /\ (forall P : op -> bool,
          (forall n, P (Retain n) = true) ->
          (forall n, P (RetainMetadata n) = true) ->
          forallb P ops = true -> forallb P ops' = true).
Proof.
  unfold pushFinalRetain.
  assert (exists ops1 metaOffset,
             (if offset <? len (data doc)
              then pushRetain ops (len (data doc) - offset)
                     ≫= λ ops0 : list op, Ok (ops0, Some 0)
              else Ok (ops, None)) = Ok (ops1, metaOffset)
             /\ default 0 metaOffset = 0
             /\ annotationsOf ops1 = annotationsOf ops
             /\ sourceLength ops1
                = sourceLength ops + Z.max 0 (len (data doc) - offset)
             /\ targetLength ops1
                = targetLength ops + Z.max 0 (len (data doc) - offset)
             /\ (forall P : op -> bool,
                   (forall n, P (Retain n) = true) ->
                   forallb P ops = true -> forallb P ops1 = true))
    as (ops1 & metaOffset & -> & Hmeta & Hann & Hsrc & Htgt & HP).
  { destruct (Z.ltb_spec offset (len (data doc))) as [Hlt|Hge].
    - destruct (pushRetain_returns ops (len (data doc) - offset))
        as (ops1 & -> & Hann & Hsrc & Htgt & _ & HP); [lia|].
      exists ops1, (Some 0). run. repeat split; try done; lia.
    - exists ops, None. repeat split; try done; lia. }
  run. rewrite Hmeta.
  destruct (metadataAt doc (len (data doc))) as [final|];
    [|exists ops1; repeat split; try done; intros; by apply HP].
  destruct (0 <? len final) eqn:Hfinal;
    [|exists ops1; repeat split; try done; intros; by apply HP].
  destruct (pushRetainMetadata_returns ops1 (len final - 0))
    as (ops2 & -> & Hann2 & Hsrc2 & Htgt2 & HP2); [lia|].
  exists ops2. repeat split; try congruence.
  intros P HR HM Hall. apply HP2; [done|]. by apply HP.
Qed.

(** Closing the open span keeps [annotatingUpTo]. *)
Lemma stopAnnotating_keeps (method : method_t) (index : string) (i : Z)
      (st : Annotating) :
  annotatingUpTo method index i (an_ops st) (an_span st) (an_on st) ->
  exists st',
    stopAnnotating method index st = Ok st'
    /\ annotatingUpTo method index i (an_ops st') (an_span st') (an_on st').
Proof.
  intros (Hspan & (n & Hann) & Hall & Hlen). unfold stopAnnotating.
  destruct (an_on st) eqn:Hon.
  - destruct (pushRetain_returns (an_ops st) (an_span st) Hspan)
      as (ops & -> & Hann' & Hsrc & _ & _ & HP).
    eexists. split; [done|]. simpl. unfold pushStopAnnotating.
    repeat split.
    + lia.
    + exists (S n). rewrite annotationsOf_app, Hann', Hann. simpl.
      rewrite <- app_assoc, app_nil_r. apply annotatedSpans_snoc.
    + rewrite forallb_app. simpl. rewrite HP; done.
    + rewrite sourceLength_app. simpl. lia.
  - exists st. split; [done|]. rewrite Hon. repeat split; try done.
    by exists n.
Qed.

(** Opening a span keeps [annotatingUpTo]. *)
Lemma startAnnotating_keeps (method : method_t) (index : string) (i : Z)
      (st : Annotating) :
  annotatingUpTo method index i (an_ops st) (an_span st) (an_on st) ->
  exists st',
    startAnnotating method index st = Ok st'
    /\ annotatingUpTo method index i (an_ops st') (an_span st') (an_on st').
Proof.
  intros (Hspan & (n & Hann) & Hall & Hlen). unfold startAnnotating.
  destruct (an_on st) eqn:Hon.
  - exists st. split; [done|]. rewrite Hon. repeat split; try done.
    by exists n.
  - destruct (pushRetain_returns (an_ops st) (an_span st) Hspan)
      as (ops & -> & Hann' & Hsrc & _ & _ & HP).
    eexists. split; [done|]. simpl. unfold pushStartAnnotating.
    repeat split.
    + lia.
    + exists n. rewrite annotationsOf_app, Hann', Hann. simpl.
      by rewrite app_nil_r.
    + rewrite forallb_app. simpl. rewrite HP; done.
    + rewrite sourceLength_app. simpl. lia.
Qed.

Section AnnotationProperties.

Variable Annotation : Type.
Variable storeIndex : Document -> Annotation -> string.
Variable shouldIgnoreChildren : string -> bool.
Variable isNodeContent : string -> bool.
Variable canNodeTakeAnnotationType : string -> Annotation -> bool.
Variable containsComparable : Document -> Z -> Annotation -> bool.
Variable contains : Document -> Z -> Annotation -> bool.

(** A turn of the loop of [newFromAnnotation] returns and keeps
    [annotatingUpTo], one offset further. *)
Lemma annotateStep_keeps (doc : Document) (method : method_t)
      (annotation : Annotation) (index : string) (i : Z) (st : Annotating) :
  annotatingUpTo method index i (an_ops st) (an_span st) (an_on st) ->
  exists st',
    annotateStep Annotation shouldIgnoreChildren isNodeContent
                 canNodeTakeAnnotationType containsComparable contains
                 doc method annotation index i st = Ok st'
    /\ annotatingUpTo method index (i + 1)
                      (an_ops st') (an_span st') (an_on st').
Proof.
  intros Hinv. unfold annotateStep. cbv zeta.
  match goal with
  | |- context [mbind _ ?inner] =>
      assert (exists st1, inner = Ok st1
                     /\ annotatingUpTo method index i (an_ops st1)
                                       (an_span st1) (an_on st1))
        as (st1 & -> & (Hspan & Hann & Hall & Hlen))
  end.
  { repeat match goal with
           | |- context [if ?b then _ else _] => destruct b
           end;
      try (apply stopAnnotating_keeps; exact Hinv);
      try (apply startAnnotating_keeps; exact Hinv);
      (eexists; split; [reflexivity|exact Hinv]). }
  eexists. split; [done|]. simpl. repeat split; try done; lia.
Qed.

(** So does the loop. *)
Lemma annotateLoop_keeps (doc : Document) (method : method_t)
      (annotation : Annotation) (index : string) (steps : nat) :
  forall (i : Z) (st : Annotating),
    annotatingUpTo method index i (an_ops st) (an_span st) (an_on st) ->
    exists st',
      annotateLoop Annotation shouldIgnoreChildren isNodeContent
                   canNodeTakeAnnotationType containsComparable contains
                   doc method annotation index steps i st = Ok st'
      /\ annotatingUpTo method index (i + Z.of_nat steps)
                        (an_ops st') (an_span st') (an_on st').
Proof.
  induction steps as [|steps IH]; intros i st Hinv; cbn [annotateLoop].
  - exists st. split; [done|]. by rewrite Z.add_0_r.
  - destruct (annotateStep_keeps doc method annotation index i st Hinv)
      as (st1 & -> & Hinv1).
    destruct (IH (i + 1) st1 Hinv1) as (st' & Hloop & Hinv').
    exists st'. split; [exact Hloop|].
    replace (i + Z.of_nat (S steps)) with (i + 1 + Z.of_nat steps) by lia.
    exact Hinv'.
Qed.

(** [newFromAnnotation] over a range that starts at an offset that is not
    negative never throws, whatever the data, the node factory and the
    annotations of the data are.  Its operations are retains and annotate
    operations only, the annotate operations are a sequence of whole spans
    (a start followed by its stop, each with the method and the store index
    of the annotation; no span is left open or nested), and for a range
    inside the data the transaction covers the whole document. *)
Theorem newFromAnnotation_spans (doc : Document) (range : Range)
        (method : method_t) (annotation : Annotation) :
  0 <= r_start range ->
  exists tx n,
    newFromAnnotation Annotation storeIndex shouldIgnoreChildren isNodeContent
                      canNodeTakeAnnotationType containsComparable contains
                      doc range method annotation = Ok tx
    /\ annotationsOf (operations tx)
       = annotatedSpans method (storeIndex doc annotation) n
    /\ forallb (fun o => isRetaining o || String.eqb (opType o) "annotate")
               (operations tx) = true
    /\ (r_start range <= r_end range -> r_end range <= len (data doc) ->
        sourceLength (operations tx) = len (data doc)).
Proof.
  intros H0. unfold newFromAnnotation.
  set (index := storeIndex doc annotation).
  destruct (annotateLoop_keeps doc method annotation index
              (Z.to_nat (r_end range - r_start range)) (r_start range)
              (mkAnnotating [] (r_start range) false false 0))
    as (st & Hloop & (Hspan & (n & Hann) & Hall & Hlen)).
  { repeat split; simpl; try done; try lia. by exists 0%nat. }
  cbn [operations newTransaction applied]. rewrite Hloop. run.
  destruct (pushRetain_returns (an_ops st) (an_span st) Hspan)
    as (ops & -> & Hann' & Hsrc & _ & _ & HP).
  set (ops' := if an_on st
               then pushStopAnnotating ops method index else ops).
  assert (annotationsOf ops'
          = annotatedSpans method index (if an_on st then S n else n)
          /\ forallb (fun o => isRetaining o
                            || String.eqb (opType o) "annotate") ops' = true
          /\ sourceLength ops' = sourceLength ops) as (Hann2 & Hall2 & Hsrc2).
  { unfold ops'. rewrite Hann in Hann'. destruct (an_on st).
    - unfold pushStopAnnotating.
      rewrite annotationsOf_app, sourceLength_app, forallb_app, Hann'.
      simpl. rewrite <- app_assoc. simpl.
      rewrite annotatedSpans_snoc, HP by done. repeat split; lia.
    - rewrite app_nil_r in Hann'. repeat split; [done|]. by apply HP. }
  destruct (pushFinalRetain_returns doc ops' (r_end range))
    as (final & -> & Hann3 & Hsrc3 & _ & HP3).
  eexists. eexists. split; [reflexivity|]. simpl. repeat split.
  - by rewrite Hann3, Hann2.
  - by apply HP3.
  - intros Hle Hend. rewrite Hsrc3, Hsrc2, Hsrc. lia.
Qed.

End AnnotationProperties.

Lemma newFromAnnotation_spans_witness :
  exists tx n,
    newFromAnnotation string (fun _ a => a) (fun _ => false) (fun _ => false)
                      (fun _ _ => true) (fun _ i _ => i =? 2)
                      (fun _ i _ => i =? 2)
                      doc_paragraph (mkRange 1 4) set "bold" = Ok tx
    /\ annotationsOf (operations tx) = annotatedSpans set "bold" n
    /\ forallb (fun o => isRetaining o || String.eqb (opType o) "annotate")
               (operations tx) = true
    /\ (r_start (mkRange 1 4) <= r_end (mkRange 1 4) ->
        r_end (mkRange 1 4) <= len (data doc_paragraph) ->
        sourceLength (operations tx) = len (data doc_paragraph)).
Proof.
  apply (newFromAnnotation_spans string (fun _ a => a) (fun _ => false)
           (fun _ => false) (fun _ _ => true) (fun _ i _ => i =? 2)
           (fun _ i _ => i =? 2) doc_paragraph (mkRange 1 4) set "bold").
  simpl. lia.
Defined.

(** A closing element is an element. *)
Lemma isCloseElementData_isElementData (doc : Document) (i : Z) :
  isCloseElementData doc i = true -> isElementData doc i = true.
Proof.
  unfold isCloseElementData, isElementData.
  by destruct (at_index (data doc) i) as [[]|].
Qed.

Section AnnotationCovered.

Variable Annotation : Type.
Variable storeIndex : Document -> Annotation -> string.
Variable shouldIgnoreChildren : string -> bool.
Variable isNodeContent : string -> bool.
Variable canNodeTakeAnnotationType : string -> Annotation -> bool.
Variable containsComparable : Document -> Z -> Annotation -> bool.
Variable contains : Document -> Z -> Annotation -> bool.

(** Over content that needs no change the loop pushes nothing. *)
Lemma annotateLoop_covered (doc : Document) (method : method_t)
      (annotation : Annotation) (index : string) (steps : nat) :
  forall (i : Z) (inside : bool) (depth : Z),
    (forall j, i <= j < i + Z.of_nat steps ->
          isCloseElementData doc j = false ->
          match method with
          | set => containsComparable doc j annotation = true
          | clear => contains doc j annotation = false
          end) ->
    exists inside' depth',
      annotateLoop Annotation shouldIgnoreChildren isNodeContent
                   canNodeTakeAnnotationType containsComparable contains
                   doc method annotation index steps i
                   (mkAnnotating [] i false inside depth)
      = Ok (mkAnnotating [] (i + Z.of_nat steps) false inside' depth').
Proof.
  induction steps as [|steps IH]; intros i inside depth Hcovered;
    cbn [annotateLoop].
  - exists inside, depth. by rewrite Z.add_0_r.
  - assert (exists inside1 depth1,
               annotateStep Annotation shouldIgnoreChildren isNodeContent
                            canNodeTakeAnnotationType containsComparable
                            contains doc method annotation index i
                            (mkAnnotating [] i false inside depth)
               = Ok (mkAnnotating [] (i + 1) false inside1 depth1))
      as (inside1 & depth1 & ->).
    { specialize (Hcovered i ltac:(lia)).
      unfold annotateStep. cbv zeta. cbn [an_ops an_span an_on
        an_insideContentNode an_ignoreChildrenDepth].
      destruct (isCloseElementData doc i) eqn:Hclose.
      - rewrite (isCloseElementData_isElementData doc i Hclose). simpl.
        repeat match goal with
               | |- context [if ?b then _ else _] => destruct b
               end; simpl; by do 2 eexists.
      - specialize (Hcovered eq_refl).
        destruct method; simpl; rewrite Hcovered; simpl;
          repeat match goal with
                 | |- context [if ?b then _ else _] => destruct b
                 end; simpl; by do 2 eexists. }
    run.
    destruct (IH (i + 1) inside1 depth1) as (inside' & depth' & ->).
    { intros j Hj. apply Hcovered. lia. }
    exists inside', depth'. do 2 f_equal. lia.
Qed.

(** Setting an annotation that every offset of the range has already (a
    comparable one), or clearing one that no offset has, returns a no-op:
    the transaction that retains the whole document. *)
Theorem newFromAnnotation_covered (doc : Document) (range : Range)
        (method : method_t) (annotation : Annotation) :
  0 <= r_start range -> r_start range <= r_end range ->
  0 < r_end range \/ 0 < len (data doc) ->
  (forall i, r_start range <= i < r_end range ->
        isCloseElementData doc i = false ->
        match method with
        | set => containsComparable doc i annotation = true
        | clear => contains doc i annotation = false
        end) ->
  newFromAnnotation Annotation storeIndex shouldIgnoreChildren isNodeContent
                    canNodeTakeAnnotationType containsComparable contains
                    doc range method annotation
  = Ok (newTransaction (retainEverything doc (r_end range)))
  /\ isNoOp (newTransaction (retainEverything doc (r_end range))) = true.
Proof.
  intros H0 Hle Hne Hcovered. split.
  - unfold newFromAnnotation.
    cbn [operations newTransaction applied].
    destruct (annotateLoop_covered doc method annotation
                (storeIndex doc annotation)
                (Z.to_nat (r_end range - r_start range)) (r_start range)
                false 0) as (inside & depth & ->).
    { intros j Hj. apply Hcovered. lia. }
    run. replace (r_start range + Z.of_nat (Z.to_nat (r_end range - r_start range)))
      with (r_end range) by lia.
    unfold pushRetain. rewrite (proj2 (Z.ltb_ge _ _)) by lia.
    destruct (Z.eqb_spec (r_end range) 0) as [Hz|Hnz]; simpl.
    + rewrite (pushFinalRetain_after_retain doc (r_end range)); [done|lia|].
      left. repeat split; [done|]. destruct Hne; lia.
    + rewrite (pushFinalRetain_after_retain doc (r_end range)); [done|lia|].
      right. split; [done|lia].
  - unfold retainEverything, isNoOp. simpl.
    destruct (metadataAt doc (len (data doc))) as [final|]; [|done].
    by destruct (0 <? len final).
Qed.

End AnnotationCovered.

Lemma newFromAnnotation_covered_witness :
  newFromAnnotation string (fun _ a => a) (fun _ => false) (fun _ => false)
                    (fun _ _ => true) (fun _ _ _ => true) (fun _ _ _ => true)
                    doc_paragraph (mkRange 1 4) set "bold"
  = Ok (newTransaction (retainEverything doc_paragraph 4))
  /\ isNoOp (newTransaction (retainEverything doc_paragraph 4)) = true.
Proof.
  apply (newFromAnnotation_covered string (fun _ a => a) (fun _ => false)
           (fun _ => false) (fun _ _ => true) (fun _ _ _ => true)
           (fun _ _ _ => true) doc_paragraph (mkRange 1 4) set "bold");
    [simpl; lia|simpl; lia|left; simpl; lia|reflexivity].
Defined.

(** ** The lengths a transaction applies to and leaves *)

(** The data of a range inside an array has the length of the range. *)
Lemma len_slice_range {A : Type} (l : list A) (offset removeLength : Z) :
  0 <= offset -> 0 <= removeLength -> offset + removeLength <= len l ->
  len (slice_range l (mkRange offset (offset + removeLength))) = removeLength.
Proof.
  intros H0 Hr Hfit. unfold slice_range, len in *. simpl.
  rewrite length_take, length_drop. lia.
Qed.

Lemma len_app {A : Type} (l k : list A) : len (l ++ k) = len l + len k.
Proof. unfold len. rewrite length_app. lia. Qed.

Lemma retainsNonNegative_app (l k : list op) :
  retainsNonNegative (l ++ k)
  = retainsNonNegative l && retainsNonNegative k.
Proof. apply forallb_app. Qed.

(** The replace operations pushed for a plan remove [remove] and insert
    [insert]. *)
Lemma pushPlanned_lengths (ops : list op) (remove insert : list item)
      (removeMetadata : list cell) (plan : MetadataPlan)
      (insertedDataOffset insertedDataLength : option Z) :
  let ops' := pushPlanned ops remove insert removeMetadata plan
                          insertedDataOffset insertedDataLength in
  sourceLength ops' = sourceLength ops + len remove
  /\ targetLength ops' = targetLength ops + len insert
  /\ (retainsNonNegative ops = true -> retainsNonNegative ops' = true).
Proof.
  unfold pushPlanned, pushReplaceInternal, pushReplaceMetadata.
  destruct ((len remove =? 0) && (len insert =? 0)) eqn:Hnoop.
  - apply andb_prop in Hnoop as [Hr Hi].
    destruct (plan_extraMetadata plan) as [extra|];
      [destruct ((len [] =? 0) && (len extra =? 0))|];
      rewrite ?sourceLength_app, ?targetLength_app,
        ?retainsNonNegative_app; simpl;
      repeat split; try lia; intros ->; done.
  - destruct (plan_insertMetadata plan);
      destruct insertedDataOffset, insertedDataLength;
      (destruct (plan_extraMetadata plan) as [extra|];
       [destruct ((len [] =? 0) && (len extra =? 0))|]);
      rewrite ?sourceLength_app, ?targetLength_app,
        ?retainsNonNegative_app; simpl;
      repeat split; try lia; intros ->; done.
Qed.

Lemma canMerge_replace (lastOp : op) (mergedMetadata : list cell)
      (plan : MetadataPlan) :
  canMerge lastOp mergedMetadata plan = true ->
  exists r i rm im ido idl, lastOp = Replace r i rm im ido idl.
Proof. destruct lastOp; try discriminate. intros _. by do 6 eexists. Qed.

Lemma canMergeRemovals_empty (lastOp : op) (mergedMetadata : list cell)
      (insert : list item) (plan : MetadataPlan) :
  canMergeRemovals lastOp mergedMetadata insert plan = true ->
  len insert = 0
  /\ exists r i rm im ido idl,
      lastOp = Replace r i rm im ido idl /\ len i = 0.
Proof.
  destruct lastOp; try discriminate. simpl. intros H.
  apply andb_prop in H as [H _]. apply andb_prop in H as [H _].
  apply andb_prop in H as [Hi Hins].
  split; [lia|]. do 6 eexists. split; [done|lia].
Qed.

(** The same for the outcome of a [pushReplace] that merges with
    nothing. *)
Lemma finish_lengths (doc : Document) (ops : list op)
      (offset removeLength : Z) (insert : list item) (plan : MetadataPlan)
      (insertedDataOffset insertedDataLength : option Z) :
  0 <= offset -> 0 <= removeLength ->
  offset + removeLength <= len (data doc) ->
  sourceLength ops = offset ->
  retainsNonNegative ops = true ->
  let out :=
    returned
      (pushPlanned ops
         (getData doc (mkRange offset (offset + removeLength))) insert
         (getMetadata doc (mkRange offset (offset + removeLength)))
         plan insertedDataOffset insertedDataLength) in
  sourceLength (out_operations out) = offset + removeLength
  /\ targetLength (out_operations out) = targetLength ops + len insert
  /\ retainsNonNegative (out_operations out) = true.
Proof.
  intros Hoff Hrem Hfit Hsrc Hnn. simpl.
  pose proof (len_slice_range (data doc) offset removeLength Hoff Hrem Hfit)
    as Hlen.
  destruct (pushPlanned_lengths ops
              (getData doc (mkRange offset (offset + removeLength)))
              insert
              (getMetadata doc (mkRange offset (offset + removeLength)))
              plan insertedDataOffset insertedDataLength) as (H1 & H2 & H3).
  unfold getData in *. rewrite H1, H2, Hlen, Hsrc.
  split; [done|]. split; [done|]. by apply H3.
Qed.

(** However [pushReplace] coalesces, a call that returns has moved the
    operations on by [removeLength] source items and by the inserted
    items. *)
Lemma pushReplaceFromEnd_lengths (merge : list cell -> list cell)
      (doc : Document) (n : nat) :
  forall (rops : list op),
    (length rops <= n)%nat ->
    forall (offset removeLength : Z) (insert : list item)
      (insertMetadata : option (list cell))
      (insertedDataOffset insertedDataLength : option Z),
      retainsNonNegative (rev rops) = true ->
      sourceLength (rev rops) = offset ->
      0 <= removeLength ->
      offset + removeLength <= len (data doc) ->
      let out := pushReplaceFromEnd merge doc rops offset removeLength insert
                   insertMetadata insertedDataOffset insertedDataLength in
      out_thrown out = None ->
      sourceLength (out_operations out) = offset + removeLength
      /\ targetLength (out_operations out)
         = targetLength (rev rops) + len insert
      /\ retainsNonNegative (out_operations out) = true.
Proof.
  induction n as [|n IH]; intros rops Hn offset removeLength insert
    insertMetadata ido idl Hnn Hsrc Hrem Hfit.
  all: pose proof (sourceLength_nonneg _ Hnn) as Hoff; rewrite Hsrc in Hoff.
  all: assert (forall rops0 plan,
                  sourceLength (rev rops0) = offset ->
                  retainsNonNegative (rev rops0) = true ->
                  let out :=
                    returned
                      (pushPlanned (rev rops0)
                         (getData doc (mkRange offset (offset + removeLength)))
                         insert
                         (getMetadata doc (mkRange offset (offset + removeLength)))
                         plan ido idl) in
                  sourceLength (out_operations out) = offset + removeLength
                  /\ targetLength (out_operations out)
                     = targetLength (rev rops0) + len insert
                  /\ retainsNonNegative (out_operations out) = true)
    as Hfinish
      by (intros rops0 plan Hsrc0 Hnn0; by apply finish_lengths).
  - destruct rops as [|lastOp beforeLast]; [|simpl in Hn; lia].
    cbn [pushReplaceFromEnd].
    destruct ((removeLength =? 0) && (len insert =? 0)) eqn:Hnoop.
    { apply andb_prop in Hnoop as [Hr Hi]. simpl. intros _.
      simpl in Hsrc. repeat split; lia. }
    destruct (planMetadata merge _ insert insertMetadata) as [plan|e];
      [|discriminate].
    intros _. by apply (Hfinish [] plan).
  - destruct rops as [|lastOp beforeLast].
    { cbn [pushReplaceFromEnd].
      destruct ((removeLength =? 0) && (len insert =? 0)) eqn:Hnoop.
      { apply andb_prop in Hnoop as [Hr Hi]. simpl. intros _.
        simpl in Hsrc. repeat split; lia. }
      destruct (planMetadata merge _ insert insertMetadata) as [plan|e];
        [|discriminate].
      intros _. by apply (Hfinish [] plan). }
    cbn [pushReplaceFromEnd].
    destruct ((removeLength =? 0) && (len insert =? 0)) eqn:Hnoop.
    { apply andb_prop in Hnoop as [Hr Hi]. cbn [returned out_thrown out_operations].
      intros _. repeat split; [lia|lia|done]. }
    destruct (planMetadata merge _ insert insertMetadata) as [plan|e];
      [|discriminate].
    simpl in Hn.
    cbn [rev] in Hnn, Hsrc.
    rewrite retainsNonNegative_app in Hnn. apply andb_prop in Hnn as [Hnn1 Hnn2].
    rewrite sourceLength_app in Hsrc.
    (* the merge of the new replace into an earlier replace [r], [i] popped
       together with the operations after it *)
    assert (forall (rest : list op) (r i : list item) im0,
               (length rest <= n)%nat ->
               retainsNonNegative (rev rest) = true ->
               sourceLength (rev rest) + len r = offset ->
               targetLength (rev rest) + len i
               = targetLength (rev (lastOp :: beforeLast)) ->
               let out := pushReplaceFromEnd merge doc rest (offset - len r)
                            (len r + removeLength) (i ++ insert) im0 ido idl in
               out_thrown out = None ->
               sourceLength (out_operations out) = offset + removeLength
               /\ targetLength (out_operations out)
                  = targetLength (rev (lastOp :: beforeLast)) + len insert
               /\ retainsNonNegative (out_operations out) = true) as Hmerge.
    { intros rest r i im0 Hrest Hnnr Hsrcr Htgt out Hout.
      pose proof (len_nonneg r).
      destruct (IH rest Hrest (offset - len r) (len r + removeLength)
                   (i ++ insert) im0 ido idl Hnnr) as (H1 & H2 & H3);
        try lia; try done.
      fold out in H1, H2, H3. rewrite len_app in H2.
      repeat split; [lia|lia|done]. }
    assert (forall (rest : list op) (r i : list item),
               (length rest <= n)%nat ->
               retainsNonNegative (rev rest) = true ->
               sourceLength (rev rest) + len r = offset ->
               targetLength (rev rest) + len i
               = targetLength (rev (lastOp :: beforeLast)) ->
               len i = 0 -> len insert = 0 ->
               let out := pushReplaceFromEnd merge doc rest (offset - len r)
                            (len r + removeLength) [] None None None in
               out_thrown out = None ->
               sourceLength (out_operations out) = offset + removeLength
               /\ targetLength (out_operations out)
                  = targetLength (rev (lastOp :: beforeLast)) + len insert
               /\ retainsNonNegative (out_operations out) = true) as Hremovals.
    { intros rest r i Hrest Hnnr Hsrcr Htgt Hi Hins out Hout.
      pose proof (len_nonneg r).
      destruct (IH rest Hrest (offset - len r) (len r + removeLength)
                   [] None None None Hnnr) as (H1 & H2 & H3);
        try lia; try done.
      fold out in H1, H2, H3. change (len (@nil item)) with 0 in H2.
      repeat split; [lia|lia|done]. }
    assert (sourceLength (rev (lastOp :: beforeLast)) = offset
            /\ retainsNonNegative (rev (lastOp :: beforeLast)) = true)
      as [Hsrc' Hnn'].
    { cbn [rev]. rewrite sourceLength_app, retainsNonNegative_app, Hnn1, Hnn2.
      done. }
    (* the usual path, on [lastOp] *)
    set (usual :=
           match lastOp with
           | Replace lastRemove lastInsert _ lastInsertMetadata _ _ =>
               if canMerge lastOp [] plan
               then
                 match mergedInsertMetadata lastInsert lastInsertMetadata []
                         insert plan with
                 | Ok im =>
                     pushReplaceFromEnd merge doc beforeLast
                       (offset - len lastRemove) (len lastRemove + removeLength)
                       (lastInsert ++ insert) (Some im) ido idl
                 | Throw e => thrown (rev beforeLast) e
                 end
               else
                 if canMergeRemovals lastOp [] insert plan
                 then
                   pushReplaceFromEnd merge doc beforeLast
                     (offset - len lastRemove) (len lastRemove + removeLength)
                     [] None None None
                 else
                   returned
                     (pushPlanned (rev (lastOp :: beforeLast))
                        (getData doc (mkRange offset (offset + removeLength)))
                        insert
                        (getMetadata doc
                           (mkRange offset (offset + removeLength)))
                        plan ido idl)
           | ReplaceMetadata _ _ =>
               thrown (rev (lastOp :: beforeLast)) ReplaceAfterReplaceMetadata
           | _ =>
               returned
                 (pushPlanned (rev (lastOp :: beforeLast))
                    (getData doc (mkRange offset (offset + removeLength)))
                    insert
                    (getMetadata doc (mkRange offset (offset + removeLength)))
                    plan ido idl)
           end).
    assert (out_thrown usual = None ->
            sourceLength (out_operations usual) = offset + removeLength
            /\ targetLength (out_operations usual)
               = targetLength (rev (lastOp :: beforeLast)) + len insert
            /\ retainsNonNegative (out_operations usual) = true) as Husual.
    { unfold usual.
      destruct lastOp as [k|k|r i rm im o l|r i|k f t|m b idx];
        try (intros _; by apply (Hfinish (_ :: beforeLast) plan)).
      - destruct (canMerge _ [] plan) eqn:Hcm.
        + destruct (mergedInsertMetadata i im [] insert plan) as [im'|e];
            [|discriminate].
          apply (Hmerge beforeLast r i (Some im')); try done; try lia.
          * simpl in Hsrc. lia.
          * cbn [rev]. rewrite targetLength_app. simpl. lia.
        + destruct (canMergeRemovals _ [] insert plan) eqn:Hcr.
          * apply canMergeRemovals_empty in Hcr
              as (Hins & r' & i' & rm' & im' & o' & l' & [= <- <- <- <- <- <-] & Hi).
            apply (Hremovals beforeLast r i); try done; try lia.
            -- simpl in Hsrc. lia.
            -- cbn [rev]. rewrite targetLength_app. simpl. lia.
          * intros _. by apply (Hfinish (_ :: beforeLast) plan).
      - discriminate. }
    destruct lastOp as [k|k|r i rm im o l|r i|k f t|m b idx];
      try exact Husual;
      try (destruct beforeLast as [|[] ?]; exact Husual).
    destruct beforeLast as [|penultOp rest]; [exact Husual|].
    destruct penultOp as [k|k|pr pi prm pim po pl|pr pi|k f t|m b idx];
      try exact Husual.
    destruct ((0 <? len i) && (len r =? 0) && (len pi =? 0)) eqn:Habsorb;
      [|exact Husual].
    simpl in Hn.
    assert (sourceLength (rev rest) + len pr = offset) as Hsrcrest.
    { cbn [rev] in Hsrc'. rewrite !sourceLength_app in Hsrc'. simpl in Hsrc'.
      lia. }
    assert (retainsNonNegative (rev rest) = true) as Hnnrest.
    { cbn [rev] in Hnn1. rewrite retainsNonNegative_app in Hnn1.
      by apply andb_prop in Hnn1 as [-> _]. }
    assert (targetLength (rev rest) + len pi
            = targetLength
                (rev (ReplaceMetadata r i :: Replace pr pi prm pim po pl :: rest)))
      as Htgtrest.
    { cbn [rev]. rewrite !targetLength_app. simpl. lia. }
    destruct (canMerge _ [Some i] plan) eqn:Hcm.
    + destruct (mergedInsertMetadata pi pim [Some i] insert plan) as [im'|e];
        [|discriminate].
      apply (Hmerge rest pr pi (Some im')); try done; lia.
    + destruct (canMergeRemovals _ [Some i] insert plan) eqn:Hcr.
      * apply canMergeRemovals_empty in Hcr
          as (Hins & r' & i' & rm' & im' & o' & l' & [= <- <- <- <- <- <-] & Hi).
        apply (Hremovals rest pr pi); try done; lia.
      * intros _.
        destruct (Hfinish (Replace pr pi prm pim po pl :: rest) plan)
          as (H1 & H2 & H3).
        -- cbn [rev]. rewrite sourceLength_app. simpl. lia.
        -- cbn [rev]. rewrite retainsNonNegative_app, Hnnrest. done.
        -- repeat split; [done| |done].
           rewrite H2. cbn [rev]. rewrite !targetLength_app. simpl. lia.
Qed.

(** The lengths after [pushReplace]. *)
Lemma pushReplace_lengths
      (merge : list cell -> list cell) (doc : Document) (ops ops' : list op)
        (offset removeLength : Z) (insert : list item)
        (insertMetadata : option (list cell))
        (insertedDataOffset insertedDataLength : option Z) :
  retainsNonNegative ops = true ->
  sourceLength ops = offset ->
  0 <= removeLength ->
  offset + removeLength <= len (data doc) ->
  pushReplace merge doc ops offset removeLength insert insertMetadata
              insertedDataOffset insertedDataLength = Ok ops' ->
  sourceLength ops' = offset + removeLength
  /\ targetLength ops' = targetLength ops + len insert
  /\ retainsNonNegative ops' = true.
Proof.
  intros Hnn Hsrc Hrem Hfit Hrun.
  unfold pushReplace, pushReplaceOutcome in Hrun.
  pose proof (pushReplaceFromEnd_lengths merge doc (length (rev ops)) (rev ops)
                (Nat.le_refl _) offset removeLength insert insertMetadata
                insertedDataOffset insertedDataLength) as Hlengths.
  rewrite rev_involutive in Hlengths.
  specialize (Hlengths Hnn Hsrc Hrem Hfit). cbv zeta in Hlengths.
  destruct (out_thrown _) eqn:Hthrown; [discriminate|].
  injection Hrun as <-. by apply Hlengths.
Qed.

(** [pushReplace] keeps the operations in step with the document: pushed
    at the offset the operations have reached, for a range inside the data,
    it leaves operations that reach the end of the removed range and whose
    result is longer by the inserted items, whether it appends a replace or
    merges with the replaces before it; the retains stay not negative. *)
Theorem pushReplace_keeps_lengths
        (merge : list cell -> list cell) (doc : Document) (ops ops' : list op)
        (offset removeLength : Z) (insert : list item)
        (insertMetadata : option (list cell))
        (insertedDataOffset insertedDataLength : option Z) :
  retainsNonNegative ops = true ->
  sourceLength ops = offset ->
  0 <= removeLength ->
  offset + removeLength <= len (data doc) ->
  pushReplace merge doc ops offset removeLength insert insertMetadata
              insertedDataOffset insertedDataLength = Ok ops' ->
  sourceLength ops' = offset + removeLength
  /\ targetLength ops' = targetLength ops + len insert
  /\ retainsNonNegative ops' = true.
Proof. apply pushReplace_lengths. Qed.

Lemma pushReplace_keeps_lengths_witness :
  sourceLength [Replace [Chr "a"] [item_x] (Some [Some [comment]])
                        (Some [Some [comment]]) None None] = 1 + 0
  /\ targetLength [Replace [Chr "a"] [item_x] (Some [Some [comment]])
                           (Some [Some [comment]]) None None]
     = targetLength removed_a + len [item_x]
  /\ retainsNonNegative
       [Replace [Chr "a"] [item_x] (Some [Some [comment]])
                (Some [Some [comment]]) None None] = true.
Proof.
  apply (pushReplace_keeps_lengths mergeCells doc_ab removed_a _ 1 0 [item_x]
           None None None); try reflexivity; vm_compute; congruence.
Defined.

(** The builder pushes no negative retain. *)
Lemma pushRetain_nonneg (ops ops' : list op) (length : Z) :
  pushRetain ops length = Ok ops' ->
  retainsNonNegative ops = true -> retainsNonNegative ops' = true.
Proof.
  unfold pushRetain. intros H Hnn.
  destruct (Z.ltb_spec length 0); [discriminate|].
  destruct (length =? 0); [by injection H as <-|].
  destruct (last ops) as [o|] eqn:Hlast.
  - apply last_Some in Hlast as [before ->].
    rewrite retainsNonNegative_app in Hnn. apply andb_prop in Hnn as [Hb Ho].
    destruct o; injection H as <-;
      rewrite ?removelast_last, !retainsNonNegative_app, ?Hb, ?Ho; simpl;
      rewrite ?andb_true_r; try done; simpl in Ho; lia.
  - injection H as <-. rewrite retainsNonNegative_app, Hnn. simpl.
    rewrite andb_true_r. lia.
Qed.

Lemma pushRetainMetadata_nonneg (ops ops' : list op) (length : Z) :
  pushRetainMetadata ops length = Ok ops' ->
  retainsNonNegative ops = true -> retainsNonNegative ops' = true.
Proof.
  unfold pushRetainMetadata. intros H Hnn.
  destruct (length <? 0); [discriminate|].
  destruct (length =? 0); [by injection H as <-|].
  destruct (last ops) as [o|] eqn:Hlast.
  - apply last_Some in Hlast as [before ->].
    rewrite retainsNonNegative_app in Hnn. apply andb_prop in Hnn as [Hb Ho].
    destruct o; injection H as <-;
      rewrite ?removelast_last, !retainsNonNegative_app, ?Hb, ?Ho; simpl;
      rewrite ?andb_true_r; done.
  - injection H as <-. by rewrite retainsNonNegative_app, Hnn.
Qed.

Lemma pushFinalRetain_nonneg (doc : Document) (ops ops' : list op)
      (offset : Z) (metaOffset : option Z) :
  pushFinalRetain doc ops offset metaOffset = Ok ops' ->
  retainsNonNegative ops = true -> retainsNonNegative ops' = true.
Proof.
  unfold pushFinalRetain. intros H Hnn.
  destruct (offset <? len (data doc)).
  - destruct (pushRetain ops (len (data doc) - offset)) as [ops1|] eqn:H1;
      [|discriminate].
    apply pushRetain_nonneg in H1; [|done]. revert H. run.
    destruct (metadataAt doc (len (data doc))) as [final|];
      [|by intros [= <-]].
    destruct (0 <? len final); [|by intros [= <-]].
    intros H. by apply pushRetainMetadata_nonneg in H.
  - revert H. run.
    destruct (metadataAt doc (len (data doc))) as [final|];
      [|by intros [= <-]].
    destruct (0 <? len final); [|by intros [= <-]].
    intros H. by apply pushRetainMetadata_nonneg in H.
Qed.

(** The length difference of the scan is the difference of the two
    lengths. *)
Lemma scan_lengths (ops : list op) :
  forall st,
    sc_diff (fold_left scanStep ops st)
    = sc_diff st + (targetLength ops - sourceLength ops).
Proof.
  induction ops as [|o ops IH]; intros st; simpl; [lia|].
  rewrite IH. destruct o; simpl; lia.
Qed.

(** The length difference of a transaction is the length of the document
    it leaves less the length of the document it applies to. *)
Lemma length_diff (t : Transaction) :
  ar_diff (getActiveRangeAndLengthDiff t)
  = targetLength (operations t) - sourceLength (operations t).
Proof.
  unfold getActiveRangeAndLengthDiff. simpl. by rewrite scan_lengths.
Qed.

(** A transaction of [newFromInsertion] covers the whole document: its
    operations retain or remove exactly the length of the data, the
    document it leaves is longer by the data inserted less the data
    [fixupInsertion] has removed, which is also the length difference of
    [getActiveRangeAndLengthDiff], and no retain is negative. *)
Theorem newFromInsertion_lengths
        (merge : list cell -> list cell) (doc : Document) (offset : Z)
        (items : list item) (tx : Transaction) :
  let insertion := fixupInsertion doc items offset in
  0 <= ins_offset insertion -> 0 <= ins_remove insertion ->
  ins_offset insertion + ins_remove insertion <= len (data doc) ->
  newFromInsertion merge doc offset items = Ok tx ->
  sourceLength (operations tx) = len (data doc)
  /\ targetLength (operations tx)
     = len (data doc) + len (ins_data insertion) - ins_remove insertion
  /\ ar_diff (getActiveRangeAndLengthDiff tx)
     = len (ins_data insertion) - ins_remove insertion
  /\ retainsNonNegative (operations tx) = true.
Proof.
  intros insertion Hoff Hrem Hfit Hrun.
  assert (sourceLength (operations tx) = len (data doc)
          /\ targetLength (operations tx)
             = len (data doc) + len (ins_data insertion) - ins_remove insertion
          /\ retainsNonNegative (operations tx) = true) as (Hs & Ht & Hnn).
  { unfold newFromInsertion, pushInsertion in Hrun. fold insertion in Hrun.
    cbn [operations newTransaction applied] in Hrun.
    rewrite Z.sub_0_r in Hrun.
    destruct (pushRetain_returns [] (ins_offset insertion) Hoff)
      as (ops1 & Hops1 & _ & Hs1 & Ht1 & _ & _).
    pose proof (pushRetain_nonneg _ _ _ Hops1 eq_refl) as Hnn1.
    rewrite Hops1 in Hrun. revert Hrun. run.
    destruct (pushReplace merge doc ops1 _ _ _ None _ _) as [ops2|] eqn:Hops2;
      [|discriminate].
    destruct (pushReplace_lengths merge doc ops1 ops2
                (ins_offset insertion) (ins_remove insertion)
                (ins_data insertion) None
                (ins_insertedDataOffset insertion)
                (ins_insertedDataLength insertion) Hnn1)
      as (Hs2 & Ht2 & Hnn2); try done.
    destruct (pushFinalRetain_returns doc ops2
                (ins_offset insertion + ins_remove insertion))
      as (ops3 & Hops3 & _ & Hs3 & Ht3 & _).
    rewrite Hops3. intros [= <-]. simpl.
    pose proof (pushFinalRetain_nonneg _ _ _ _ _ Hops3 Hnn2).
    simpl in Hs1, Ht1. repeat split; try done; lia. }
  rewrite length_diff. repeat split; try done; lia.
Qed.

Lemma newFromInsertion_lengths_witness :
  sourceLength [Retain 2; Replace [] [item_x] None None None None; Retain 5]
  = len (data doc_paragraph)
  /\ targetLength [Retain 2; Replace [] [item_x] None None None None; Retain 5]
     = len (data doc_paragraph) + len [item_x] - 0
  /\ ar_diff (getActiveRangeAndLengthDiff
                (newTransaction
                   [Retain 2; Replace [] [item_x] None None None None;
                    Retain 5]))
     = len [item_x] - 0
  /\ retainsNonNegative
       [Retain 2; Replace [] [item_x] None None None None; Retain 5] = true.
Proof.
  apply (newFromInsertion_lengths mergeCells doc_paragraph 2 [item_x]
           (newTransaction
              [Retain 2; Replace [] [item_x] None None None None; Retain 5]));
    try reflexivity; vm_compute; congruence.
Defined.

(** After an operation that is no retain, [pushFinalRetain] appends retains
    only. *)
Lemma pushFinalRetain_tail (doc : Document) (ops : list op) (offset : Z)
      (o : op) :
  last ops = Some o -> isRetaining o = false ->
  exists tail,
    pushFinalRetain doc ops offset None = Ok (ops ++ tail)
    /\ forallb isRetaining tail = true.
Proof.
  intros Hlast Ho.
  assert (forallb isRetaining (finalRetainMetadata doc) = true) as Hfinal.
  { unfold finalRetainMetadata.
    destruct (metadataAt doc (len (data doc))) as [final|]; [|done].
    by destruct (0 <? len final). }
  destruct (Z.ltb_spec offset (len (data doc))) as [Hlt|Hge].
  - exists (Retain (len (data doc) - offset) :: finalRetainMetadata doc).
    split; [|done].
    apply pushFinalRetain_appends; [done|].
    intros n Hn. rewrite Hlast in Hn. by injection Hn as ->.
  - exists (finalRetainMetadata doc). split; [|done].
    apply pushFinalRetain_at_end; [done|].
    intros n Hn. rewrite Hlast in Hn. by injection Hn as ->.
Qed.

(** A retain that stays before the internal list moves both offsets. *)
Lemma modifiedFrom_retain (docEnd length : Z) (rest : list op)
      (st : Modified) :
  md_oldOffset st + length <= docEnd ->
  modifiedFrom docEnd (Retain length :: rest) st
  = modifiedFrom docEnd rest
      (mkModified (md_start st) (md_end st) (md_oldOffset st + length)
                  (md_offset st + length)).
Proof.
  intros Hfit. cbn [modifiedFrom]. by rewrite (proj2 (Z.ltb_ge _ _)) by lia.
Qed.

(** The modified range of an insertion: [newFromInsertion] returns, and the
    modified range of its transaction is the data the caller meant to
    insert when [fixupInsertion] marks it (from its offset within the data
    inserted, over its length; to the end of the data inserted when that
    length is zero), and the whole of the data inserted otherwise. *)
Theorem newFromInsertion_modified_range
        (merge : list cell -> list cell) (doc : Document) (offset : Z)
        (items : list item) :
  let insertion := fixupInsertion doc items offset in
  0 <= ins_offset insertion ->
  ins_offset insertion <= internalListOuterStart doc ->
  ins_data insertion <> [] ->
  exists tx,
    newFromInsertion merge doc offset items = Ok tx
    /\ getModifiedRange tx doc
       = Some
           match ins_insertedDataOffset insertion,
                 ins_insertedDataLength insertion with
           | Some o, Some l =>
               mkRange (ins_offset insertion + o)
                       (if l =? 0
                        then ins_offset insertion + len (ins_data insertion)
                        else ins_offset insertion + o + l)
           | _, _ =>
               mkRange (ins_offset insertion)
                       (ins_offset insertion + len (ins_data insertion))
           end.
Proof.
  intros insertion Hoff Hend Hdata.
  unfold newFromInsertion, pushInsertion. fold insertion.
  cbn [operations newTransaction applied]. rewrite Z.sub_0_r.
  set (leading := if ins_offset insertion =? 0 then []
                  else [Retain (ins_offset insertion)]).
  assert (pushRetain [] (ins_offset insertion) = Ok leading) as ->.
  { unfold pushRetain, leading. rewrite (proj2 (Z.ltb_ge _ _)) by lia.
    by destruct (ins_offset insertion =? 0). }
  destruct (pushReplace_fresh merge doc leading (ins_offset insertion)
              (ins_remove insertion) (ins_data insertion)
              (ins_insertedDataOffset insertion)
              (ins_insertedDataLength insertion) Hdata)
    as (rm & im & Hpush & _).
  { intros o. unfold leading. destruct (ins_offset insertion =? 0); simpl;
      [done|]. by intros [= <-]. }
  run. rewrite Hpush. run.
  match type of Hpush with
  | _ = Ok (leading ++ [?o]) => remember o as replace eqn:Hreplaced
  end.
  destruct (pushFinalRetain_tail doc (leading ++ [replace])
              (ins_offset insertion + ins_remove insertion) replace)
    as (tail & -> & Htail); [by rewrite last_snoc|by subst replace|].
  eexists. split; [reflexivity|].
  unfold getModifiedRange. cbn [operations].
  assert (forall st,
             md_start (modifiedFrom (internalListOuterStart doc)
                         (replace :: tail) st)
             = Some match md_start st with
                    | None => md_offset st + insertedDataOffsetOr0 replace
                    | Some s => s
                    end
             /\ md_end (modifiedFrom (internalListOuterStart doc)
                          (replace :: tail) st)
                = Some match truthyInsertedDataLength replace with
                       | Some l =>
                           match md_start st with
                           | None =>
                               md_offset st + insertedDataOffsetOr0 replace
                           | Some s => s
                           end + l
                       | None => md_offset st + len (ins_data insertion)
                       end) as Hreplace.
  { intros st.
    assert (exists r i rm' im' o' l', replace = Replace r i rm' im' o' l'
                                 /\ i = ins_data insertion)
      as (r & i & rm' & im' & o' & l' & -> & ->)
        by (subst replace; by do 6 eexists).
    cbn [modifiedFrom].
    match goal with
    | |- context [modifiedFrom _ tail ?s] =>
        destruct (modifiedFrom_retaining (internalListOuterStart doc) tail s
                    Htail) as [-> ->]
    end.
    done. }
  rewrite <- app_assoc. cbn [app].
  assert (exists st,
             modifiedFrom (internalListOuterStart doc)
               (leading ++ replace :: tail) (mkModified None None 0 0)
             = modifiedFrom (internalListOuterStart doc) (replace :: tail) st
             /\ md_start st = None
             /\ md_offset st = ins_offset insertion) as (st & -> & Hs & Ho).
  { unfold leading. destruct (Z.eqb_spec (ins_offset insertion) 0) as [Hz|Hnz].
    - eexists. split; [reflexivity|]. split; [done|]. simpl. lia.
    - exists (mkModified None None (0 + ins_offset insertion)
                         (0 + ins_offset insertion)).
      split; [|split; [done|simpl; lia]].
      apply modifiedFrom_retain. simpl. lia. }
  destruct (Hreplace st) as [-> ->]. rewrite Hs, Ho.
  subst replace. f_equal.
  destruct (ins_insertedDataOffset insertion) as [o|],
           (ins_insertedDataLength insertion) as [l|]; simpl;
    rewrite ?Z.add_0_r; try done.
  by destruct (l =? 0).
Qed.

Lemma newFromInsertion_modified_range_witness :
  exists tx,
    newFromInsertion mergeCells doc_paragraph 2 [item_x] = Ok tx
    /\ getModifiedRange tx doc_paragraph = Some (mkRange 2 (2 + len [item_x])).
Proof.
  apply (newFromInsertion_modified_range mergeCells doc_paragraph 2 [item_x]);
    [simpl; lia|simpl; lia|discriminate].
Defined.

(** [newFromReplacement] over a collapsed range is [newFromInsertion] at
    that offset, when [fixupInsertion] does not move the insertion before
    the offset. *)
Theorem newFromReplacement_collapsed
        (merge : list cell -> list cell) (isNodeDeletable : string -> bool)
        (doc : Document) (range : Range) (items : list item)
        (removeMetadata : bool) :
  r_start range = r_end range ->
  0 <= r_start range ->
  r_start range <= ins_offset (fixupInsertion doc items (r_start range)) ->
  newFromReplacement merge isNodeDeletable doc range items removeMetadata
  = newFromInsertion merge doc (r_start range) items.
Proof.
  intros Hcollapsed H0 Hle.
  unfold newFromReplacement, newFromInsertion, pushRemoval, pushInsertion.
  rewrite isCollapsed_start_end.
  rewrite Hcollapsed, Z.eqb_refl. rewrite <- Hcollapsed.
  cbn [operations newTransaction applied].
  set (insertion := fixupInsertion doc items (r_start range)) in *.
  rewrite !Z.sub_0_r.
  assert (exists ops,
             pushRetain [] (ins_offset insertion) = Ok ops
             /\ (ops0 ← pushRetain [] (r_start range);
                 pushRetain ops0 (ins_offset insertion - r_start range))
                = Ok ops) as (ops & Hright & Hleft).
  { unfold pushRetain. rewrite !(proj2 (Z.ltb_ge _ _)) by lia.
    destruct (Z.eqb_spec (r_start range) 0) as [Hz|Hnz]; run.
    - rewrite Hz, Z.sub_0_r.
      destruct (ins_offset insertion =? 0); by eexists.
    - replace (ins_offset insertion =? 0) with false by lia.
      eexists. split; [reflexivity|].
      destruct (Z.eqb_spec (ins_offset insertion - r_start range) 0)
        as [Heq|Hneq]; simpl; do 3 f_equal; lia. }
  rewrite Hright. revert Hleft. run.
  destruct (pushRetain [] (r_start range)) as [ops0|]; [|discriminate].
  intros Hleft. fold insertion. by rewrite Hleft.
Qed.

Lemma newFromReplacement_collapsed_witness :
  newFromReplacement mergeCells allDeletable doc_paragraph (mkRange 2 2)
                     [item_x] false
  = newFromInsertion mergeCells doc_paragraph 2 [item_x].
Proof.
  apply (newFromReplacement_collapsed mergeCells allDeletable doc_paragraph
           (mkRange 2 2) [item_x] false);
    [reflexivity|simpl; lia|simpl; lia].
Defined.

(** The loop of [addSafeRemoveOps] over deletable nodes pushes nothing. *)
Lemma safeRemoveLoop_deletable (merge : list cell -> list cell)
      (isNodeDeletable : string -> bool) (doc : Document)
      (removeMetadata : bool) (steps : nat) :
  forall (i : Z) (st : SafeRemove),
    (forall j, i <= j < i + Z.of_nat steps -> isElementData doc j = true ->
          isNodeDeletable (getType doc j) = true) ->
    safeRemoveLoop merge isNodeDeletable doc removeMetadata steps i st = Ok st.
Proof.
  induction steps as [|steps IH]; intros i st Hdeletable; cbn [safeRemoveLoop];
    [done|].
  assert (safeRemoveStep merge isNodeDeletable doc removeMetadata i st = Ok st)
    as ->.
  { unfold safeRemoveStep.
    destruct (isElementData doc i) eqn:Helem; [|done].
    by rewrite (Hdeletable i ltac:(lia) Helem). }
  run. apply IH. intros j Hj. apply Hdeletable. lia.
Qed.

(** When every element of the range is of a deletable node type,
    [addSafeRemoveOps] removes the range in one [pushReplace] and returns
    the end of the range. *)
Theorem addSafeRemoveOps_deletable
        (merge : list cell -> list cell) (isNodeDeletable : string -> bool)
        (doc : Document) (ops : list op) (removeStart removeEnd : Z)
        (removeMetadata : bool) :
  removeStart < removeEnd ->
  (forall i, removeStart <= i < removeEnd -> isElementData doc i = true ->
        isNodeDeletable (getType doc i) = true) ->
  addSafeRemoveOps merge isNodeDeletable doc ops removeStart removeEnd
                   removeMetadata
  = ops' ← pushReplace merge doc ops removeStart (removeEnd - removeStart) []
             (emptyOrUndefined removeMetadata) None None;
    Ok (ops', removeEnd).
Proof.
  intros Hlt Hdeletable. unfold addSafeRemoveOps.
  rewrite safeRemoveLoop_deletable.
  - run. by replace (removeEnd - removeStart =? 0) with false by lia.
  - intros j Hj. apply Hdeletable. lia.
Qed.

Lemma addSafeRemoveOps_deletable_witness :
  addSafeRemoveOps mergeCells allDeletable doc_paragraph [Retain 1] 1 3 false
  = ops' ← pushReplace mergeCells doc_paragraph [Retain 1] 1 (3 - 1) []
             (emptyOrUndefined false) None None;
    Ok (ops', 3).
Proof.
  apply (addSafeRemoveOps_deletable mergeCells allDeletable doc_paragraph
           [Retain 1] 1 3 false); [lia|reflexivity].
Defined.

(** ** Reversal and the builder of metadata transactions *)

(** The builder methods on reversed operations. *)
Lemma last_map_reversalRule (ops : list op) :
  last (map reversalRule ops) = reversalRule <$> last ops.
Proof.
  destruct ops as [|o ops] using rev_ind; [done|].
  rewrite map_app. cbn [map]. by rewrite !last_snoc.
Qed.

Lemma pushRetain_reversed (ops : list op) (length : Z) :
  pushRetain (map reversalRule ops) length
  = ops' ← pushRetain ops length; Ok (map reversalRule ops').
Proof.
  unfold pushRetain. destruct (length <? 0); [done|].
  destruct (length =? 0); [done|].
  rewrite last_map_reversalRule.
  destruct (last ops) as [o|] eqn:Hlast; simpl.
  - apply last_Some in Hlast as [before ->].
    rewrite map_app. cbn [map]. rewrite !removelast_last.
    destruct o; run; by rewrite ?map_app.
  - run. by rewrite map_app.
Qed.

Lemma pushRetainMetadata_reversed (ops : list op) (length : Z) :
  pushRetainMetadata (map reversalRule ops) length
  = ops' ← pushRetainMetadata ops length; Ok (map reversalRule ops').
Proof.
  unfold pushRetainMetadata. destruct (length <? 0); [done|].
  destruct (length =? 0); [done|].
  rewrite last_map_reversalRule.
  destruct (last ops) as [o|] eqn:Hlast; simpl.
  - apply last_Some in Hlast as [before ->].
    rewrite map_app. cbn [map]. rewrite !removelast_last.
    destruct o; run; by rewrite ?map_app.
  - run. by rewrite map_app.
Qed.

Lemma pushReplaceMetadata_reversed (ops : list op) (remove insert : list item) :
  pushReplaceMetadata (map reversalRule ops) insert remove
  = map reversalRule (pushReplaceMetadata ops remove insert).
Proof.
  unfold pushReplaceMetadata. rewrite (andb_comm (len insert =? 0)).
  destruct ((len remove =? 0) && (len insert =? 0)); [done|].
  by rewrite map_app.
Qed.

(** The final retain on two documents of the same length that agree on
    what is left to retain. *)
Lemma pushFinalRetain_reversed (doc doc' : Document) (ops : list op)
      (offset : Z) (metaOffset metaOffset' : option Z) :
  len (data doc') = len (data doc) ->
  (offset < len (data doc) ->
   metadataAt doc' (len (data doc)) = metadataAt doc (len (data doc))) ->
  (len (data doc) <= offset ->
   match metadataAt doc (len (data doc)) with
   | Some final => len final - default 0 metaOffset = 0
   | None => True
   end
   /\ match metadataAt doc' (len (data doc)) with
      | Some final => len final - default 0 metaOffset' = 0
      | None => True
      end) ->
  pushFinalRetain doc' (map reversalRule ops) offset metaOffset'
  = ops' ← pushFinalRetain doc ops offset metaOffset;
    Ok (map reversalRule ops').
Proof.
  intros Hlen Hin Hat. unfold pushFinalRetain. rewrite Hlen.
  destruct (Z.ltb_spec offset (len (data doc))) as [Hlt|Hge].
  - rewrite (Hin Hlt), pushRetain_reversed.
    destruct (pushRetain ops (len (data doc) - offset)) as [ops1|]; [|done].
    run.
    destruct (metadataAt doc (len (data doc))) as [final|]; [|done].
    destruct (0 <? len final); [|done].
    apply pushRetainMetadata_reversed.
  - destruct (Hat Hge) as [Hdoc Hdoc']. run.
    assert (forall (d : Document) (m : option Z) (l : list op),
               match metadataAt d (len (data doc)) with
               | Some final => len final - default 0 m = 0
               | None => True
               end ->
               match metadataAt d (len (data doc)) with
               | Some final =>
                   if 0 <? len final
                   then pushRetainMetadata l (len final - default 0 m)
                   else Ok l
               | None => Ok l
               end = Ok l) as Hnothing.
    { intros d m l Hd. destruct (metadataAt d (len (data doc))); [|done].
      rewrite Hd. by destruct (0 <? len l0). }
    by rewrite !Hnothing.
Qed.

(** The slice over what has been spliced in is what has been spliced
    in. *)
Lemma js_slice_inserted {A : Type} (l new : list A) (index : Z) :
  0 <= index -> index <= len l ->
  js_slice (take (Z.to_nat index) l ++ new ++ drop (Z.to_nat index) l)
           index (index + len new)
  = new.
Proof.
  intros H0 Hle. unfold js_slice.
  assert (len (take (Z.to_nat index) l ++ new ++ drop (Z.to_nat index) l)
          = len l + len new) as ->.
  { unfold len in *. rewrite !length_app, length_take, length_drop. lia. }
  pose proof (len_nonneg new).
  rewrite !(proj2 (Z.ltb_ge _ _)) by lia.
  replace (Z.min index (len l + len new)) with index by lia.
  replace (Z.min (index + len new) (len l + len new)) with (index + len new)
    by lia.
  replace (Z.to_nat (index + len new - index)) with (length new)
    by (unfold len; lia).
  rewrite drop_app_length'; [|unfold len in *; rewrite length_take; lia].
  by rewrite take_app_length.
Qed.

(** [reversed] of a transaction that has not been applied. *)
Lemma reversed_of_operations (ops : list op) :
  reversed (mkTransaction ops false)
  = mkTransaction (map reversalRule ops) false.
Proof.
  unfold reversed. cbn [operations applied newTransaction].
  f_equal. rewrite fold_push. simpl. apply reversed_operations_rule.
Qed.

(** Undoing a metadata insertion is the metadata removal: on the document
    that differs from [doc] by the elements inserted at [index] of the
    metadata list at [offset], [newFromMetadataRemoval] of the range of the
    inserted elements returns the [reversed] transaction of
    [newFromMetadataInsertion]. *)
Theorem newFromMetadataInsertion_reversed
        (doc doc' : Document) (offset index : Z) (newElements : list item)
        (tx : Transaction) :
  let elements := elementsAt doc offset in
  newElements <> [] ->
  0 <= index -> index <= len elements ->
  offset <= len (data doc) ->
  data doc' = data doc ->
  elementsAt doc' offset
  = take (Z.to_nat index) elements ++ newElements
      ++ drop (Z.to_nat index) elements ->
  (offset < len (data doc) ->
   metadataAt doc' (len (data doc)) = metadataAt doc (len (data doc))) ->
  newFromMetadataInsertion doc offset index newElements = Ok tx ->
  newFromMetadataRemoval doc' offset (mkRange index (index + len newElements))
  = Ok (reversed tx).
Proof.
  intros elements Hnew H0 Hle Hoff Hdata Hcell Hfinal Hrun.
  assert (0 < len newElements) as Hpos.
  { destruct newElements; [done|]. unfold len. simpl. lia. }
  pose proof (len_nonneg elements) as Hels.
  unfold newFromMetadataInsertion in Hrun. fold elements in Hrun.
  replace (len newElements =? 0) with false in Hrun by lia.
  cbn [operations newTransaction applied] in Hrun.
  destruct (pushRetain [] offset) as [ops1|] eqn:H1; [|discriminate].
  revert Hrun. run.
  destruct (pushRetainMetadata ops1 index) as [ops2|] eqn:H2; [|discriminate].
  set (ops3 := pushReplaceMetadata ops2 [] newElements).
  destruct (pushRetainMetadata ops3 (len elements - index)) as [ops4|] eqn:H4;
    [|discriminate].
  destruct (pushFinalRetain doc ops4 offset (Some (len elements)))
    as [ops5|] eqn:H5; [|discriminate].
  intros [= <-]. rewrite reversed_of_operations.
  unfold newFromMetadataRemoval. rewrite Hcell.
  set (elements' := take (Z.to_nat index) elements ++ newElements
                      ++ drop (Z.to_nat index) elements).
  assert (len elements' = len elements + len newElements) as Hlen'.
  { unfold elements', len in *.
    rewrite !length_app, length_take, length_drop. lia. }
  cbn [r_start r_end r_from r_to operations newTransaction applied].
  rewrite (Z.min_l index), (Z.max_r index) by lia.
  replace (len elements' =? 0) with false by lia.
  rewrite (proj2 (Z.ltb_ge _ _)) by lia.
  rewrite (proj2 (Z.ltb_ge _ _)) by lia. cbn [orb].
  unfold elements'. rewrite js_slice_inserted by done. fold elements'.
  replace (len newElements =? 0) with false by lia.
  change (@nil op) with (map reversalRule []).
  rewrite pushRetain_reversed, H1. run.
  rewrite pushRetainMetadata_reversed, H2. run.
  rewrite (pushReplaceMetadata_reversed ops2 [] newElements). fold ops3.
  replace (len elements' - (index + len newElements))
    with (len elements - index) by lia.
  rewrite pushRetainMetadata_reversed, H4. run.
  rewrite (pushFinalRetain_reversed doc doc' ops4 offset (Some (len elements))
             (Some (len elements'))).
  - by rewrite H5.
  - by rewrite Hdata.
  - exact Hfinal.
  - intros Hge. assert (offset = len (data doc)) as Heq by lia.
    rewrite <- Heq. split.
    + unfold elements, elementsAt.
      by destruct (metadataAt doc offset); simpl; [lia|].
    + pose proof Hcell as Hcell'. unfold elementsAt in Hcell'.
      fold elements' in Hcell'.
      destruct (metadataAt doc' offset); simpl in *; [|done].
      rewrite Hcell'. lia.
Qed.

Lemma newFromMetadataInsertion_reversed_witness :
  newFromMetadataRemoval doc_ab_with_alien 0 (mkRange 1 (1 + len [alien]))
  = Ok (reversed
          (newTransaction
             [RetainMetadata 1; ReplaceMetadata [] [alien]; Retain 2])).
Proof.
  apply (newFromMetadataInsertion_reversed doc_ab doc_ab_with_alien 0 1
           [alien]
           (newTransaction
              [RetainMetadata 1; ReplaceMetadata [] [alien]; Retain 2]));
    try reflexivity; try discriminate; vm_compute; congruence.
Defined.

(** ** The empty-paragraph rule *)






















